(** * h2csmuggler: the upgrade-and-tunnel engine of [h2csmuggler.py]

    A shallow embedding of the functions of [src/h2csmuggler.py] and the
    properties of its specification.

    Conventions of the embedding.
    - Python [bytes] are lists of [byte]; Python [str] is a Rocq [string]
      holding the UTF-8 encoding of the text, so [s.encode('utf-8')] is
      [list_byte_of_string s].
    - The socket and the HTTP/2 connection object are mutable objects that the
      script passes around by reference; one probe owns exactly one of each.
      They live in the [World], which every function threads, and the
      [connection] / [h2_connection] parameters of the source are dropped.
    - Everything observable (socket calls, bytes handed to the frame decoder,
      printed lines) is appended to the world's [trace], oldest first.
    - A [while] loop takes a fuel argument; the outcome [Running] says that
      the loop was still executing when the fuel ran out.
    - The peer is a script: what each successive [recv] does, and what the
      peer does once the script is used up.  A read that fails is the peer
      resetting the connection; [shutdown] on a connection that was reset
      raises in its turn.  Writes and [close] are taken to succeed, and so
      is [shutdown] on a connection that was not reset.
    - The functions that the script takes from elsewhere (the URL functions
      of the Python library, the wordlist file, the wire codec of the [h2]
      package) are the fields of an environment [Env]. *)

From Stdlib Require Import List ZArith NArith Lia Bool String DecimalString.
From Stdlib Require Import Strings.Byte Sorting.Sorted.
Import ListNotations.

Set Implicit Arguments.
Open Scope list_scope.

(** ** Byte strings *)

Definition bytes := list byte.

(** [b "text"] is the Python literal [b'text']. *)
Definition b (s : string) : bytes := list_byte_of_string s.

Definition CRLF : bytes := [x0d; x0a].
Definition CRLFCRLF : bytes := CRLF ++ CRLF.

Fixpoint bytes_eqb (x y : bytes) : bool :=
  match x, y with
  | [], [] => true
  | c :: x', d :: y' => Byte.eqb c d && bytes_eqb x' y'
  | _, _ => false
  end.

(** [starts_with p s] is [s.startswith(p)]. *)
Fixpoint starts_with (p s : bytes) : bool :=
  match p, s with
  | [], _ => true
  | c :: p', d :: s' => Byte.eqb c d && starts_with p' s'
  | _ :: _, [] => false
  end.

(** [contains sep s] is [sep in s]. *)
Fixpoint contains (sep s : bytes) : bool :=
  starts_with sep s ||
  match s with
  | [] => false
  | _ :: s' => contains sep s'
  end.

(** [split_once sep s] is [s.split(sep, 1)] when [sep] occurs in [s]: the
    bytes before and after the first occurrence.  [None] stands for the
    one-element list that Python returns when [sep] does not occur. *)
Fixpoint split_once (sep s : bytes) : option (bytes * bytes) :=
  if starts_with sep s then Some ([], skipn (List.length sep) s)
  else match s with
       | [] => None
       | c :: s' =>
           match split_once sep s' with
           | Some (before, after) => Some (c :: before, after)
           | None => None
           end
       end.

(** ASCII whitespace, the separators of [bytes.split()] without argument. *)
Definition is_space (c : byte) : bool :=
  match c with
  | x20 | x09 | x0a | x0d | x0b | x0c => true
  | _ => false
  end.

Definition flush_token (cur : bytes) (rest : list bytes) : list bytes :=
  match cur with
  | [] => rest
  | _ :: _ => rev cur :: rest
  end.

(** [split_ws_from cur s]: the tokens of [s], where [cur] holds (reversed)
    the bytes of the token being read. *)
Fixpoint split_ws_from (cur s : bytes) : list bytes :=
  match s with
  | [] => flush_token cur []
  | c :: s' =>
      if is_space c then flush_token cur (split_ws_from [] s')
      else split_ws_from (c :: cur) s'
  end.

(** [split_ws s] is [s.split()]. *)
Definition split_ws (s : bytes) : list bytes := split_ws_from [] s.

(** [split_sep_from sep skip cur s] is [s.split(sep)] for a non-empty [sep];
    [skip] counts the bytes of a separator still to be passed over. *)
Fixpoint split_sep_from (sep : bytes) (skip : nat) (cur s : bytes) : list bytes :=
  match s with
  | [] => [rev cur]
  | c :: s' =>
      match skip with
      | S k => split_sep_from sep k cur s'
      | O =>
          if starts_with sep s
          then rev cur :: split_sep_from sep (List.length sep - 1) [] s'
          else split_sep_from sep 0 (c :: cur) s'
      end
  end.

Definition split_sep (sep s : bytes) : list bytes := split_sep_from sep 0 [] s.

(** ** Strict UTF-8, as [bytes.decode('utf-8')] accepts it *)

Definition in_range (lo hi : N) (c : byte) : bool :=
  (N.leb lo (Byte.to_N c) && N.leb (Byte.to_N c) hi)%N.

Definition is_cont : byte -> bool := in_range 128 191.

Fixpoint utf8_valid (s : bytes) : bool :=
  match s with
  | [] => true
  | c0 :: s1 =>
      if in_range 0 127 c0 then utf8_valid s1
      else match s1 with
      | [] => false
      | c1 :: s2 =>
          if in_range 194 223 c0 then is_cont c1 && utf8_valid s2
          else match s2 with
          | [] => false
          | c2 :: s3 =>
              if in_range 224 239 c0 then
                (if in_range 224 224 c0 then in_range 160 191 c1
                 else if in_range 237 237 c0 then in_range 128 159 c1
                 else is_cont c1)
                && is_cont c2 && utf8_valid s3
              else match s3 with
              | [] => false
              | c3 :: s4 =>
                  in_range 240 244 c0
                  && (if in_range 240 240 c0 then in_range 144 191 c1
                      else if in_range 244 244 c0 then in_range 128 143 c1
                      else is_cont c1)
                  && is_cont c2 && is_cont c3 && utf8_valid s4
              end
          end
      end
  end.

(** [decode_utf8 s] is [s.decode('utf-8')]; [None] is [UnicodeDecodeError]. *)
Definition decode_utf8 (s : bytes) : option string :=
  if utf8_valid s then Some (string_of_list_byte s) else None.

(** ["%d" % n] *)
Definition format_d (n : Z) : string := NilZero.string_of_int (Z.to_int n).


(** ** Exceptions, outcomes and the world *)

Inductive exn :=
| SocketTimeout                 (* socket.timeout *)
| SocketError                   (* any other OSError of the socket *)
| FileError                     (* open() of the wordlist fails *)
| IndexError
| ValueError
| TypeError
| AttributeError                (* a method of None *)
| NameError (name : string)
| UnicodeDecodeError
| RuntimeError (msg : string)
| ProtocolError                 (* the exceptions of the h2 package *)
| SystemExit (code : Z).

(** [except Exception] catches everything but [SystemExit]. *)
Definition is_Exception (e : exn) : bool :=
  match e with
  | SystemExit _ => false
  | _ => true
  end.

Inductive outcome (A : Type) :=
| Returned (a : A)
| Raised (e : exn)
| Running.
Arguments Raised {A} e.
Arguments Running {A}.

(** The events of [h2.events] that the script tells apart; every other event
    class (settings, window updates, pings ...) is [OtherEvent]. *)
Inductive Event :=
| ResponseReceived (stream_id : Z) (headers : list (bytes * bytes))
| DataReceived (stream_id : Z) (data : bytes)
| StreamReset (stream_id : Z) (error_code : Z)
| StreamEnded (stream_id : Z)
| OtherEvent (info : string).

(** What one call of [sock.recv] does. *)
Inductive recv_outcome :=
| Chunk (data : bytes)          (* returns these bytes; [b''] at end of stream *)
| TimedOut                      (* raises socket.timeout *)
| Failed.                       (* raises another OSError: the peer has reset
                                   the connection *)

(** What the peer does once its script is used up: it stays silent, so each
    further read times out, or it has closed, so each further read returns
    [b''] at once. *)
Inductive peer_end := Silent | Closed.

(** Printed text.  The conversions whose result is only ever printed are kept
    symbolic; the text of an exception is the library's, not the script's. *)
Inductive line :=
| Text (s : string)
| Replaced (data : bytes)       (* data.decode('utf-8', 'replace') *)
| Info (e : Event)              (* "[INFO] " + str(event) *)
| ErrorOf (e : exn) (s : string). (* "[ERROR] " + e.__str__() + ": " + s *)

Inductive io :=
| Connect (host : option string) (port : Z) (tls : bool)
| Sendall (data : bytes)
| Recv (r : recv_outcome)
| Feed (data : bytes)           (* h2_connection.receive_data(data) *)
| Print (l : line)
| PrintErr (l : line)
| Shutdown                      (* connection.shutdown(socket.SHUT_RDWR) *)
| Close.                        (* connection.close() *)

(** Modelled from the spec: the H2TunnelSession of section 4.3, which the
    script takes from the imported [h2] package; that package is not part of
    the sources.  The session holds the outgoing-frame buffer, the
    next-available stream ID counter and the streams created so far. *)
Record H2Connection := {
  next_stream_id : Z;
  streams : list Z;               (* IDs of the streams opened, oldest first *)
  outbuf : bytes;                 (* frames encoded but not yet drained *)
  fed : list bytes                (* chunks given to the decoder, oldest first *)
}.

Record World := {
  inbox : list recv_outcome;      (* what the next calls of recv will do *)
  peer : peer_end;
  connect_fails : bool;           (* sock.connect raises *)
  connection : bool;              (* the variable [connection] of [scan];
                                     [false] is [None] *)
  h2c : H2Connection;
  trace : list io
}.

(** The result of [urllib.parse.urlparse], with [geturl()] as a field. *)
Record ParseResult := {
  scheme : string;
  hostname : option string;
  port : option Z;
  path : string;
  query : string;
  geturl : string
}.

(** A header of a smuggled request: a tuple of strings, where [None] can
    only come from [url.hostname]. *)
Definition header_tuple := list (option string).

(** The parsed command line. *)
Record Args := {
  proxy : string;
  wordlist : option string;
  request : string;
  data : option string;
  header : option (list string);
  test : bool;
  verbose : bool;
  url : string
}.

(** What the script uses and the sources do not define: the URL functions of
    the Python library, the wordlist file, and the wire codec of the tunnel
    session. *)
Record Env := {
  urlparse : string -> ParseResult;
  urljoin : string -> string -> string;
  strip : string -> string;
  readlines : string -> option (list string);
  preface : bytes;
  settings_header_value : bytes;
  encode_headers : Z -> list header_tuple -> bool -> bytes;
  encode_goaway : H2Connection -> bytes;
  (** the events decoded from a chunk, or a protocol error, and the frames
      queued in reply *)
  decode : H2Connection -> bytes -> option (list Event) * bytes
}.

(** ** The monad of the script *)

Definition M (A : Type) := World -> outcome A * World.

Definition ret {A} (a : A) : M A := fun w => (Returned a, w).
Definition raise {A} (e : exn) : M A := fun w => (Raised e, w).
Definition running {A} : M A := fun w => (Running, w).

Definition bind {A B} (m : M A) (f : A -> M B) : M B :=
  fun w =>
    match m w with
    | (Returned a, w') => f a w'
    | (Raised e, w') => (Raised e, w')
    | (Running, w') => (Running, w')
    end.

Declare Scope py_scope.
Delimit Scope py_scope with py.
Notation "x <- m ;; k" := (bind m (fun x => k))
  (at level 100, m at next level, right associativity) : py_scope.
Notation "m ;;; k" := (bind m (fun _ => k))
  (at level 100, right associativity) : py_scope.
Open Scope py_scope.

(** [try: m except socket.timeout: h] *)
Definition except_timeout {A} (m : M A) (h : M A) : M A :=
  fun w =>
    match m w with
    | (Raised SocketTimeout, w') => h w'
    | r => r
    end.

(** [try: m except Exception as e: h e] *)
Definition except_Exception {A} (m : M A) (h : exn -> M A) : M A :=
  fun w =>
    match m w with
    | (Raised e, w') => if is_Exception e then h e w' else (Raised e, w')
    | r => r
    end.

(** [try: m finally: fin].  The [finally] block runs when [m] returns or
    raises; its own exception replaces the one of [m]. *)
Definition finally {A} (m : M A) (fin : M unit) : M A :=
  fun w =>
    match m w with
    | (Returned a, w') =>
        match fin w' with
        | (Returned _, w'') => (Returned a, w'')
        | (Raised e, w'') => (Raised e, w'')
        | (Running, w'') => (Running, w'')
        end
    | (Raised e, w') =>
        match fin w' with
        | (Returned _, w'') => (Raised e, w'')
        | (Raised e', w'') => (Raised e', w'')
        | (Running, w'') => (Running, w'')
        end
    | (Running, w') => (Running, w')
    end.

Definition with_inbox (l : list recv_outcome) (w : World) : World :=
  {| inbox := l; peer := peer w; connect_fails := connect_fails w;
     connection := connection w; h2c := h2c w; trace := trace w |}.

Definition with_connection (c : bool) (w : World) : World :=
  {| inbox := inbox w; peer := peer w; connect_fails := connect_fails w;
     connection := c; h2c := h2c w; trace := trace w |}.

Definition with_h2c (h : H2Connection) (w : World) : World :=
  {| inbox := inbox w; peer := peer w; connect_fails := connect_fails w;
     connection := connection w; h2c := h; trace := trace w |}.

Definition with_trace (t : list io) (w : World) : World :=
  {| inbox := inbox w; peer := peer w; connect_fails := connect_fails w;
     connection := connection w; h2c := h2c w; trace := t |}.

Definition log (x : io) : M unit :=
  fun w => (Returned tt, with_trace (trace w ++ [x]) w).

Definition print (l : line) : M unit := log (Print l).
Definition print_err (l : line) : M unit := log (PrintErr l).

Definition set_h2 (h : H2Connection) : M unit :=
  fun w => (Returned tt, with_h2c h w).

Definition get_h2 : M H2Connection := fun w => (Returned (h2c w), w).

(** ** The socket *)

Definition result_of (r : recv_outcome) : M bytes :=
  match r with
  | Chunk data => ret data
  | TimedOut => raise SocketTimeout
  | Failed => raise SocketError
  end.

(** [sock.recv(bufsize)]: the next outcome of the script, or the peer's
    final behaviour.  The script gives what each call returns, so its chunks
    are taken to hold at most [bufsize] bytes. *)
Definition recv (bufsize : N) : M bytes :=
  fun w =>
    match inbox w with
    | r :: later => (log (Recv r) ;;; result_of r) (with_inbox later w)
    | [] =>
        let r := match peer w with Silent => TimedOut | Closed => Chunk [] end in
        (log (Recv r) ;;; result_of r) w
    end.

Definition sendall (data : bytes) : M unit := log (Sendall data).
(** The peer has reset the connection: a read has failed since the socket
    was connected. *)
Fixpoint reset_since (t : list io) (reset : bool) : bool :=
  match t with
  | [] => reset
  | Connect _ _ _ :: t' => reset_since t' false
  | Recv Failed :: t' => reset_since t' true
  | _ :: t' => reset_since t' reset
  end.

Definition reset_by_peer (t : list io) : bool := reset_since t false.

(** [connection.shutdown(socket.SHUT_RDWR)]: on a connection that the peer
    has reset the socket is no longer connected and the call raises
    [OSError]. *)
Definition shutdown : M unit :=
  fun w =>
    if reset_by_peer (trace w) then (Raised SocketError, w)
    else log Shutdown w.
Definition close : M unit := log Close.

(** ** The tunnel session *)

Definition first_client_stream_id : Z := 1.

(** Modelled from the spec: a new H2TunnelSession; no stream is open and the
    stream ID counter stands at the first client-initiated ID. *)
Definition new_H2Connection : H2Connection :=
  {| next_stream_id := first_client_stream_id; streams := []; outbuf := []; fed := [] |}.

Section Script.

Variable E : Env.

(** The module-level variable [UPGRADE_ONLY].  ([MAX_TIMEOUT] only sets the
    socket timeout, which the world shows as [TimedOut] reads.) *)
Variable UPGRADE_ONLY : bool.

(** Modelled from the spec: [initiate() -> settingsHeaderValue] of the
    H2TunnelSession (h2's [initiate_upgrade_connection], not in the sources).
    The session starts in the state "connection established, settings
    pending": its first frames wait in the outgoing buffer. *)
Definition initiate_upgrade_connection : M bytes :=
  h <- get_h2 ;;
  set_h2 {| next_stream_id := next_stream_id h; streams := streams h;
            outbuf := outbuf h ++ preface E; fed := fed h |} ;;;
  ret (settings_header_value E).

(** Modelled from the spec: [bytesToSend()] of the H2TunnelSession (h2's
    [data_to_send], not in the sources): drains the outgoing buffer. *)
Definition data_to_send : M bytes :=
  h <- get_h2 ;;
  set_h2 {| next_stream_id := next_stream_id h; streams := streams h;
            outbuf := []; fed := fed h |} ;;;
  ret (outbuf h).

(** Modelled from the spec: [feed] / [pump] of the H2TunnelSession (h2's
    [receive_data], not in the sources): decodes the bytes into protocol
    events, in arrival order; malformed framing is an error.  [feed h chunk]
    is the session after the call. *)
Definition feed (h : H2Connection) (chunk : bytes) : H2Connection :=
  {| next_stream_id := next_stream_id h; streams := streams h;
     outbuf := outbuf h ++ snd (decode E h chunk); fed := fed h ++ [chunk] |}.

Definition receive_data (chunk : bytes) : M (list Event) :=
  log (Feed chunk) ;;;
  h <- get_h2 ;;
  set_h2 (feed h chunk) ;;;
  match fst (decode E h chunk) with
  | Some events => ret events
  | None => raise ProtocolError
  end.

(** Modelled from the spec: the first half of [openStream] of the
    H2TunnelSession (h2's [get_next_available_stream_id], not in the
    sources): reads the next-available stream ID counter. *)
Definition get_next_available_stream_id : M Z :=
  h <- get_h2 ;; ret (next_stream_id h).

(** Modelled from the spec: the second half of [openStream] of the
    H2TunnelSession (h2's [send_headers], not in the sources): opens the
    stream, encodes a HEADERS frame into the outgoing buffer and moves the
    counter past the ID, which is odd and was never used. *)
Definition send_headers (stream_id : Z) (headers : list header_tuple)
    (end_stream : bool) : M unit :=
  h <- get_h2 ;;
  if Z.odd stream_id && (next_stream_id h <=? stream_id)%Z then
    set_h2 {| next_stream_id := stream_id + 2; streams := streams h ++ [stream_id];
              outbuf := outbuf h ++ encode_headers E stream_id headers end_stream;
              fed := fed h |}
  else raise ProtocolError.

(** Modelled from the spec: [close()] of the H2TunnelSession (h2's
    [close_connection], not in the sources): encodes a termination frame. *)
Definition close_connection : M unit :=
  h <- get_h2 ;;
  set_h2 {| next_stream_id := next_stream_id h; streams := streams h;
            outbuf := outbuf h ++ encode_goaway E h; fed := fed h |}.

(** ** The script *)

Fixpoint for_each {A} (l : list A) (body : A -> M unit) : M unit :=
  match l with
  | [] => ret tt
  | x :: l' => body x ;;; for_each l' body
  end.

Definition handle_response (response_headers : list (bytes * bytes))
    (stream_id : Z) : M unit :=
  for_each response_headers (fun '(name, value) =>
    match decode_utf8 name with
    | None => raise UnicodeDecodeError
    | Some n =>
        match decode_utf8 value with
        | None => raise UnicodeDecodeError
        | Some v => print (Text (n ++ ": " ++ v))
        end
    end) ;;;
  print (Text EmptyString).

Definition handle_event (isVerbose : bool) (event : Event) : M unit :=
  match event with
  | ResponseReceived stream_id headers => handle_response headers stream_id
  | DataReceived _ d => print (Replaced d) ;;; print (Text EmptyString)
  | StreamReset _ error_code =>
      raise (RuntimeError ("stream reset: " ++ format_d error_code))
  | _ => if isVerbose then print (Info event) else ret tt
  end.

Definition handle_events (events : list Event) (isVerbose : bool) : M unit :=
  for_each events (handle_event isVerbose).

Definition establish_tcp_connection (proxy_url : ParseResult) : M unit :=
  let default := if String.eqb (scheme proxy_url) "http" then 80%Z else 443%Z in
  let port :=
    match port proxy_url with
    | Some p => if (p =? 0)%Z then default else p
    | None => default
    end in
  log (Connect (hostname proxy_url) port (String.eqb (scheme proxy_url) "https")) ;;;
  fun w => if connect_fails w then (Raised SocketError, w) else (Returned tt, w).

Definition HTTP2_SETTINGS : bytes := b "AAMAAABkAARAAAAAAAIAAAAA".

Definition or_slash (p : string) : string :=
  if String.eqb p EmptyString then "/"%string else p.

Definition send_initial_request (proxy_url : ParseResult) (settings : bytes) : M unit :=
  let path := or_slash (path proxy_url) in
  let addl_conn_str := if UPGRADE_ONLY then b EmptyString else b ", HTTP2-Settings" in
  match hostname proxy_url with
  | None => raise AttributeError
  | Some host =>
      let request :=
        b "GET " ++ list_byte_of_string path ++ b " HTTP/1.1" ++ CRLF ++
        b "Host: " ++ list_byte_of_string host ++ CRLF ++
        b "Accept: */*" ++ CRLF ++
        b "Accept-Language: en" ++ CRLF ++
        b "Upgrade: h2c" ++ CRLF ++
        b "HTTP2-Settings: " ++ HTTP2_SETTINGS ++ CRLF ++
        b "Connection: Upgrade" ++ addl_conn_str ++ CRLF ++
        CRLF in
      sendall request
  end.

(** The loop of [get_upgrade_response]. *)
Fixpoint recv_headers (fuel : nat) (data : bytes) : M bytes :=
  if contains CRLFCRLF data then ret data
  else match fuel with
       | O => running
       | S fuel' => chunk <- recv 8192 ;; recv_headers fuel' (data ++ chunk)
       end.

Definition get_upgrade_response (fuel : nat) (proxy_url : ParseResult)
    : M (option bytes * bool) :=
  data <- recv_headers fuel [] ;;
  match split_once CRLFCRLF data with
  | None => raise ValueError
  | Some (headers, rest) =>
      let split_headers := split_ws headers in
      match nth_error split_headers 1 with
      | None => raise IndexError
      | Some code =>
          if negb (bytes_eqb code (b "101")) then
            print (Text ("[INFO] Failed to upgrade: " ++ geturl proxy_url)) ;;;
            ret (None, false)
          else ret (Some rest, true)
      end
  end.

Definition ends_with_StreamEnded (events : list Event) : bool :=
  match rev events with
  | StreamEnded _ :: _ => true
  | _ => false
  end.

(** [sock.recv] under [try ... except socket.timeout]: [None] when the read
    timed out. *)
Definition recv_or_timeout (bufsize : N) : M (option bytes) :=
  except_timeout (newdata <- recv bufsize ;; ret (Some newdata)) (ret None).

(** The [try] of [getData] encloses the whole loop and its handler only
    leaves it, so the function returns the list accumulated so far at the two
    places that raise [socket.timeout]: the read, and the [raise] that follows
    a [StreamEnded]. *)
Fixpoint getData_from (fuel : nat) (events : list Event) : M (list Event) :=
  match fuel with
  | O => running
  | S fuel' =>
      r <- recv_or_timeout 8192 ;;
      match r with
      | None => ret events
      | Some newdata =>
          new <- receive_data newdata ;;
          let events := events ++ new in
          if (0 <? List.length events)%nat && ends_with_StreamEnded events
          then ret events
          else getData_from fuel' events
      end
  end.

Definition getData (fuel : nat) : M (list Event) := getData_from fuel [].

Definition is_None {A} (o : option A) : bool :=
  match o with None => true | Some _ => false end.

(** Truth value of an optional string: [None] and [''] are false. *)
Definition truthy (o : option string) : bool :=
  match o with
  | None => false
  | Some s => negb (String.eqb s EmptyString)
  end.

(** [sendData] is called but defined nowhere in the sources. *)
Definition sendSmuggledRequest (fuel : nat)
    (smuggled_request_headers : list header_tuple) (args : Args) : M unit :=
  stream_id <- get_next_available_stream_id ;;
  send_headers stream_id smuggled_request_headers (is_None (data args)) ;;;
  (out <- data_to_send ;; sendall out) ;;;
  (if truthy (data args) then raise (NameError "sendData") else ret tt) ;;;
  events <- getData fuel ;;
  handle_events events (verbose args).

Definition smuggled_headers (args : Args) (url : ParseResult) (path : string)
    : list header_tuple :=
  [ [Some ":method"; Some (request args)];
    [Some ":authority"; hostname url];
    [Some ":scheme"; Some (scheme url)];
    [Some ":path"; Some path] ]%string
  ++ match header args with
     | Some hs =>
         map (fun h => map (fun part => Some (string_of_list_byte part))
                           (split_sep (b ": ") (list_byte_of_string h))) hs
     | None => []
     end.

Definition request_path (url : ParseResult) : string :=
  let path := or_slash (path url) in
  if negb (String.eqb (query url) EmptyString) then (path ++ "?" ++ query url)%string
  else path.

Definition main (fuel : nat) (args : Args) : M unit :=
  (if negb (String.prefix "http" (proxy args)) then
     print_err (Text ("[ERROR]: invalid protocol: " ++ proxy args)) ;;;
     raise (SystemExit 1)
   else ret tt) ;;;
  let proxy_url := urlparse E (proxy args) in
  establish_tcp_connection proxy_url ;;;
  set_h2 new_H2Connection ;;;
  settings_header_value <- initiate_upgrade_connection ;;
  send_initial_request proxy_url settings_header_value ;;;
  r <- get_upgrade_response fuel proxy_url ;;
  let (extra_data, success) := r in
  (if negb success then raise (SystemExit 1) else ret tt) ;;;
  print (Text "[INFO] h2c stream established successfully.") ;;;
  (if test args then
     print (Text ("[INFO] Success! " ++ proxy args ++ " can be used for tunneling")) ;;;
     raise (SystemExit 0)
   else ret tt) ;;;
  (out <- data_to_send ;; sendall out) ;;;
  events <- match extra_data with
            | Some rest => receive_data rest
            | None => raise TypeError
            end ;;
  events <- getData fuel ;;
  (out <- data_to_send ;; sendall out) ;;;
  handle_events events (verbose args) ;;;
  urls <- (if truthy (wordlist args) then
             match wordlist args with
             | Some file =>
                 match readlines E file with
                 | Some lines =>
                     ret (map (fun l => urlparse E (urljoin E (url args) (strip E l))) lines)
                 | None => raise FileError
                 end
             | None => ret []
             end
           else ret [urlparse E (url args)]) ;;
  for_each urls (fun url =>
    let path := request_path url in
    print (Text ("[INFO] Requesting - " ++ path)) ;;;
    sendSmuggledRequest fuel (smuggled_headers args url path) args) ;;;
  close_connection ;;;
  (out <- data_to_send ;; sendall out) ;;;
  shutdown ;;;
  close.

Definition set_connection (c : bool) : M unit :=
  fun w => (Returned tt, with_connection c w).

(** [urlparse] is the environment's function and gives a value for every
    line: the embedding of [scan] covers the lines that the library's
    [urlparse] accepts. *)
Definition scan (fuel : nat) (line : string) : M unit :=
  set_connection false ;;;
  finally
    (except_Exception
       (let proxy_url := urlparse E line in
        if negb (String.prefix "http" line) then
          print (Text ("[ERROR]: skipping invalid protocol: " ++ line))
        else
          establish_tcp_connection proxy_url ;;;
          set_connection true ;;;
          set_h2 new_H2Connection ;;;
          settings_header_value <- initiate_upgrade_connection ;;
          send_initial_request proxy_url settings_header_value ;;;
          r <- get_upgrade_response fuel proxy_url ;;
          if negb (snd r) then ret tt
          else print (Text ("[INFO] Success! " ++ line ++ " can be used for tunneling")))
       (fun e => print_err (ErrorOf e line)))
    (fun w => if connection w then (shutdown ;;; close) w else (Returned tt, w)).

End Script.


(** ** Notions used to state the properties *)

(** The response arrives after [data] in [chunks], one per read; the
    end-of-headers marker is completed by the last chunk and not before. *)
Fixpoint marker_arrives (data : bytes) (chunks : list bytes) : bool :=
  match chunks with
  | [] => contains CRLFCRLF data
  | c :: chunks' => negb (contains CRLFCRLF data) && marker_arrives (data ++ c) chunks'
  end.

(** The status line of a header block is its first line; the status code
    token is the second whitespace-separated token of that line. *)
Definition status_line (headers : bytes) : bytes :=
  match split_once CRLF headers with
  | Some (first, _) => first
  | None => headers
  end.

Definition status_code_token (headers : bytes) : option bytes :=
  nth_error (split_ws (status_line headers)) 1.

(** What the next call of [recv] will do. *)
Definition next_read (w : World) : recv_outcome :=
  match inbox w with
  | r :: _ => r
  | [] => match peer w with Silent => TimedOut | Closed => Chunk [] end
  end.

(** The world after that call. *)
Definition after_read (w : World) : World :=
  with_trace (trace w ++ [Recv (next_read w)]) (with_inbox (tl (inbox w)) w).

(** The world after [receive_data chunk]. *)
Definition after_feed (E : Env) (chunk : bytes) (w : World) : World :=
  with_h2c (feed E (h2c w) chunk) (with_trace (trace w ++ [Feed chunk]) w).

Definition reads (chunks : list bytes) : list io :=
  map (fun c => Recv (Chunk c)) chunks.

(** The events that the decoder returned during a trace that starts with the
    session [h] and in which the session is only fed. *)
Fixpoint decoded_events (E : Env) (h : H2Connection) (t : list io) : list Event :=
  match t with
  | [] => []
  | Feed chunk :: t' =>
      match fst (decode E h chunk) with
      | Some events => events
      | None => []
      end ++ decoded_events E (feed E h chunk) t'
  | _ :: t' => decoded_events E h t'
  end.

Definition is_teardown (x : io) : bool :=
  match x with
  | Shutdown | Close => true
  | _ => false
  end.

(** The upgrade request in the words of the specification: the request line
    and the headers in the order given, each ended by CRLF, then an empty
    line; the HTTP2-Settings header is left out when [upgradeOnly] is set. *)
Definition spec_upgrade_request (upgradeOnly : bool) (path host : bytes) : bytes :=
  List.concat (map (fun l => l ++ CRLF)
    ([ b "GET " ++ path ++ b " HTTP/1.1";
       b "Host: " ++ host;
       b "Accept: */*";
       b "Accept-Language: en";
       b "Upgrade: h2c" ]
     ++ (if upgradeOnly then [] else [ b "HTTP2-Settings: " ++ HTTP2_SETTINGS ])
     ++ [ b "Connection: Upgrade" ++ (if upgradeOnly then [] else b ", HTTP2-Settings") ]))
  ++ CRLF.

(** The same request with the HTTP2-Settings header in every case; only the
    Connection header depends on [upgradeOnly]. *)
Definition upgrade_request (upgradeOnly : bool) (path host : bytes) : bytes :=
  List.concat (map (fun l => l ++ CRLF)
    [ b "GET " ++ path ++ b " HTTP/1.1";
      b "Host: " ++ host;
      b "Accept: */*";
      b "Accept-Language: en";
      b "Upgrade: h2c";
      b "HTTP2-Settings: " ++ HTTP2_SETTINGS;
      b "Connection: Upgrade" ++ (if upgradeOnly then [] else b ", HTTP2-Settings") ])
  ++ CRLF.

(** The world once the HEADERS frame of a request has been written. *)
Definition after_open (E : Env) (headers : list header_tuple) (end_stream : bool)
    (w : World) : World :=
  let h := h2c w in
  let id := next_stream_id h in
  with_trace (trace w ++ [Sendall (outbuf h ++ encode_headers E id headers end_stream)])
    (with_h2c {| next_stream_id := id + 2; streams := streams h ++ [id];
                 outbuf := []; fed := fed h |} w).

(** The [Connect] entry that [establish_tcp_connection] logs. *)
Definition connect_event (proxy_url : ParseResult) : io :=
  let default := if String.eqb (scheme proxy_url) "http" then 80%Z else 443%Z in
  Connect (hostname proxy_url)
    (match port proxy_url with
     | Some p => if (p =? 0)%Z then default else p
     | None => default
     end)
    (String.eqb (scheme proxy_url) "https").

(** The trace of a handshake that succeeds: the connection, the upgrade
    request, the reads that bring the response, the message. *)
Definition handshake_trace (UPGRADE_ONLY : bool) (proxy_url : ParseResult)
    (host : string) (chunks : list bytes) : list io :=
  [ connect_event proxy_url;
    Sendall (upgrade_request UPGRADE_ONLY
               (list_byte_of_string (or_slash (path proxy_url)))
               (list_byte_of_string host)) ]
  ++ reads chunks
  ++ [ Print (Text "[INFO] h2c stream established successfully.") ].

(** The world in which [main] stands after such a handshake. *)
Definition established (E : Env) (UPGRADE_ONLY : bool) (proxy_url : ParseResult)
    (host : string) (chunks : list bytes) (later : list recv_outcome) (w : World)
    : World :=
  {| inbox := later; peer := peer w; connect_fails := connect_fails w;
     connection := connection w;
     h2c := {| next_stream_id := first_client_stream_id; streams := [];
               outbuf := preface E; fed := [] |};
     trace := trace w ++ handshake_trace UPGRADE_ONLY proxy_url host chunks |}.

(** [appends P m]: whatever the world, [m] only appends to the trace, each
    appended entry satisfies [P], and the variable [connection] is left as it
    is. *)
Definition appends (P : io -> Prop) {A} (m : M A) : Prop :=
  forall w : World,
    exists t : list io,
      trace (snd (m w)) = trace w ++ t /\ Forall P t /\
      connection (snd (m w)) = connection w.

Definition not_teardown (x : io) : Prop := is_teardown x = false.

(** [keeps_h2c m]: [m] leaves the tunnel session as it is. *)
Definition keeps_h2c {A} (m : M A) : Prop :=
  forall w : World, h2c (snd (m w)) = h2c w.

(** How many times a trace shuts down or closes the connection. *)
Definition teardowns (t : list io) : nat :=
  List.length (filter is_teardown t).

(** The first [n] client-initiated stream IDs from [first] on. *)
Definition stream_ids (first : Z) (n : nat) : list Z :=
  map (fun i => first + 2 * Z.of_nat i)%Z (seq 0 n).

(** The entries that an exchange logs: it sends, reads, feeds the decoder and
    prints. *)
Definition quiet (x : io) : Prop :=
  match x with
  | Sendall _ | Recv _ | Feed _ | Print _ => True
  | _ => False
  end.

(** The parts of [main], named for the statements below: the handshake up to
    the test-mode exit (lines 129-150), with what follows as [k]; the loop
    over the target URLs (lines 169-191); and the tunnel phase (lines
    152-196).  [main] is [main_handshake] continued by [main_tunnel]. *)
Definition main_handshake (E : Env) (UPGRADE_ONLY : bool) (fuel : nat) (args : Args)
    (k : option bytes -> M unit) : M unit :=
  (if negb (String.prefix "http" (proxy args)) then
     print_err (Text ("[ERROR]: invalid protocol: " ++ proxy args)) ;;;
     raise (SystemExit 1)
   else ret tt) ;;;
  let proxy_url := urlparse E (proxy args) in
  establish_tcp_connection proxy_url ;;;
  set_h2 new_H2Connection ;;;
  settings_header_value <- initiate_upgrade_connection E ;;
  send_initial_request UPGRADE_ONLY proxy_url settings_header_value ;;;
  r <- get_upgrade_response fuel proxy_url ;;
  let (extra_data, success) := r in
  (if negb success then raise (SystemExit 1) else ret tt) ;;;
  print (Text "[INFO] h2c stream established successfully.") ;;;
  (if test args then
     print (Text ("[INFO] Success! " ++ proxy args ++ " can be used for tunneling")) ;;;
     raise (SystemExit 0)
   else ret tt) ;;;
  k extra_data.

Definition smuggle_all (E : Env) (fuel : nat) (args : Args) (urls : list ParseResult)
    : M unit :=
  for_each urls (fun url =>
    let path := request_path url in
    print (Text ("[INFO] Requesting - " ++ path)) ;;;
    sendSmuggledRequest E fuel (smuggled_headers args url path) args).

Definition target_urls (E : Env) (args : Args) : M (list ParseResult) :=
  if truthy (wordlist args) then
    match wordlist args with
    | Some file =>
        match readlines E file with
        | Some lines =>
            ret (map (fun l => urlparse E (urljoin E (url args) (strip E l))) lines)
        | None => raise FileError
        end
    | None => ret []
    end
  else ret [urlparse E (url args)].

(** What [main] does once the leftover bytes have been given to the decoder
    (lines 156-196). *)
Definition main_exchanges (E : Env) (fuel : nat) (args : Args) : M unit :=
  events <- getData E fuel ;;
  (out <- data_to_send ;; sendall out) ;;;
  handle_events events (verbose args) ;;;
  urls <- target_urls E args ;;
  smuggle_all E fuel args urls ;;;
  close_connection E ;;;
  (out <- data_to_send ;; sendall out) ;;;
  shutdown ;;;
  close.

Definition main_tunnel (E : Env) (fuel : nat) (args : Args)
    (extra_data : option bytes) : M unit :=
  (out <- data_to_send ;; sendall out) ;;;
  events <- match extra_data with
            | Some rest => receive_data E rest
            | None => raise TypeError
            end ;;
  main_exchanges E fuel args.

(** An environment whose decoder reports no event for the first chunk that a
    session is fed, and is [E] in everything else: same replies, same
    errors, same events for every later chunk. *)
Definition forget_first_events (E : Env) : Env :=
  {| urlparse := urlparse E;
     urljoin := urljoin E;
     strip := strip E;
     readlines := readlines E;
     preface := preface E;
     settings_header_value := settings_header_value E;
     encode_headers := encode_headers E;
     encode_goaway := encode_goaway E;
     decode := fun h chunk =>
       match fed h with
       | [] => (match fst (decode E h chunk) with
                | Some _ => Some []
                | None => None
                end, snd (decode E h chunk))
       | _ :: _ => decode E h chunk
       end |}.

(** ** The HTTP2-Settings value: base64url (RFC 4648) and the SETTINGS
    payload (RFC 7540, 6.5.1) *)

Definition b64_value (c : byte) : option N :=
  let n := Byte.to_N c in
  if in_range 65 90 c then Some (n - 65)%N
  else if in_range 97 122 c then Some (n - 71)%N
  else if in_range 48 57 c then Some (n + 4)%N
  else if in_range 45 45 c then Some 62%N
  else if in_range 95 95 c then Some 63%N
  else None.

Definition b64_values (s : bytes) : option (list N) :=
  fold_right (fun c acc =>
                match b64_value c, acc with
                | Some v, Some l => Some (v :: l)
                | _, _ => None
                end) (Some []) s.

Definition byte_at (n : N) (shift : N) : byte :=
  match Byte.of_N (N.land (N.shiftr n shift) 255) with
  | Some c => c
  | None => x00
  end.

(** Four sextets give three bytes; a final group of three gives two and of
    two gives one (padding omitted). *)
Fixpoint b64_groups (l : list N) : option bytes :=
  match l with
  | [] => Some []
  | [_] => None
  | [v0; v1] =>
      let n := (N.shiftl v0 18 + N.shiftl v1 12)%N in
      Some [byte_at n 16]
  | [v0; v1; v2] =>
      let n := (N.shiftl v0 18 + N.shiftl v1 12 + N.shiftl v2 6)%N in
      Some [byte_at n 16; byte_at n 8]
  | v0 :: v1 :: v2 :: v3 :: l' =>
      let n := (N.shiftl v0 18 + N.shiftl v1 12 + N.shiftl v2 6 + v3)%N in
      match b64_groups l' with
      | Some rest => Some (byte_at n 16 :: byte_at n 8 :: byte_at n 0 :: rest)
      | None => None
      end
  end.

Definition b64_decode (s : bytes) : option bytes :=
  match b64_values s with
  | Some l => b64_groups l
  | None => None
  end.

(** Big-endian value of a byte string. *)
Definition be (s : bytes) : N :=
  fold_left (fun acc c => (acc * 256 + Byte.to_N c)%N) s 0%N.

(** A SETTINGS payload is a sequence of parameters: a 16-bit identifier and a
    32-bit value each. *)
Fixpoint parse_settings (p : bytes) : option (list (N * N)) :=
  match p with
  | [] => Some []
  | i0 :: i1 :: v0 :: v1 :: v2 :: v3 :: p' =>
      match parse_settings p' with
      | Some l => Some ((be [i0; i1], be [v0; v1; v2; v3]) :: l)
      | None => None
      end
  | _ => None
  end.

Definition SETTINGS_HEADER_TABLE_SIZE : N := 1.
Definition SETTINGS_ENABLE_PUSH : N := 2.
Definition SETTINGS_MAX_CONCURRENT_STREAMS : N := 3.
Definition SETTINGS_INITIAL_WINDOW_SIZE : N := 4.
Definition SETTINGS_MAX_FRAME_SIZE : N := 5.
Definition SETTINGS_MAX_HEADER_LIST_SIZE : N := 6.

(** The initial value of a parameter (RFC 7540, 6.5.2); [None] where the
    initial state is "no limit" or the parameter is unknown. *)
Definition initial_value (id : N) : option N :=
  if (id =? SETTINGS_HEADER_TABLE_SIZE)%N then Some 4096%N
  else if (id =? SETTINGS_ENABLE_PUSH)%N then Some 1%N
  else if (id =? SETTINGS_INITIAL_WINDOW_SIZE)%N then Some 65535%N
  else if (id =? SETTINGS_MAX_FRAME_SIZE)%N then Some 16384%N
  else None.

(** A payload is empty or default when it carries no parameter, or when
    each parameter that it carries and that has an initial value has that
    value. *)
Definition empty_or_default (payload : bytes) : bool :=
  match parse_settings payload with
  | Some params =>
      forallb (fun '(id, v) =>
                 match initial_value id with
                 | Some d => (v =? d)%N
                 | None => true
                 end) params
  | None => false
  end.

(** The chunks that a trace reads from the socket, and those that it gives to
    the decoder, oldest first. *)
Fixpoint chunks_read (t : list io) : list bytes :=
  match t with
  | [] => []
  | Recv (Chunk d) :: t' => d :: chunks_read t'
  | _ :: t' => chunks_read t'
  end.

Fixpoint chunks_fed (t : list io) : list bytes :=
  match t with
  | [] => []
  | Feed d :: t' => d :: chunks_fed t'
  | _ :: t' => chunks_fed t'
  end.

Definition is_read_or_feed (x : io) : Prop :=
  match x with
  | Recv _ | Feed _ => True
  | _ => False
  end.

(** [relays m]: [m] gives the decoder the chunks that it reads from the
    socket, each once and in the order received, and nothing else. *)
Definition relays {A} (m : M A) : Prop :=
  forall w : World,
    exists t : list io,
      trace (snd (m w)) = trace w ++ t /\
      chunks_fed t = chunks_read t /\
      fed (h2c (snd (m w))) = fed (h2c w) ++ chunks_fed t.

(** The entries that [getData] logs for the chunks it takes from the socket:
    each one is read, then given to the decoder. *)
Definition relayed (chunks : list bytes) : list io :=
  flat_map (fun c => [Recv (Chunk c); Feed c]) chunks.

(** The decoder accepts each of [chunks] in turn, from the session [h]. *)
Fixpoint decodes (E : Env) (h : H2Connection) (chunks : list bytes) : bool :=
  match chunks with
  | [] => true
  | c :: chunks' =>
      match fst (decode E h c) with
      | Some _ => decodes E (feed E h c) chunks'
      | None => false
      end
  end.

(** The number of requests that the loop over the URLs dispatches from [w]:
    it calls [sendSmuggledRequest] for the first URL, and goes on to the
    next one only when that call has returned. *)
Fixpoint dispatched (E : Env) (fuel : nat) (args : Args) (urls : list ParseResult)
    (w : World) : nat :=
  match urls with
  | [] => 0
  | url :: urls' =>
      S (match sendSmuggledRequest E fuel
                 (smuggled_headers args url (request_path url)) args
                 (with_trace
                    (trace w
                     ++ [Print (Text ("[INFO] Requesting - " ++ request_path url))])
                    w)
         with
         | (Returned _, w1) => dispatched E fuel args urls' w1
         | _ => 0
         end)
  end.

(** ** A small environment, for concrete runs *)

Definition demo_event (c : byte) : list Event :=
  match c with
  | "H"%byte => [ResponseReceived 1 [(b ":status", b "200")]]
  | "D"%byte => [DataReceived 1 (b "hello")]
  | "R"%byte => [StreamReset 1 8]
  | "E"%byte => [StreamEnded 1]
  | "S"%byte => [OtherEvent "settings"]
  | _ => []
  end.

Definition demo_url (s : string) : ParseResult :=
  {| scheme := "http"; hostname := Some "proxy.test"%string; port := None;
     path := EmptyString; query := EmptyString; geturl := s |}.

Definition demo_env : Env :=
  {| urlparse := demo_url;
     urljoin := fun base rel => (base ++ rel)%string;
     strip := fun s => s;
     readlines := fun _ => Some ["/admin"; "/internal/status"]%string;
     preface := b "PRI";
     settings_header_value := HTTP2_SETTINGS;
     encode_headers := fun _ _ _ => b "HEADERS";
     encode_goaway := fun _ => b "GOAWAY";
     decode := fun _ chunk => (Some (flat_map demo_event chunk), []) |}.

Definition demo_world (script : list recv_outcome) (p : peer_end) : World :=
  {| inbox := script; peer := p; connect_fails := false; connection := false;
     h2c := new_H2Connection; trace := [] |}.

Definition demo_args (t : bool) : Args :=
  {| proxy := "http://proxy.test"; wordlist := None; request := "GET"; data := None;
     header := None; test := t; verbose := false; url := "http://backend/flag" |}.

(** ** Further notions, for the properties of the remaining code *)

(** The exception that a read raises when it returns no bytes. *)
Definition read_error (r : recv_outcome) : option exn :=
  match r with
  | Chunk _ => None
  | TimedOut => Some SocketTimeout
  | Failed => Some SocketError
  end.

(** A response header that [handle_response] can decode. *)
Definition decodable (h : bytes * bytes) : bool :=
  utf8_valid (fst h) && utf8_valid (snd h).

(** The events that [handle_events] gets past. *)
Definition handled (e : Event) : bool :=
  match e with
  | ResponseReceived _ headers => forallb decodable headers
  | StreamReset _ _ => false
  | _ => true
  end.

(** The events for which [handle_events] does something when it is not
    verbose. *)
Definition reported (e : Event) : bool :=
  match e with
  | StreamEnded _ | OtherEvent _ => false
  | _ => true
  end.

(** The line printed for a response header. *)
Definition header_line (h : bytes * bytes) : io :=
  Print (Text (string_of_list_byte (fst h) ++ ": " ++ string_of_list_byte (snd h))).

Definition is_ascii (s : bytes) : bool := forallb (in_range 0 127) s.

Definition is_print (x : io) : Prop :=
  match x with
  | Print _ => True
  | _ => False
  end.

(** [closes_last m]: in every run of [m], the connection is shut down and
    closed exactly when [m] returns, once, as its last two actions; a run
    that does not return does neither. *)
Definition closes_last (m : M unit) : Prop :=
  forall w : World,
    exists t : list io,
      trace (snd (m w)) = trace w ++ t /\
      (fst (m w) = Returned tt ->
       exists t0, t = t0 ++ [Shutdown; Close] /\ Forall not_teardown t0) /\
      (fst (m w) <> Returned tt -> Forall not_teardown t).

(** [raises_only Q m]: every exception that leaves [m] satisfies [Q]. *)
Definition raises_only (Q : exn -> Prop) {A} (m : M A) : Prop :=
  forall (w w' : World) (e : exn), m w = (Raised e, w') -> Q e.

Definition caught (e : exn) : Prop := is_Exception e = true.

(** [no_colon s]: the string holds no [:]. *)
Definition no_colon (s : string) : bool :=
  negb (existsb (Byte.eqb x3a) (list_byte_of_string s)).

(** The four pseudo-headers that open every smuggled request. *)
Definition pseudo_headers (args : Args) (url : ParseResult) (path : string)
    : list header_tuple :=
  [ [Some ":method"; Some (request args)];
    [Some ":authority"; hostname url];
    [Some ":scheme"; Some (scheme url)];
    [Some ":path"; Some path] ]%string.

(** [ended o]: the run has come to an end, by a return or by an exception. *)
Definition ended {A} (o : outcome A) : bool :=
  match o with
  | Running => false
  | _ => true
  end.

(** [halts n m]: from a world whose peer falls silent after at most [n] more
    reads, [m] comes to an end and leaves such a world. *)
Definition halts (n : nat) {A} (m : M A) : Prop :=
  forall w : World,
    peer w = Silent -> List.length (inbox w) <= n ->
    ended (fst (m w)) = true /\
    peer (snd (m w)) = Silent /\ List.length (inbox (snd (m w))) <= n.

(** A printed line, on either stream. *)
Definition is_output (x : io) : Prop :=
  match x with
  | Print _ | PrintErr _ => True
  | _ => False
  end.

(** No read of the script fails: the peer does not reset the connection. *)
Definition no_reset (l : list recv_outcome) : bool :=
  forallb (fun r => match r with Failed => false | _ => true end) l.

(** [spares m]: when the peer does not reset the connection, no read of [m]
    fails. *)
Definition spares {A} (m : M A) : Prop :=
  forall w : World,
    no_reset (inbox w) = true ->
    exists t : list io,
      trace (snd (m w)) = trace w ++ t /\
      ~ In (Recv Failed) t /\
      no_reset (inbox (snd (m w))) = true.

Definition is_Failed (r : recv_outcome) : bool :=
  match r with
  | Failed => true
  | _ => false
  end.
(** * Properties *)

Unset Implicit Arguments.

(** ** Byte strings *)

Lemma bytes_eqb_eq (x y : bytes) : bytes_eqb x y = true <-> x = y.
Proof.
  revert y; induction x as [|c x IH]; intros [|d y]; simpl; split;
    try congruence; try reflexivity.
  - intros H. apply andb_true_iff in H as [H1 H2].
    apply Byte.byte_dec_bl in H1. apply IH in H2. congruence.
  - intros H. injection H as -> ->. apply andb_true_iff. split.
    + now apply Byte.byte_dec_lb.
    + now apply IH.
Qed.

Lemma starts_with_spec (p s : bytes) :
  starts_with p s = true -> s = p ++ skipn (List.length p) s.
Proof.
  revert s; induction p as [|c p IH]; intros s H; simpl in *.
  - reflexivity.
  - destruct s as [|d s]; [discriminate|].
    apply andb_true_iff in H as [H1 H2].
    apply Byte.byte_dec_bl in H1. subst d. f_equal. now apply IH.
Qed.

Lemma starts_with_app (p s x : bytes) :
  starts_with p s = true -> starts_with p (s ++ x) = true.
Proof.
  revert s; induction p as [|c p IH]; intros s H; simpl in *.
  - reflexivity.
  - destruct s as [|d s]; [discriminate|]. simpl.
    apply andb_true_iff in H as [H1 H2].
    rewrite H1. simpl. now apply IH.
Qed.

Lemma contains_app (sep s x : bytes) :
  contains sep s = true -> contains sep (s ++ x) = true.
Proof.
  induction s as [|c s IH]; simpl; intros H.
  - rewrite orb_false_r in H.
    destruct sep; [destruct x; reflexivity | discriminate].
  - apply orb_true_iff in H as [H|H].
    + change (c :: s ++ x) with ((c :: s) ++ x).
      rewrite (starts_with_app _ _ _ H). reflexivity.
    + rewrite (IH H). apply orb_true_r.
Qed.

Lemma split_once_sound (sep s before after : bytes) :
  split_once sep s = Some (before, after) -> s = before ++ sep ++ after.
Proof.
  revert before; induction s as [|c s IH]; intros before; simpl.
  - destruct (starts_with sep []) eqn:Hs; [|discriminate].
    intros [= <- <-]. now apply starts_with_spec in Hs.
  - destruct (starts_with sep (c :: s)) eqn:Hs.
    + intros [= <- <-]. now apply starts_with_spec in Hs.
    + destruct (split_once sep s) as [[a r]|]; [|discriminate].
      intros [= <- <-]. simpl. f_equal. now apply IH.
Qed.

Lemma contains_split_once (sep s : bytes) :
  contains sep s = true -> exists before after, split_once sep s = Some (before, after).
Proof.
  induction s as [|c s IH]; simpl; intros H.
  - rewrite orb_false_r in H. rewrite H. eauto.
  - destruct (starts_with sep (c :: s)); [eauto|].
    simpl in H. destruct (IH H) as (a & r & ->). eauto.
Qed.

Lemma split_ws_from_space (cur a rest : bytes) (c : byte) :
  is_space c = true ->
  split_ws_from cur (a ++ c :: rest) = split_ws_from cur a ++ split_ws rest.
Proof.
  intros Hc. revert cur; induction a as [|d a IH]; intros cur; simpl.
  - rewrite Hc. destruct cur; reflexivity.
  - destruct (is_space d).
    + rewrite IH. destruct cur; reflexivity.
    + apply IH.
Qed.

Lemma split_ws_CRLF (line more : bytes) :
  split_ws (line ++ CRLF ++ more) = split_ws line ++ split_ws more.
Proof.
  unfold split_ws, CRLF. simpl.
  rewrite split_ws_from_space by reflexivity.
  unfold split_ws. simpl. reflexivity.
Qed.

Lemma marker_arrives_contains (chunks : list bytes) (data : bytes) :
  marker_arrives data chunks = true ->
  contains CRLFCRLF (data ++ List.concat chunks) = true.
Proof.
  revert data; induction chunks as [|c chunks IH]; intros data H; simpl in *.
  - now rewrite app_nil_r.
  - apply andb_true_iff in H as [_ H]. rewrite app_assoc. now apply IH.
Qed.

(** When the marker arrives, the accumulated bytes do split at it. *)
Lemma marker_arrives_split (chunks : list bytes) :
  marker_arrives [] chunks = true ->
  exists headers rest,
    split_once CRLFCRLF (List.concat chunks) = Some (headers, rest).
Proof.
  intros H. apply contains_split_once.
  now apply (marker_arrives_contains chunks []).
Qed.

(** ** The world *)

Lemma recv_next (n : N) (w : World) (r : recv_outcome) (later : list recv_outcome) :
  inbox w = r :: later ->
  recv n w = result_of r (with_trace (trace w ++ [Recv r]) (with_inbox later w)).
Proof. intros H. unfold recv. rewrite H. reflexivity. Qed.

(** ** Reading the upgrade response *)

Lemma recv_headers_arrives (chunks : list bytes) :
  forall (data : bytes) (fuel : nat) (w : World) (later : list recv_outcome),
    inbox w = map Chunk chunks ++ later ->
    marker_arrives data chunks = true ->
    List.length chunks <= fuel ->
    recv_headers fuel data w =
      (Returned (data ++ List.concat chunks),
       with_trace (trace w ++ reads chunks) (with_inbox later w)).
Proof.
  induction chunks as [|c chunks IH]; intros data fuel w later Hin Harr Hfuel;
    simpl in *.
  - rewrite app_nil_r.
    assert (recv_headers fuel data w = (Returned data, w)) as ->
      by (destruct fuel; simpl; rewrite Harr; reflexivity).
    f_equal. destruct w; unfold with_trace, with_inbox; simpl in *.
    subst. now rewrite app_nil_r.
  - apply andb_true_iff in Harr as [Hno Harr].
    apply negb_true_iff in Hno.
    destruct fuel as [|fuel]; [lia|]. simpl. rewrite Hno.
    unfold bind at 1. rewrite (recv_next _ _ _ _ Hin). simpl.
    rewrite (IH (data ++ c) fuel _ later); simpl; auto; try lia.
    rewrite <- !app_assoc. reflexivity.
Qed.

Lemma status_code_token_split (headers code : bytes) :
  status_code_token headers = Some code ->
  nth_error (split_ws headers) 1 = Some code.
Proof.
  unfold status_code_token, status_line.
  destruct (split_once CRLF headers) as [[first more]|] eqn:Hs; [|auto].
  intros H. apply split_once_sound in Hs. subst headers.
  rewrite split_ws_CRLF, nth_error_app1; auto.
  apply nth_error_Some. congruence.
Qed.

(** A response whose status line carries a status code: once the headers
    have arrived, [get_upgrade_response] returns without raising, and its
    flag is true iff the status code token of the status line is exactly
    [101]; it then also returns the bytes that follow the headers.  The
    other header lines, whatever their order or casing, play no role. *)
Lemma get_upgrade_response_ok_iff_101 :
  forall (fuel : nat) (proxy_url : ParseResult) (w : World)
         (chunks : list bytes) (later : list recv_outcome)
         (headers rest code : bytes),
    inbox w = map Chunk chunks ++ later ->
    marker_arrives [] chunks = true ->
    split_once CRLFCRLF (List.concat chunks) = Some (headers, rest) ->
    status_code_token headers = Some code ->
    List.length chunks <= fuel ->
    exists (leftover : option bytes) (ok : bool) (w' : World),
      get_upgrade_response fuel proxy_url w = (Returned (leftover, ok), w') /\
      (ok = true <-> code = b "101") /\
      (ok = true -> leftover = Some rest) /\
      (ok = false -> leftover = None) /\
      inbox w' = later.
Proof.
  intros fuel proxy_url w chunks later headers rest code Hin Harr Hsplit Htok Hfuel.
  apply status_code_token_split in Htok.
  unfold get_upgrade_response, bind at 1.
  rewrite (recv_headers_arrives chunks [] _ _ _ Hin Harr Hfuel).
  cbv beta iota. rewrite app_nil_l, Hsplit. cbv beta iota zeta. rewrite Htok.
  destruct (bytes_eqb code (b "101")) eqn:Hcode; simpl.
  - exists (Some rest), true. eexists. split; [reflexivity|].
    apply bytes_eqb_eq in Hcode. repeat split; auto; discriminate.
  - exists None, false. eexists. split; [reflexivity|].
    repeat split; auto; try discriminate.
    intros ->. rewrite (proj2 (bytes_eqb_eq _ _) eq_refl) in Hcode. discriminate.
Qed.

Lemma get_upgrade_response_ok_iff_101_witness :
  exists (leftover : option bytes) (ok : bool) (w' : World),
    get_upgrade_response 2 (demo_url "http://proxy.test")
      (demo_world [Chunk (b "HTTP/1.1 101 Switching Protocols" ++ CRLF);
                   Chunk (b "uPGRADE: h2c" ++ CRLFCRLF ++ b "S"); TimedOut] Silent)
    = (Returned (leftover, ok), w') /\
    (ok = true <-> b "101" = b "101") /\
    (ok = true -> leftover = Some (b "S")) /\
    (ok = false -> leftover = None) /\
    inbox w' = [TimedOut].
Proof.
  apply (@get_upgrade_response_ok_iff_101 2 (demo_url "http://proxy.test") _
           [b "HTTP/1.1 101 Switching Protocols" ++ CRLF;
            b "uPGRADE: h2c" ++ CRLFCRLF ++ b "S"]
           [TimedOut]
           (b "HTTP/1.1 101 Switching Protocols" ++ CRLF ++ b "uPGRADE: h2c")
           (b "S") (b "101"));
    first [reflexivity | simpl; lia].
Defined.

(** A status line without a status code.  The second token of the whole
    header block is then taken for the code, and the function raises
    [IndexError] when there is none. *)
Example get_upgrade_response_no_token :
  fst (get_upgrade_response 1 (demo_url "http://proxy.test")
         (demo_world [Chunk (b "HTTP/1.1" ++ CRLFCRLF)] Silent))
  = Raised IndexError.
Proof. reflexivity. Qed.

Example get_upgrade_response_token_of_next_line :
  fst (get_upgrade_response 1 (demo_url "http://proxy.test")
         (demo_world [Chunk (b "HTTP/1.1" ++ CRLF ++ b "101 x" ++ CRLFCRLF)] Silent))
  = Returned (Some [], true).
Proof. reflexivity. Qed.

(** C1, where the code departs from it.  [get_upgrade_response] does not
    look at the status line: it takes the second whitespace-separated token
    of the whole header block.  When the status line carries no status code
    and the next token of the block, on a later line, is [101], the upgrade
    is reported as accepted, though the status line holds no [101]. *)
Theorem get_upgrade_response_accepts_101_off_status_line :
  forall (fuel : nat) (proxy_url : ParseResult) (w : World)
         (chunks : list bytes) (later : list recv_outcome)
         (headers rest : bytes),
    inbox w = map Chunk chunks ++ later ->
    marker_arrives [] chunks = true ->
    split_once CRLFCRLF (List.concat chunks) = Some (headers, rest) ->
    status_code_token headers = None ->
    nth_error (split_ws headers) 1 = Some (b "101") ->
    List.length chunks <= fuel ->
    get_upgrade_response fuel proxy_url w =
      (Returned (Some rest, true),
       with_trace (trace w ++ reads chunks) (with_inbox later w)).
Proof.
  intros fuel proxy_url w chunks later headers rest Hin Harr Hsplit _ Htok Hfuel.
  unfold get_upgrade_response, bind at 1.
  rewrite (recv_headers_arrives chunks [] _ _ _ Hin Harr Hfuel).
  cbv beta iota. rewrite app_nil_l, Hsplit. cbv beta iota zeta. rewrite Htok.
  reflexivity.
Qed.

Lemma get_upgrade_response_accepts_101_off_status_line_witness :
  get_upgrade_response 1 (demo_url "http://proxy.test")
    (demo_world [Chunk (b "HTTP/1.1" ++ CRLF ++ b "101 x" ++ CRLFCRLF)] Silent) =
  (Returned (Some [], true),
   with_trace
     (trace (demo_world [Chunk (b "HTTP/1.1" ++ CRLF ++ b "101 x" ++ CRLFCRLF)] Silent)
      ++ reads [b "HTTP/1.1" ++ CRLF ++ b "101 x" ++ CRLFCRLF])
     (with_inbox []
        (demo_world [Chunk (b "HTTP/1.1" ++ CRLF ++ b "101 x" ++ CRLFCRLF)] Silent))).
Proof.
  apply (get_upgrade_response_accepts_101_off_status_line 1
           (demo_url "http://proxy.test") _
           [b "HTTP/1.1" ++ CRLF ++ b "101 x" ++ CRLFCRLF] []
           (b "HTTP/1.1" ++ CRLF ++ b "101 x") []);
    first [reflexivity | simpl; lia].
Defined.

(** ** The upgrade request *)

Lemma send_initial_request_sends (UPGRADE_ONLY : bool) (proxy_url : ParseResult)
    (settings : bytes) (w : World) (host : string) :
  hostname proxy_url = Some host ->
  send_initial_request UPGRADE_ONLY proxy_url settings w =
    (Returned tt,
     with_trace
       (trace w ++
        [Sendall (upgrade_request UPGRADE_ONLY
                    (list_byte_of_string (or_slash (path proxy_url)))
                    (list_byte_of_string host))]) w).
Proof.
  intros Hhost.
  unfold send_initial_request. rewrite Hhost.
  unfold sendall, log, upgrade_request. do 4 f_equal.
  simpl. rewrite <- !app_assoc. simpl.
  rewrite <- !app_assoc. destruct UPGRADE_ONLY; reflexivity.
Qed.

(** C2, as amended.  For every target with a host name,
    [send_initial_request] writes to the connection exactly the request
    line [GET <path> HTTP/1.1], then Host, Accept, Accept-Language,
    [Upgrade: h2c], the fixed HTTP2-Settings header (present also when
    [UPGRADE_ONLY] is set) and a Connection header whose value is [Upgrade]
    plus [, HTTP2-Settings] unless [UPGRADE_ONLY] is set, ended by an empty
    line; the path is [/] when the target has none.  Nothing else is written
    and nothing is read. *)
Theorem send_initial_request_wire :
  forall (UPGRADE_ONLY : bool) (proxy_url : ParseResult) (settings : bytes)
         (w : World) (host : string),
    hostname proxy_url = Some host ->
    send_initial_request UPGRADE_ONLY proxy_url settings w =
      (Returned tt,
       with_trace
         (trace w ++
          [Sendall (upgrade_request UPGRADE_ONLY
                      (list_byte_of_string (or_slash (path proxy_url)))
                      (list_byte_of_string host))]) w).
Proof. intros. now apply send_initial_request_sends. Qed.

Lemma send_initial_request_wire_witness :
  send_initial_request true (demo_url "http://proxy.test") [] (demo_world [] Silent) =
    (Returned tt,
     with_trace
       (trace (demo_world [] Silent) ++
        [Sendall (upgrade_request true (b "/") (b "proxy.test"))])
       (demo_world [] Silent)).
Proof.
  apply (@send_initial_request_wire true (demo_url "http://proxy.test") []
           (demo_world [] Silent) "proxy.test"%string).
  reflexivity.
Defined.

(** C2 as the specification states it fails: with [UPGRADE_ONLY] set, the
    request that is written still carries the HTTP2-Settings header, so it
    is not the request of the specification, which leaves the header out. *)
Lemma send_initial_request_keeps_settings_header :
  exists request : bytes,
    trace (snd (send_initial_request true (demo_url "http://proxy.test") []
                  (demo_world [] Silent))) = [Sendall request] /\
    contains (b "HTTP2-Settings: AAMAAABkAARAAAAAAAIAAAAA") request = true /\
    contains (b "HTTP2-Settings: AAMAAABkAARAAAAAAAIAAAAA")
      (spec_upgrade_request true (b "/") (b "proxy.test")) = false /\
    request <> spec_upgrade_request true (b "/") (b "proxy.test").
Proof.
  eexists. split; [reflexivity|]. split; [reflexivity|]. split; [reflexivity|].
  intros H. apply (f_equal (@List.length byte)) in H. vm_compute in H. discriminate.
Qed.

(** Without [UPGRADE_ONLY] the two requests are the same. *)
Lemma upgrade_request_spec (path host : bytes) :
  upgrade_request false path host = spec_upgrade_request false path host.
Proof. reflexivity. Qed.

(** ** The HTTP2-Settings value *)

Example b64_decode_foo : b64_decode (b "Zm9v") = Some (b "foo").
Proof. reflexivity. Qed.

Example b64_decode_fo : b64_decode (b "Zm8") = Some (b "fo").
Proof. reflexivity. Qed.

Example b64_decode_f : b64_decode (b "Zg") = Some (b "f").
Proof. reflexivity. Qed.

(** C8, as amended.  The fixed value decodes to an 18-byte SETTINGS payload
    that carries three parameters: MAX_CONCURRENT_STREAMS = 100,
    INITIAL_WINDOW_SIZE = 2^30 and ENABLE_PUSH = 0. *)
Theorem HTTP2_SETTINGS_payload :
  exists payload : bytes,
    b64_decode HTTP2_SETTINGS = Some payload /\
    List.length payload = 18 /\
    parse_settings payload =
      Some [ (SETTINGS_MAX_CONCURRENT_STREAMS, 100%N);
             (SETTINGS_INITIAL_WINDOW_SIZE, (2 ^ 30)%N);
             (SETTINGS_ENABLE_PUSH, 0%N) ].
Proof. eexists. repeat split; vm_compute; reflexivity. Qed.

(** C8 as the specification states it fails: the payload is not empty, and
    two of its parameters, INITIAL_WINDOW_SIZE and ENABLE_PUSH, do not have
    their initial values 65535 and 1. *)
Lemma HTTP2_SETTINGS_not_empty_or_default :
  ~ (exists payload : bytes,
       b64_decode HTTP2_SETTINGS = Some payload /\
       (payload = [] \/ empty_or_default payload = true)).
Proof.
  intros (payload & Hdec & H).
  vm_compute in Hdec. injection Hdec as <-.
  destruct H as [H|H]; vm_compute in H; discriminate.
Qed.

(** ** Reads and the decoder *)

Lemma recv_spec (n : N) (w : World) :
  recv n w = result_of (next_read w) (after_read w).
Proof.
  unfold recv, next_read, after_read.
  destruct w as [inb p cf c h t]; simpl.
  destruct inb as [|r later]; reflexivity.
Qed.

Lemma recv_or_timeout_spec (n : N) (w : World) :
  recv_or_timeout n w =
    (match next_read w with
     | Chunk d => Returned (Some d)
     | TimedOut => Returned None
     | Failed => Raised SocketError
     end, after_read w).
Proof.
  unfold recv_or_timeout, except_timeout, bind. rewrite recv_spec.
  destruct (next_read w); reflexivity.
Qed.

Lemma receive_data_spec (E : Env) (chunk : bytes) (w : World) :
  receive_data E chunk w =
    (match fst (decode E (h2c w) chunk) with
     | Some events => Returned events
     | None => Raised ProtocolError
     end, after_feed E chunk w).
Proof.
  unfold receive_data, after_feed, bind, log, get_h2, set_h2. simpl.
  destruct (fst (decode E (h2c w) chunk)); reflexivity.
Qed.

Lemma ends_with_StreamEnded_nonempty (events : list Event) :
  (0 <? List.length events)%nat && ends_with_StreamEnded events
  = ends_with_StreamEnded events.
Proof. destruct events; reflexivity. Qed.

(** One turn of the loop of [getData]. *)
Lemma getData_from_step (E : Env) (fuel : nat) (events : list Event) (w : World) :
  getData_from E (S fuel) events w =
    match next_read w with
    | TimedOut => (Returned events, after_read w)
    | Failed => (Raised SocketError, after_read w)
    | Chunk d =>
        let w2 := after_feed E d (after_read w) in
        match fst (decode E (h2c w) d) with
        | None => (Raised ProtocolError, w2)
        | Some new =>
            if ends_with_StreamEnded (events ++ new)
            then (Returned (events ++ new), w2)
            else getData_from E fuel (events ++ new) w2
        end
    end.
Proof.
  cbn [getData_from]. unfold bind at 1. rewrite recv_or_timeout_spec.
  destruct (next_read w) as [d| |]; try reflexivity.
  unfold bind at 1. rewrite receive_data_spec.
  change (h2c (after_read w)) with (h2c w). cbv zeta.
  destruct (fst (decode E (h2c w) d)) as [new|]; [|reflexivity].
  rewrite ends_with_StreamEnded_nonempty.
  destruct (ends_with_StreamEnded (events ++ new)); reflexivity.
Qed.

Lemma next_read_silent (w : World) (d : bytes) :
  peer w = Silent -> next_read w = Chunk d ->
  exists later, inbox w = Chunk d :: later.
Proof.
  unfold next_read. intros Hp. destruct (inbox w) as [|r later].
  - rewrite Hp. discriminate.
  - intros ->. eauto.
Qed.

(** With a peer that ends in silence the loop of [getData] comes to an end:
    it returns or raises within one turn per scripted read, plus one. *)
Lemma getData_from_ends (E : Env) (fuel : nat) :
  forall (events : list Event) (w : World),
    peer w = Silent -> List.length (inbox w) < fuel ->
    fst (getData_from E fuel events w) <> Running.
Proof.
  induction fuel as [|fuel IH]; intros events w Hp Hlen; [lia|].
  rewrite getData_from_step.
  destruct (next_read w) as [d| |] eqn:Hr; try discriminate.
  cbv zeta. destruct (fst (decode E (h2c w) d)) as [new|]; [|discriminate].
  destruct (ends_with_StreamEnded (events ++ new)); [discriminate|].
  destruct (next_read_silent _ _ Hp Hr) as [later Hin].
  apply IH.
  - exact Hp.
  - unfold after_feed, after_read; simpl. rewrite Hin in *. simpl in *. lia.
Qed.

Lemma ends_false_decoded_single (E : Env) (h : H2Connection) (events : list Event)
    (x : io) (t1 t2 : list io) :
  ends_with_StreamEnded events = false ->
  (forall d, x <> Feed d) ->
  [x] = t1 ++ t2 -> t2 <> [] ->
  ends_with_StreamEnded (events ++ decoded_events E h t1) = false.
Proof.
  intros He Hx Heq Hne.
  destruct t1 as [|y t1]; simpl.
  - now rewrite app_nil_r.
  - injection Heq as <- Heq. destruct t1; [|discriminate].
    simpl in Heq. subst t2. contradiction.
Qed.

(** What [getData] has done when it returns: the events are those decoded
    from the chunks it read; at no earlier point of its trace did the list
    end with [StreamEnded]; and its last step is a decoder call when the list
    ends with [StreamEnded], a read that timed out otherwise. *)
Lemma getData_from_returned (E : Env) (fuel : nat) :
  forall (events0 : list Event) (w : World) (events : list Event) (w' : World),
    getData_from E fuel events0 w = (Returned events, w') ->
    ends_with_StreamEnded events0 = false ->
    exists t : list io,
      trace w' = trace w ++ t /\
      events = events0 ++ decoded_events E (h2c w) t /\
      (forall t1 t2, t = t1 ++ t2 -> t2 <> [] ->
         ends_with_StreamEnded (events0 ++ decoded_events E (h2c w) t1) = false) /\
      (ends_with_StreamEnded events = true ->
         exists t0 d, t = t0 ++ [Recv (Chunk d); Feed d]) /\
      (ends_with_StreamEnded events = false ->
         exists t0, t = t0 ++ [Recv TimedOut]).
Proof.
  induction fuel as [|fuel IH]; intros events0 w events w' Hrun He0;
    [discriminate|].
  rewrite getData_from_step in Hrun.
  destruct (next_read w) as [d| |] eqn:Hr; [| |discriminate].
  - cbv zeta in Hrun.
    destruct (fst (decode E (h2c w) d)) as [new|] eqn:Hdec; [|discriminate].
    destruct (ends_with_StreamEnded (events0 ++ new)) eqn:Hend.
    + injection Hrun as <- <-.
      exists [Recv (Chunk d); Feed d]. simpl. rewrite Hr, Hdec, app_nil_r.
      split; [now rewrite <- app_assoc|]. split; [reflexivity|].
      split; [|split].
      * intros t1 t2 Heq Hne.
        destruct t1 as [|x1 t1]; simpl; [now rewrite app_nil_r|].
        injection Heq as <- Heq.
        destruct t1 as [|x2 t1]; simpl; [now rewrite app_nil_r|].
        injection Heq as <- Heq.
        destruct t1; [|discriminate]. simpl in Heq. subst t2. contradiction.
      * intros _. exists [], d. reflexivity.
      * congruence.
    + destruct (IH _ _ _ _ Hrun Hend) as (t & Ht & Hev & Hpre & Hlast1 & Hlast2).
      exists (Recv (Chunk d) :: Feed d :: t). simpl in *.
      rewrite Hr in Ht. rewrite Hdec.
      split; [rewrite Ht, <- !app_assoc; reflexivity|].
      split; [rewrite Hev, <- app_assoc; reflexivity|].
      split; [|split].
      * intros t1 t2 Heq Hne.
        destruct t1 as [|x1 t1]; simpl; [now rewrite app_nil_r|].
        injection Heq as <- Heq.
        destruct t1 as [|x2 t1]; simpl; [now rewrite app_nil_r|].
        injection Heq as <- Heq.
        rewrite Hdec, app_assoc. now apply (Hpre t1 t2).
      * intros H. destruct (Hlast1 H) as (t0 & d' & ->).
        exists (Recv (Chunk d) :: Feed d :: t0), d'. reflexivity.
      * intros H. destruct (Hlast2 H) as (t0 & ->).
        exists (Recv (Chunk d) :: Feed d :: t0). reflexivity.
  - injection Hrun as <- <-.
    exists [Recv TimedOut]. simpl. rewrite Hr, app_nil_r.
    split; [reflexivity|]. split; [reflexivity|]. split; [|split].
    + intros t1 t2 Heq Hne.
      apply (ends_false_decoded_single E (h2c w) events0 (Recv TimedOut) t1 t2);
        auto; discriminate.
    + congruence.
    + intros _. exists []. reflexivity.
Qed.

Lemma next_read_with_inbox (w : World) (script : list recv_outcome) :
  inbox w = script -> next_read (with_inbox script w) = next_read w.
Proof. intros <-. reflexivity. Qed.

(** The loop of [getData], read forwards: the chunks arrive, each is decoded,
    and the list of events ends with [StreamEnded] after the last of them
    and not before, or does not and the next read times out. *)
Lemma getData_from_drains (E : Env) (chunks : list bytes) :
  forall (events0 : list Event) (fuel : nat) (w : World)
         (script : list recv_outcome),
    inbox w = map Chunk chunks ++ script ->
    decodes E (h2c w) chunks = true ->
    (forall k, k < List.length chunks ->
       ends_with_StreamEnded
         (events0 ++ decoded_events E (h2c w) (relayed (firstn k chunks))) = false) ->
    List.length chunks < fuel ->
    let events := events0 ++ decoded_events E (h2c w) (relayed chunks) in
    (chunks <> [] /\ ends_with_StreamEnded events = true) \/
    (ends_with_StreamEnded events = false /\
     next_read (with_inbox script w) = TimedOut) ->
    exists w' : World,
      getData_from E fuel events0 w = (Returned events, w') /\
      trace w' =
        trace w ++ relayed chunks
        ++ (if ends_with_StreamEnded events then [] else [Recv TimedOut]) /\
      inbox w' = (if ends_with_StreamEnded events then script else tl script).
Proof.
  induction chunks as [|c chunks IH];
    intros events0 fuel w script Hin Hdec Hpre Hfuel events Hend;
    (destruct fuel as [|fuel]; [simpl in Hfuel; lia|]);
    rewrite getData_from_step.
  - destruct Hend as [[Hne _] | [Hend Hnext]]; [now contradiction Hne|].
    simpl in Hin. rewrite (next_read_with_inbox w script Hin) in Hnext.
    rewrite Hnext. subst events. simpl. simpl in Hend.
    rewrite app_nil_r in Hend. rewrite !app_nil_r, Hend.
    eexists. split; [reflexivity|]. simpl. rewrite Hnext, Hin. auto.
  - assert (next_read w = Chunk c) as Hnext
      by (unfold next_read; rewrite Hin; reflexivity).
    rewrite Hnext. cbv zeta.
    simpl in Hdec. destruct (fst (decode E (h2c w) c)) as [new|] eqn:Hnew;
      [|discriminate].
    set (w2 := after_feed E c (after_read w)).
    assert (trace w2 = trace w ++ [Recv (Chunk c); Feed c]) as Ht2
      by (unfold w2; simpl; rewrite Hnext, <- app_assoc; reflexivity).
    assert (inbox w2 = map Chunk chunks ++ script) as Hin2
      by (unfold w2; simpl; rewrite Hin; reflexivity).
    assert (events = (events0 ++ new)
                     ++ decoded_events E (feed E (h2c w) c) (relayed chunks)) as Hev
      by (subst events; simpl; rewrite Hnew, <- app_assoc; reflexivity).
    destruct (ends_with_StreamEnded (events0 ++ new)) eqn:Hstop.
    + destruct chunks as [|c' chunks].
      * simpl in Hev. rewrite app_nil_r in Hev. rewrite Hev, Hstop.
        exists w2. split; [reflexivity|]. split.
        -- rewrite Ht2. reflexivity.
        -- exact Hin2.
      * specialize (Hpre 1 ltac:(simpl; lia)). simpl in Hpre.
        rewrite Hnew, app_nil_r in Hpre. congruence.
    + destruct (IH (events0 ++ new) fuel w2 script Hin2) as (w' & Hrun & Ht & Hi).
      * exact Hdec.
      * intros k Hk. specialize (Hpre (S k) ltac:(simpl; lia)).
        simpl in Hpre. rewrite Hnew in Hpre. now rewrite <- app_assoc.
      * simpl in Hfuel. lia.
      * change (h2c w2) with (feed E (h2c w) c). rewrite <- Hev.
        destruct Hend as [[_ Hend] | [Hend Hnext']].
        -- left. split; [|exact Hend]. intros ->.
           simpl in Hev. rewrite app_nil_r in Hev. congruence.
        -- right. split; [exact Hend|]. exact Hnext'.
      * change (h2c w2) with (feed E (h2c w) c) in Hrun, Ht, Hi.
        rewrite <- Hev in Hrun, Ht, Hi.
        exists w'. split; [exact Hrun|]. split; [|exact Hi].
        rewrite Ht, Ht2. simpl. rewrite <- !app_assoc. reflexivity.
Qed.

(** C4.  [getData] stops reading as soon as the list of decoded events ends
    with [StreamEnded].  Read forwards: when the chunks of the script are
    decoded and the list ends with [StreamEnded] after the last of them and
    after none before, [getData] returns the events decoded from these
    chunks, its last step is the decoder call for the last chunk, and the
    rest of the script is left unread; when the list does not end with
    [StreamEnded] and the next read times out, it returns the events after
    that read.  Read backwards: whenever [getData] returns, the events are
    those decoded from the chunks it read, at no earlier point of its trace
    did the list end with [StreamEnded], and its last step is a decoder call
    when the list ends with [StreamEnded], a read that timed out
    otherwise. *)
Theorem getData_stops_at_StreamEnded :
  forall (E : Env) (fuel : nat) (w : World),
    (forall (chunks : list bytes) (script : list recv_outcome),
       inbox w = map Chunk chunks ++ script ->
       decodes E (h2c w) chunks = true ->
       (forall k, k < List.length chunks ->
          ends_with_StreamEnded
            (decoded_events E (h2c w) (relayed (firstn k chunks))) = false) ->
       List.length chunks < fuel ->
       let events := decoded_events E (h2c w) (relayed chunks) in
       ends_with_StreamEnded events = true \/
       next_read (with_inbox script w) = TimedOut ->
       exists w' : World,
         getData E fuel w = (Returned events, w') /\
         trace w' =
           trace w ++ relayed chunks
           ++ (if ends_with_StreamEnded events then [] else [Recv TimedOut]) /\
         inbox w' = (if ends_with_StreamEnded events then script else tl script)) /\
    (forall (events : list Event) (w' : World),
       getData E fuel w = (Returned events, w') ->
       exists t : list io,
         trace w' = trace w ++ t /\
         events = decoded_events E (h2c w) t /\
         (forall t1 t2, t = t1 ++ t2 -> t2 <> [] ->
            ends_with_StreamEnded (decoded_events E (h2c w) t1) = false) /\
         (ends_with_StreamEnded events = true ->
            exists t0 d, t = t0 ++ [Recv (Chunk d); Feed d]) /\
         (ends_with_StreamEnded events = false ->
            exists t0, t = t0 ++ [Recv TimedOut])).
Proof.
  intros E fuel w. split.
  - intros chunks script Hin Hdec Hpre Hfuel events Hend.
    apply (getData_from_drains E chunks [] fuel w script Hin Hdec Hpre Hfuel).
    change ((chunks <> [] /\ ends_with_StreamEnded events = true) \/
            (ends_with_StreamEnded events = false /\
             next_read (with_inbox script w) = TimedOut)).
    destruct (ends_with_StreamEnded events) eqn:Hev.
    + left. split; [|reflexivity]. intros Hnil. subst events.
      rewrite Hnil in Hev. discriminate.
    + right. split; [reflexivity|]. destruct Hend as [Hend|Hend];
        [discriminate | exact Hend].
  - intros events w' Hrun.
    apply (getData_from_returned E fuel [] w events w' Hrun). reflexivity.
Qed.

Lemma getData_stops_at_StreamEnded_witness :
  let w := demo_world [Chunk (b "HD"); Chunk (b "E"); Chunk (b "D")] Silent in
  let chunks := [b "HD"; b "E"] in
  let events := decoded_events demo_env (h2c w) (relayed chunks) in
  exists w' : World,
    getData demo_env 4 w = (Returned events, w') /\
    trace w' =
      trace w ++ relayed chunks
      ++ (if ends_with_StreamEnded events then [] else [Recv TimedOut]) /\
    inbox w' = (if ends_with_StreamEnded events
                then [Chunk (b "D")] else tl [Chunk (b "D")]).
Proof.
  intros w chunks events.
  destruct (getData_stops_at_StreamEnded demo_env 4 w) as [Hforwards _].
  apply (Hforwards chunks [Chunk (b "D")]).
  - reflexivity.
  - reflexivity.
  - intros k Hk. destruct k as [|[|k]]; [reflexivity | reflexivity | simpl in Hk; lia].
  - simpl. lia.
  - left. reflexivity.
Defined.

(** ** A peer that closes the connection *)

Lemma contains_app_false (sep s x : bytes) :
  contains sep (s ++ x) = false -> contains sep s = false.
Proof.
  intros H. destruct (contains sep s) eqn:Hs; [|reflexivity].
  rewrite (contains_app _ _ x Hs) in H. discriminate.
Qed.

Lemma recv_headers_spins (fuel : nat) :
  forall (data : bytes) (chunks : list bytes) (w : World),
    inbox w = map Chunk chunks -> peer w = Closed ->
    contains CRLFCRLF (data ++ List.concat chunks) = false ->
    fst (recv_headers fuel data w) = Running.
Proof.
  induction fuel as [|fuel IH]; intros data chunks w Hin Hp Hno; simpl;
    rewrite (contains_app_false _ _ _ Hno); [reflexivity|].
  unfold bind at 1. rewrite recv_spec. unfold next_read. rewrite Hin.
  destruct chunks as [|c chunks]; simpl.
  - rewrite Hp. simpl. apply (IH _ []).
    + simpl. now rewrite Hin.
    + exact Hp.
    + simpl in *. now rewrite !app_nil_r in *.
  - apply (IH _ chunks).
    + simpl. now rewrite Hin.
    + exact Hp.
    + simpl in Hno. now rewrite <- app_assoc.
Qed.

(** C6, where the code departs from it.  When the peer closes the connection
    before the end-of-headers marker has arrived, every further read returns
    [b''] at once and the loop of [get_upgrade_response] never ends: whatever
    the fuel, the function is still running. *)
Theorem get_upgrade_response_spins_when_peer_closes :
  forall (fuel : nat) (proxy_url : ParseResult) (w : World) (chunks : list bytes),
    inbox w = map Chunk chunks -> peer w = Closed ->
    contains CRLFCRLF (List.concat chunks) = false ->
    fst (get_upgrade_response fuel proxy_url w) = Running.
Proof.
  intros fuel proxy_url w chunks Hin Hp Hno.
  unfold get_upgrade_response, bind.
  pose proof (recv_headers_spins fuel [] chunks w Hin Hp Hno) as H.
  destruct (recv_headers fuel [] w) as [[data|e|] w']; simpl in H;
    try discriminate. reflexivity.
Qed.

Lemma get_upgrade_response_spins_when_peer_closes_witness :
  fst (get_upgrade_response 1000 (demo_url "http://proxy.test")
         (demo_world [Chunk (b "HTTP/1.1 101 Switching Protocols" ++ CRLF)] Closed))
  = Running.
Proof.
  apply (get_upgrade_response_spins_when_peer_closes 1000 _ _
           [b "HTTP/1.1 101 Switching Protocols" ++ CRLF]);
    reflexivity.
Defined.

(** The part of C6 that holds: when the peer stays silent before the marker
    has arrived, the read times out and [get_upgrade_response] fails with
    [socket.timeout]. *)
Lemma recv_headers_times_out (chunks : list bytes) :
  forall (data : bytes) (fuel : nat) (w : World) (later : list recv_outcome),
    inbox w = map Chunk chunks ++ later ->
    next_read (with_inbox later w) = TimedOut ->
    contains CRLFCRLF (data ++ List.concat chunks) = false ->
    List.length chunks < fuel ->
    fst (recv_headers fuel data w) = Raised SocketTimeout.
Proof.
  induction chunks as [|c chunks IH]; intros data fuel w later Hin Hnext Hno Hfuel;
    (destruct fuel as [|fuel]; [simpl in Hfuel; lia|]);
    simpl; rewrite (contains_app_false _ _ _ Hno);
    unfold bind at 1; rewrite recv_spec.
  - simpl in Hin. unfold next_read in *. simpl in Hnext. rewrite Hin.
    destruct later as [|r later]; simpl in *.
    + destruct (peer w); [reflexivity | discriminate].
    + subst r. reflexivity.
  - unfold next_read. rewrite Hin. simpl.
    apply (IH _ _ _ later); simpl in *; auto; try lia.
    + now rewrite Hin.
    + now rewrite <- app_assoc.
Qed.

Lemma get_upgrade_response_times_out :
  forall (fuel : nat) (proxy_url : ParseResult) (w : World) (chunks : list bytes),
    inbox w = map Chunk chunks -> peer w = Silent ->
    contains CRLFCRLF (List.concat chunks) = false ->
    List.length chunks < fuel ->
    fst (get_upgrade_response fuel proxy_url w) = Raised SocketTimeout.
Proof.
  intros fuel proxy_url w chunks Hin Hp Hno Hfuel.
  unfold get_upgrade_response, bind.
  assert (fst (recv_headers fuel [] w) = Raised SocketTimeout) as H.
  { apply (recv_headers_times_out chunks [] fuel w []); auto.
    - now rewrite app_nil_r.
    - unfold next_read. simpl. now rewrite Hp. }
  destruct (recv_headers fuel [] w) as [[data|e|] w']; simpl in H;
    try discriminate. injection H as ->. reflexivity.
Qed.

(** ** Dispatching a smuggled request *)

Lemma for_each_app {A : Type} (body : A -> M unit) (l1 l2 : list A) (w : World) :
  for_each (l1 ++ l2) body w =
    match for_each l1 body w with
    | (Returned _, w1) => for_each l2 body w1
    | r => r
    end.
Proof.
  revert w; induction l1 as [|x l1 IH]; intros w; simpl.
  - reflexivity.
  - unfold bind. destruct (body x w) as [[[]|e|] w1]; auto.
Qed.

(** The handler stops at the first [StreamReset]: it raises the error that
    carries the code, in the world reached after the events that precede the
    reset; what follows the reset is not looked at. *)
Lemma handle_events_stops_at_reset (before after : list Event) (sid code : Z)
    (isVerbose : bool) (w w1 : World) :
  handle_events before isVerbose w = (Returned tt, w1) ->
  handle_events (before ++ StreamReset sid code :: after) isVerbose w =
    (Raised (RuntimeError ("stream reset: " ++ format_d code)), w1).
Proof.
  intros H. unfold handle_events in *. rewrite for_each_app, H. reflexivity.
Qed.

(** A response header that is not UTF-8 makes the handler fail before it
    reaches a later reset. *)
Example handle_events_undecodable_header :
  fst (handle_events [ResponseReceived 1 [(b "x-a", [xff])]; StreamReset 1 8] false
         (demo_world [] Silent))
  = Raised UnicodeDecodeError.
Proof. reflexivity. Qed.

Lemma sendSmuggledRequest_spec (E : Env) (fuel : nat) (headers : list header_tuple)
    (args : Args) (w : World) :
  sendSmuggledRequest E fuel headers args w =
    if Z.odd (next_stream_id (h2c w)) then
      let w1 := after_open E headers (is_None (data args)) w in
      if truthy (data args) then (Raised (NameError "sendData"), w1)
      else (events <- getData E fuel ;; handle_events events (verbose args)) w1
    else (Raised ProtocolError, w).
Proof.
  unfold sendSmuggledRequest, get_next_available_stream_id, send_headers,
    data_to_send, sendall, log, get_h2, set_h2, bind. simpl.
  rewrite Z.leb_refl, andb_true_r.
  destruct (Z.odd (next_stream_id (h2c w))); [|reflexivity]. simpl.
  destruct (truthy (data args)); reflexivity.
Qed.

Lemma getData_from_spins (E : Env) (fuel : nat) :
  forall (events : list Event) (w : World),
    inbox w = [] -> peer w = Closed ->
    ends_with_StreamEnded events = false ->
    (forall h, fst (decode E h []) = Some []) ->
    fst (getData_from E fuel events w) = Running.
Proof.
  induction fuel as [|fuel IH]; intros events w Hin Hp Hend Hempty;
    [reflexivity|].
  rewrite getData_from_step. unfold next_read. rewrite Hin, Hp. cbv zeta.
  rewrite Hempty, app_nil_r, Hend.
  apply IH; auto. simpl. now rewrite Hin.
Qed.

(** C5, where the code departs from it.  The peer answers a request with a
    frame that decodes to a [StreamReset] and closes the connection.
    [getData] does not leave its loop on a [StreamReset]; every further read
    returns [b''], which decodes to no event, so the dispatch never reaches
    [handle_events]: whatever the fuel, [sendSmuggledRequest] is still
    running and the reset is not reported. *)
Theorem sendSmuggledRequest_hangs_after_reset :
  forall (E : Env) (fuel : nat) (headers : list header_tuple) (args : Args)
         (w : World) (chunk : bytes) (sid code : Z),
    data args = None ->
    Z.odd (next_stream_id (h2c w)) = true ->
    inbox w = [Chunk chunk] -> peer w = Closed ->
    (forall h, fst (decode E h chunk) = Some [StreamReset sid code]) ->
    (forall h, fst (decode E h []) = Some []) ->
    fst (sendSmuggledRequest E fuel headers args w) = Running.
Proof.
  intros E fuel headers args w chunk sid code Hdata Hodd Hin Hp Hreset Hempty.
  rewrite sendSmuggledRequest_spec, Hodd, Hdata. cbv zeta. simpl truthy. cbv iota.
  unfold bind, getData.
  set (w1 := after_open E headers (is_None None) w).
  assert (fst (getData_from E fuel [] w1) = Running) as H.
  { destruct fuel as [|fuel]; [reflexivity|].
    rewrite getData_from_step.
    assert (next_read w1 = Chunk chunk) as -> by (unfold next_read; simpl; now rewrite Hin).
    cbv zeta. rewrite Hreset. simpl app. simpl ends_with_StreamEnded. cbv iota.
    apply getData_from_spins; auto. simpl. now rewrite Hin. }
  destruct (getData_from E fuel [] w1) as [[events|e|] w2]; simpl in H;
    try discriminate. reflexivity.
Qed.

Lemma sendSmuggledRequest_hangs_after_reset_witness :
  fst (sendSmuggledRequest demo_env 1000 [] (demo_args false)
         (demo_world [Chunk (b "R")] Closed)) = Running.
Proof.
  apply (sendSmuggledRequest_hangs_after_reset demo_env 1000 [] (demo_args false)
           (demo_world [Chunk (b "R")] Closed) (b "R") 1 8);
    reflexivity.
Defined.

(** The part of C5 that holds: when the drain ends (here, by a read that
    times out) with a [StreamReset] among the events, the dispatch fails with
    the error that carries its code. *)
Example sendSmuggledRequest_reports_reset :
  fst (sendSmuggledRequest demo_env 5 [] (demo_args false)
         (demo_world [Chunk (b "HR"); Chunk (b "D"); TimedOut] Silent))
  = Raised (RuntimeError "stream reset: 8").
Proof. reflexivity. Qed.

(** ** The handshake of [main] *)

(** [main] is its handshake continued by its tunnel phase. *)
Lemma main_parts (E : Env) (UPGRADE_ONLY : bool) (fuel : nat) (args : Args) :
  main E UPGRADE_ONLY fuel args =
  main_handshake E UPGRADE_ONLY fuel args (main_tunnel E fuel args).
Proof. reflexivity. Qed.

Lemma bind_ret {A B} (a : A) (k : A -> M B) (w : World) : bind (ret a) k w = k a w.
Proof. reflexivity. Qed.

Lemma bind_returned {A B} (m : M A) (k : A -> M B) (w w' : World) (a : A) :
  m w = (Returned a, w') -> bind m k w = k a w'.
Proof. intros H. unfold bind. now rewrite H. Qed.

Lemma establish_tcp_connection_ok (proxy_url : ParseResult) (w : World) :
  connect_fails w = false ->
  establish_tcp_connection proxy_url w =
    (Returned tt, with_trace (trace w ++ [connect_event proxy_url]) w).
Proof.
  intros H. unfold establish_tcp_connection, bind, log. simpl. now rewrite H.
Qed.

Lemma get_upgrade_response_101 :
  forall (fuel : nat) (proxy_url : ParseResult) (w : World)
         (chunks : list bytes) (later : list recv_outcome) (headers rest : bytes),
    inbox w = map Chunk chunks ++ later ->
    marker_arrives [] chunks = true ->
    split_once CRLFCRLF (List.concat chunks) = Some (headers, rest) ->
    status_code_token headers = Some (b "101") ->
    List.length chunks <= fuel ->
    get_upgrade_response fuel proxy_url w =
      (Returned (Some rest, true),
       with_trace (trace w ++ reads chunks) (with_inbox later w)).
Proof.
  intros fuel proxy_url w chunks later headers rest Hin Harr Hsplit Htok Hfuel.
  apply status_code_token_split in Htok.
  unfold get_upgrade_response, bind at 1.
  rewrite (recv_headers_arrives chunks [] _ _ _ Hin Harr Hfuel).
  cbv beta iota. rewrite app_nil_l, Hsplit. cbv beta iota zeta. rewrite Htok.
  reflexivity.
Qed.

Lemma main_handshake_runs :
  forall (E : Env) (U : bool) (fuel : nat) (args : Args) (k : option bytes -> M unit)
         (w : World) (chunks : list bytes) (later : list recv_outcome)
         (headers rest : bytes) (host : string),
    String.prefix "http" (proxy args) = true ->
    connect_fails w = false ->
    hostname (urlparse E (proxy args)) = Some host ->
    inbox w = map Chunk chunks ++ later ->
    marker_arrives [] chunks = true ->
    split_once CRLFCRLF (List.concat chunks) = Some (headers, rest) ->
    status_code_token headers = Some (b "101") ->
    List.length chunks <= fuel ->
    main_handshake E U fuel args k w =
      let w1 := established E U (urlparse E (proxy args)) host chunks later w in
      if test args then
        (Raised (SystemExit 0),
         with_trace (trace w1 ++ [Print (Text ("[INFO] Success! " ++ proxy args
                                                ++ " can be used for tunneling"))]) w1)
      else k (Some rest) w1.
Proof.
  intros E U fuel args k w chunks later headers rest host
         Hprefix Hconn Hhost Hin Harr Hsplit Hcode Hfuel.
  unfold main_handshake. rewrite Hprefix. simpl negb. cbv iota.
  rewrite bind_ret. cbv zeta.
  rewrite (bind_returned _ _ _ _ _ (establish_tcp_connection_ok _ _ Hconn)).
  unfold set_h2 at 1, initiate_upgrade_connection, get_h2.
  unfold bind at 1. unfold bind at 1. unfold bind at 1. unfold bind at 1.
  cbv beta iota. unfold set_h2 at 1. cbv beta iota. unfold ret at 1.
  cbv beta iota.
  rewrite (bind_returned _ _ _ _ _ (send_initial_request_sends U _ _ _ host Hhost)).
  erewrite bind_returned.
  2:{ apply (get_upgrade_response_101 fuel _ _ chunks later headers rest); auto. }
  cbv beta iota. simpl negb. cbv iota. rewrite bind_ret.
  unfold print. unfold bind at 1, log at 1. cbv beta iota.
  match goal with
  | |- _ ?W = _ =>
      replace W with (established E U (urlparse E (proxy args)) host chunks later w)
  end.
  - cbv zeta. destruct (test args); reflexivity.
  - unfold established, handshake_trace, with_trace, with_h2c, with_inbox.
    simpl. rewrite <- !app_assoc. reflexivity.
Qed.


(** ** What the script appends to the trace *)

Section Appends.

Variable P : io -> Prop.

Lemma appends_ret {A} (a : A) : appends P (ret a).
Proof. intros w. exists []. simpl. rewrite app_nil_r. auto. Qed.

Lemma appends_raise {A} (e : exn) : appends P (@raise A e).
Proof. intros w. exists []. simpl. rewrite app_nil_r. auto. Qed.

Lemma appends_running {A} : appends P (@running A).
Proof. intros w. exists []. simpl. rewrite app_nil_r. auto. Qed.

Lemma appends_bind {A B} (m : M A) (k : A -> M B) :
  appends P m -> (forall a, appends P (k a)) -> appends P (bind m k).
Proof.
  intros Hm Hk w. unfold bind.
  destruct (Hm w) as (t1 & Ht1 & HP1 & Hc1).
  destruct (m w) as [[a|e|] w1]; simpl in *; eauto.
  destruct (Hk a w1) as (t2 & Ht2 & HP2 & Hc2).
  exists (t1 ++ t2). rewrite Ht2, Ht1, app_assoc.
  split; [reflexivity|]. split; [now apply Forall_app|]. congruence.
Qed.

Lemma appends_log (x : io) : P x -> appends P (log x).
Proof. intros Hx w. exists [x]. simpl. auto. Qed.

Lemma appends_get_h2 : appends P get_h2.
Proof. intros w. exists []. simpl. rewrite app_nil_r. auto. Qed.

Lemma appends_set_h2 (h : H2Connection) : appends P (set_h2 h).
Proof. intros w. exists []. simpl. rewrite app_nil_r. auto. Qed.

Lemma appends_recv (n : N) : (forall r, P (Recv r)) -> appends P (recv n).
Proof.
  intros HP w. rewrite recv_spec. exists [Recv (next_read w)].
  unfold after_read. destruct (next_read w); simpl; repeat split; auto.
Qed.

Lemma appends_shutdown : P Shutdown -> appends P shutdown.
Proof.
  intros HP w. unfold shutdown. destruct (reset_by_peer (trace w)).
  - exists []. simpl. rewrite app_nil_r. auto.
  - exists [Shutdown]. simpl. auto.
Qed.

Lemma appends_except_timeout {A} (m h : M A) :
  appends P m -> appends P h -> appends P (except_timeout m h).
Proof.
  intros Hm Hh w. unfold except_timeout.
  destruct (Hm w) as (t1 & Ht1 & HP1 & Hc1).
  destruct (m w) as [[a|e|] w1]; simpl in *; eauto.
  destruct e; simpl; eauto.
  destruct (Hh w1) as (t2 & Ht2 & HP2 & Hc2).
  exists (t1 ++ t2). rewrite Ht2, Ht1, app_assoc.
  split; [reflexivity|]. split; [now apply Forall_app|]. congruence.
Qed.

Lemma appends_for_each {A} (l : list A) (body : A -> M unit) :
  (forall x, appends P (body x)) -> appends P (for_each l body).
Proof.
  intros Hb. induction l as [|x l IH]; simpl.
  - apply appends_ret.
  - apply appends_bind; auto.
Qed.

End Appends.

Ltac appends_step :=
  first
    [ apply appends_ret | apply appends_raise | apply appends_running
    | apply appends_get_h2 | apply appends_set_h2
    | apply appends_log | apply appends_recv | apply appends_shutdown
    | apply appends_bind; [|intros ?] | apply appends_except_timeout
    | apply appends_for_each; intros ? ].

Ltac appends_case :=
  match goal with
  | |- appends _ (if ?c then _ else _) => destruct c
  | |- appends _ (match ?x with _ => _ end) => destruct x
  | |- appends _ (let (_, _) := ?x in _) => destruct x
  end.

Ltac appends_auto := repeat first [appends_step | appends_case]; auto.

Lemma appends_receive_data (P : io -> Prop) (E : Env) (chunk : bytes) :
  P (Feed chunk) -> appends P (receive_data E chunk).
Proof. intros HP. unfold receive_data. appends_auto. Qed.

Lemma appends_getData_from (P : io -> Prop) (E : Env) (fuel : nat) :
  (forall r, P (Recv r)) -> (forall d, P (Feed d)) ->
  forall events, appends P (getData_from E fuel events).
Proof.
  intros HR HF. induction fuel as [|fuel IH]; intros events; simpl.
  - appends_step.
  - unfold recv_or_timeout. appends_auto.
Qed.

Lemma appends_handle_events (P : io -> Prop) (events : list Event) (v : bool) :
  (forall l, P (Print l)) -> appends P (handle_events events v).
Proof.
  intros HP. unfold handle_events, handle_event, handle_response, print.
  appends_auto.
Qed.

Lemma quiet_Recv (r : recv_outcome) : quiet (Recv r).
Proof. exact I. Qed.

Lemma quiet_Feed (d : bytes) : quiet (Feed d).
Proof. exact I. Qed.

Lemma quiet_Print (l : line) : quiet (Print l).
Proof. exact I. Qed.

Lemma quiet_Sendall (d : bytes) : quiet (Sendall d).
Proof. exact I. Qed.

Ltac appends_script :=
  repeat first
    [ apply appends_handle_events; intros ?
    | apply appends_getData_from; intros ?
    | appends_step | appends_case ];
  auto using quiet_Recv, quiet_Feed, quiet_Print, quiet_Sendall.

Lemma appends_sendSmuggledRequest (E : Env) (fuel : nat)
    (headers : list header_tuple) (args : Args) :
  appends quiet (sendSmuggledRequest E fuel headers args).
Proof.
  unfold sendSmuggledRequest, get_next_available_stream_id, send_headers,
    data_to_send, sendall, getData.
  appends_script.
Qed.

Lemma appends_smuggle_all (E : Env) (fuel : nat) (args : Args)
    (urls : list ParseResult) :
  appends quiet (smuggle_all E fuel args urls).
Proof.
  unfold smuggle_all, print. appends_step. appends_step.
  - appends_script.
  - apply appends_sendSmuggledRequest.
Qed.

Lemma appends_weaken {A} (P Q : io -> Prop) (m : M A) :
  (forall x, P x -> Q x) -> appends P m -> appends Q m.
Proof.
  intros HPQ Hm w. destruct (Hm w) as (t & Ht & HP & Hc).
  exists t. repeat split; auto. eapply Forall_impl; eauto.
Qed.

Lemma appends_main_exchanges (E : Env) (fuel : nat) (args : Args) :
  appends (fun _ => True) (main_exchanges E fuel args).
Proof.
  unfold main_exchanges, getData, data_to_send, sendall, target_urls,
    close_connection, close.
  repeat first
    [ apply appends_handle_events; intros ?
    | apply appends_getData_from; intros ?
    | apply (appends_weaken quiet); [intros; exact I | apply appends_smuggle_all]
    | apply appends_bind; [|intros ?]
    | apply appends_get_h2 | apply appends_set_h2 | apply appends_log
    | apply appends_shutdown
    | apply appends_ret | apply appends_raise
    | appends_case ]; auto.
Qed.

(** ** The leftover bytes *)

Lemma starts_with_self (sep rest : bytes) : starts_with sep (sep ++ rest) = true.
Proof.
  induction sep as [|c sep IH]; simpl; [reflexivity|].
  rewrite IH, andb_true_r. now apply Byte.byte_dec_lb.
Qed.

(** [split_once] splits at the first occurrence of the separator. *)
Lemma split_once_first (sep : bytes) :
  forall (s before after before' after' : bytes),
    split_once sep s = Some (before, after) ->
    s = before' ++ sep ++ after' ->
    List.length before <= List.length before'.
Proof.
  induction s as [|c s IH]; intros before after before' after' Hs Heq; simpl in Hs.
  - destruct (starts_with sep []); [|discriminate].
    injection Hs as <- <-. simpl. lia.
  - destruct (starts_with sep (c :: s)) eqn:Hst.
    + injection Hs as <- <-. simpl. lia.
    + destruct (split_once sep s) as [[a r]|] eqn:Hrec; [|discriminate].
      injection Hs as <- <-.
      destruct before' as [|c' before'].
      * simpl in Heq. rewrite Heq, starts_with_self in Hst. discriminate.
      * simpl in Heq. injection Heq as -> Heq. simpl.
        apply le_n_S. now apply (IH a r before' after').
Qed.

Lemma chunks_read_app (t1 t2 : list io) :
  chunks_read (t1 ++ t2) = chunks_read t1 ++ chunks_read t2.
Proof.
  induction t1 as [|x t1 IH]; [reflexivity|].
  destruct x as [| |[]| | | | |]; simpl; now rewrite ?IH.
Qed.

Lemma chunks_fed_app (t1 t2 : list io) :
  chunks_fed (t1 ++ t2) = chunks_fed t1 ++ chunks_fed t2.
Proof.
  induction t1 as [|x t1 IH]; [reflexivity|].
  destruct x; simpl; now rewrite ?IH.
Qed.

Lemma getData_from_feeds_reads (E : Env) (fuel : nat) :
  forall (events : list Event) (w : World),
    exists t : list io,
      trace (snd (getData_from E fuel events w)) = trace w ++ t /\
      Forall is_read_or_feed t /\
      chunks_fed t = chunks_read t /\
      fed (h2c (snd (getData_from E fuel events w))) = fed (h2c w) ++ chunks_read t.
Proof.
  induction fuel as [|fuel IH]; intros events w.
  - exists []. simpl. rewrite !app_nil_r. auto.
  - rewrite getData_from_step.
    destruct (next_read w) as [d| |] eqn:Hr.
    + cbv zeta.
      assert (exists t,
                trace (after_feed E d (after_read w)) = trace w ++ t /\
                Forall is_read_or_feed t /\ chunks_fed t = chunks_read t /\
                fed (h2c (after_feed E d (after_read w)))
                = fed (h2c w) ++ chunks_read t) as Hstep.
      { exists [Recv (Chunk d); Feed d]. simpl. rewrite Hr, <- app_assoc.
        repeat split; auto. repeat constructor. }
      destruct (fst (decode E (h2c w) d)) as [new|]; [|exact Hstep].
      destruct (ends_with_StreamEnded (events ++ new)); [exact Hstep|].
      destruct Hstep as (t1 & Ht1 & HP1 & Hb1 & Hf1).
      destruct (IH (events ++ new) (after_feed E d (after_read w)))
        as (t2 & Ht2 & HP2 & Hb2 & Hf2).
      exists (t1 ++ t2). rewrite Ht2, Ht1, Hf2, Hf1.
      rewrite chunks_read_app, chunks_fed_app, Hb1, Hb2, <- !app_assoc.
      repeat split; auto. now apply Forall_app.
    + exists [Recv TimedOut]. simpl. rewrite Hr, app_nil_r.
      repeat split; auto. repeat constructor.
    + exists [Recv Failed]. simpl. rewrite Hr, app_nil_r.
      repeat split; auto. repeat constructor.
Qed.

(** ** What is given to the decoder *)

Lemma relays_ret {A} (a : A) : relays (ret a).
Proof. intros w. exists []. simpl. rewrite !app_nil_r. auto. Qed.

Lemma relays_raise {A} (e : exn) : relays (@raise A e).
Proof. intros w. exists []. simpl. rewrite !app_nil_r. auto. Qed.

Lemma relays_get_h2 : relays get_h2.
Proof. intros w. exists []. simpl. rewrite !app_nil_r. auto. Qed.

Lemma relays_set_h2 (f : H2Connection -> H2Connection) :
  (forall h, fed (f h) = fed h) ->
  relays (h <- get_h2 ;; set_h2 (f h)).
Proof.
  intros Hf w. exists []. simpl. rewrite !app_nil_r, Hf. auto.
Qed.

Lemma relays_log (x : io) :
  chunks_fed [x] = [] -> chunks_read [x] = [] -> relays (log x).
Proof.
  intros Hfed Hread w. exists [x]. simpl trace. simpl h2c.
  rewrite Hfed, Hread, app_nil_r. auto.
Qed.

Lemma relays_bind {A B} (m : M A) (k : A -> M B) :
  relays m -> (forall a, relays (k a)) -> relays (bind m k).
Proof.
  intros Hm Hk w. unfold bind.
  destruct (Hm w) as (t1 & Ht1 & Hb1 & Hf1).
  destruct (m w) as [[a|e|] w1]; simpl in *; eauto.
  destruct (Hk a w1) as (t2 & Ht2 & Hb2 & Hf2).
  exists (t1 ++ t2).
  rewrite Ht2, Ht1, Hf2, Hf1, chunks_fed_app, chunks_read_app, Hb1, Hb2, !app_assoc.
  auto.
Qed.

Lemma relays_for_each {A} (l : list A) (body : A -> M unit) :
  (forall x, relays (body x)) -> relays (for_each l body).
Proof.
  intros Hb. induction l as [|x l IH]; simpl.
  - apply relays_ret.
  - apply relays_bind; auto.
Qed.

Lemma relays_shutdown : relays shutdown.
Proof.
  intros w. unfold shutdown. destruct (reset_by_peer (trace w)).
  - exists []. simpl. rewrite !app_nil_r. auto.
  - exists [Shutdown]. simpl. rewrite app_nil_r. auto.
Qed.

Lemma relays_getData (E : Env) (fuel : nat) : relays (getData E fuel).
Proof.
  intros w. unfold getData.
  destruct (getData_from_feeds_reads E fuel [] w) as (t & Ht & _ & Hb & Hf).
  exists t. rewrite Hb. auto.
Qed.

Ltac relays_auto :=
  repeat first
    [ apply relays_ret | apply relays_raise | apply relays_get_h2
    | apply relays_log; reflexivity
    | apply relays_shutdown | apply relays_getData
    | apply relays_bind; [|intros ?]
    | apply relays_for_each; intros ?
    | match goal with
      | |- relays (if ?c then _ else _) => destruct c
      | |- relays (match ?x with _ => _ end) => destruct x
      | |- relays (let (_, _) := ?x in _) => destruct x
      end ].

Lemma relays_data_to_send_sendall : relays (out <- data_to_send ;; sendall out).
Proof.
  intros w. unfold data_to_send, sendall, bind, get_h2, set_h2, ret, log.
  eexists [Sendall _]. simpl. rewrite app_nil_r. auto.
Qed.

Lemma relays_handle_events (events : list Event) (v : bool) :
  relays (handle_events events v).
Proof.
  unfold handle_events, handle_event, handle_response, print. relays_auto.
Qed.

Lemma relays_sendSmuggledRequest (E : Env) (fuel : nat)
    (headers : list header_tuple) (args : Args) :
  relays (sendSmuggledRequest E fuel headers args).
Proof.
  unfold sendSmuggledRequest.
  apply relays_bind; [|intros stream_id].
  { unfold get_next_available_stream_id. relays_auto. }
  apply relays_bind; [|intros _].
  { intros w. unfold send_headers, bind, get_h2, set_h2, raise.
    exists []. destruct (_ && _); simpl; rewrite !app_nil_r; auto. }
  apply relays_bind; [apply relays_data_to_send_sendall | intros _].
  apply relays_bind; [relays_auto | intros _].
  apply relays_bind; [apply relays_getData | intros events].
  apply relays_handle_events.
Qed.

Lemma relays_main_exchanges (E : Env) (fuel : nat) (args : Args) :
  relays (main_exchanges E fuel args).
Proof.
  unfold main_exchanges.
  apply relays_bind; [apply relays_getData | intros events].
  apply relays_bind; [apply relays_data_to_send_sendall | intros _].
  apply relays_bind; [apply relays_handle_events | intros _].
  apply relays_bind; [unfold target_urls; relays_auto | intros urls].
  apply relays_bind.
  { unfold smuggle_all, print. apply relays_for_each. intros url.
    apply relays_bind; [relays_auto | intros _].
    apply relays_sendSmuggledRequest. }
  intros _.
  apply relays_bind; [|intros _].
  { intros w. unfold close_connection, bind, get_h2, set_h2.
    exists []. simpl. rewrite !app_nil_r. auto. }
  apply relays_bind; [apply relays_data_to_send_sendall | intros _].
  unfold close. relays_auto.
Qed.

(** What follows the first step of a computation is appended to the trace
    that the first step leaves. *)
Lemma appends_after {A B} (P : io -> Prop) (m : M A) (k : A -> M B) (w : World) :
  (forall a, appends P (k a)) ->
  exists t : list io, trace (snd (bind m k w)) = trace (snd (m w)) ++ t.
Proof.
  intros Hk. unfold bind. destruct (m w) as [[a|e|] w1]; simpl;
    try (exists []; now rewrite app_nil_r).
  destruct (Hk a w1) as (t & Ht & _). eauto.
Qed.

(** The tunnel phase begins with a read of the socket, if it does anything. *)
Lemma main_exchanges_reads_first (E : Env) (fuel : nat) (args : Args) (w : World) :
  forall t : list io,
    trace (snd (main_exchanges E fuel args w)) = trace w ++ t ->
    t = [] \/ exists (r : recv_outcome) (t' : list io), t = Recv r :: t'.
Proof.
  intros t Ht. destruct fuel as [|fuel].
  - left. simpl in Ht. apply (app_inv_head (trace w)).
    rewrite app_nil_r. symmetry. exact Ht.
  - right. unfold main_exchanges, getData in Ht. cbn [getData_from] in Ht.
    match type of Ht with
    | context [bind (bind (recv_or_timeout ?n) ?k1) ?k2 w] =>
        destruct (appends_after (fun _ => True) (bind (recv_or_timeout n) k1) k2 w)
          as (t2 & Ht2);
        [| destruct (appends_after (fun _ => True) (recv_or_timeout n) k1 w)
             as (t1 & Ht1) ]
    end.
    + intros events.
      cbv beta.
      unfold data_to_send, sendall, target_urls, close_connection, close.
      repeat first
        [ apply appends_handle_events; intros ?
        | apply (appends_weaken quiet); [intros; exact I | apply appends_smuggle_all]
        | apply appends_bind; [|intros ?]
        | apply appends_get_h2 | apply appends_set_h2 | apply appends_log
        | apply appends_shutdown
        | apply appends_ret | apply appends_raise
        | appends_case ]; auto.
    + intros [newdata|]; [|apply appends_ret].
      apply appends_bind; [apply appends_receive_data; exact I | intros new].
      destruct (_ && _); [apply appends_ret|].
      apply appends_getData_from; intros; exact I.
    + rewrite Ht2, Ht1, recv_or_timeout_spec in Ht. cbn [snd] in Ht.
      unfold after_read in Ht. simpl in Ht. rewrite <- !app_assoc in Ht.
      apply app_inv_head in Ht. subst t. simpl. eauto.
Qed.

(** The tunnel phase up to the feeding of the leftover bytes. *)
Lemma main_tunnel_feeds_leftover (E : Env) (fuel : nat) (args : Args) (rest : bytes)
    (w1 : World) :
  main_tunnel E fuel args (Some rest) w1 =
    let w2 :=
      after_feed E rest
        (with_trace (trace w1 ++ [Sendall (outbuf (h2c w1))])
           (with_h2c {| next_stream_id := next_stream_id (h2c w1);
                        streams := streams (h2c w1);
                        outbuf := []; fed := fed (h2c w1) |} w1)) in
    match fst (decode E {| next_stream_id := next_stream_id (h2c w1);
                           streams := streams (h2c w1);
                           outbuf := []; fed := fed (h2c w1) |} rest) with
    | Some _ => main_exchanges E fuel args w2
    | None => (Raised ProtocolError, w2)
    end.
Proof.
  unfold main_tunnel, data_to_send, sendall, get_h2, set_h2, log.
  unfold bind at 1. unfold bind at 1. unfold bind at 1. unfold bind at 1.
  cbv beta iota. unfold ret at 1. cbv beta iota.
  unfold bind at 1. rewrite receive_data_spec. cbv zeta.
  cbn [h2c with_trace with_h2c].
  match goal with
  | |- context [fst (decode E ?h rest)] => destruct (fst (decode E h rest))
  end; cbv beta iota; reflexivity.
Qed.

(** C3.  When the upgrade succeeds and [main] is not in test mode, the bytes
    that follow the first end-of-headers marker of the response are what
    [get_upgrade_response] returns as leftover, and they are the first bytes
    given to the frame decoder: [main] reads the response, prints its
    message, writes the pending frames, and feeds the decoder exactly these
    bytes before any other read.  What follows begins with a read, and from
    there on the decoder is given the chunks read from the socket and
    nothing else: in the end it has received the leftover, once, and then
    the chunks read, each once and in the order received. *)
Theorem leftover_is_fed_first :
  forall (E : Env) (U : bool) (fuel : nat) (args : Args) (w : World)
         (chunks : list bytes) (later : list recv_outcome)
         (headers rest : bytes) (host : string),
    String.prefix "http" (proxy args) = true ->
    connect_fails w = false ->
    hostname (urlparse E (proxy args)) = Some host ->
    inbox w = map Chunk chunks ++ later ->
    marker_arrives [] chunks = true ->
    split_once CRLFCRLF (List.concat chunks) = Some (headers, rest) ->
    status_code_token headers = Some (b "101") ->
    List.length chunks <= fuel ->
    test args = false ->
    List.concat chunks = headers ++ CRLFCRLF ++ rest /\
    (forall headers' rest',
       List.concat chunks = headers' ++ CRLFCRLF ++ rest' ->
       List.length headers <= List.length headers') /\
    fst (get_upgrade_response fuel (urlparse E (proxy args)) w)
      = Returned (Some rest, true) /\
    exists t : list io,
      trace (snd (main E U fuel args w)) =
        trace w ++ handshake_trace U (urlparse E (proxy args)) host chunks
                ++ [Sendall (preface E); Feed rest] ++ t /\
      (t = [] \/ exists (r : recv_outcome) (t' : list io), t = Recv r :: t') /\
      chunks_fed t = chunks_read t /\
      fed (h2c (snd (main E U fuel args w))) = rest :: chunks_read t.
Proof.
  intros E U fuel args w chunks later headers rest host
         Hprefix Hconn Hhost Hin Harr Hsplit Hcode Hfuel Htest.
  split; [now apply split_once_sound|].
  split; [intros h' r'; now apply split_once_first with (after := rest)|].
  split.
  { rewrite (get_upgrade_response_101 fuel _ w chunks later headers rest); auto. }
  rewrite main_parts.
  rewrite (main_handshake_runs E U fuel args _ w chunks later headers rest host);
    auto.
  cbv zeta. rewrite Htest.
  set (w1 := established E U (urlparse E (proxy args)) host chunks later w).
  rewrite main_tunnel_feeds_leftover. cbv zeta.
  match goal with
  | |- context [after_feed E rest ?W] => set (w2 := after_feed E rest W)
  end.
  assert (trace w2 = trace w ++ handshake_trace U (urlparse E (proxy args)) host chunks
                     ++ [Sendall (preface E); Feed rest]) as Hw2.
  { unfold w2, w1, handshake_trace. simpl. rewrite <- !app_assoc. simpl.
    rewrite <- !app_assoc. reflexivity. }
  assert (fed (h2c w2) = [rest]) as Hfed by reflexivity.
  destruct (fst (decode E _ rest)) as [events|]; cbv beta iota.
  - destruct (relays_main_exchanges E fuel args w2) as (t & Ht & Hb & Hf).
    exists t. split; [rewrite Ht, Hw2, <- !app_assoc; reflexivity|].
    split; [exact (main_exchanges_reads_first E fuel args w2 t Ht)|].
    split; [exact Hb|]. rewrite Hf, Hfed, Hb. reflexivity.
  - exists []. unfold snd. rewrite Hw2, app_nil_r.
    split; [reflexivity|]. split; [left; reflexivity|].
    split; [reflexivity | exact Hfed].
Qed.

Lemma leftover_is_fed_first_witness :
  let w := demo_world [Chunk (b "HTTP/1.1 101 Switching Protocols" ++ CRLF);
                       Chunk (b "Upgrade: h2c" ++ CRLFCRLF ++ b "HDE")] Silent in
  let chunks := [b "HTTP/1.1 101 Switching Protocols" ++ CRLF;
                 b "Upgrade: h2c" ++ CRLFCRLF ++ b "HDE"] in
  let headers := b "HTTP/1.1 101 Switching Protocols" ++ CRLF ++ b "Upgrade: h2c" in
  List.concat chunks = headers ++ CRLFCRLF ++ b "HDE" /\
  (forall headers' rest',
     List.concat chunks = headers' ++ CRLFCRLF ++ rest' ->
     List.length headers <= List.length headers') /\
  fst (get_upgrade_response 2 (urlparse demo_env (proxy (demo_args false))) w)
    = Returned (Some (b "HDE"), true) /\
  exists t : list io,
    trace (snd (main demo_env false 2 (demo_args false) w)) =
      trace w ++ handshake_trace false (urlparse demo_env (proxy (demo_args false)))
                   "proxy.test" chunks
              ++ [Sendall (preface demo_env); Feed (b "HDE")] ++ t /\
    (t = [] \/ exists (r : recv_outcome) (t' : list io), t = Recv r :: t') /\
    chunks_fed t = chunks_read t /\
    fed (h2c (snd (main demo_env false 2 (demo_args false) w))) =
      b "HDE" :: chunks_read t.
Proof.
  intros w chunks headers.
  apply (leftover_is_fed_first demo_env false 2 (demo_args false) w chunks []
           headers (b "HDE") "proxy.test"%string);
    first [reflexivity | simpl; lia].
Defined.


(** ** Releasing the connection *)

Lemma reads_not_teardown (chunks : list bytes) : Forall not_teardown (reads chunks).
Proof. induction chunks; simpl; constructor; auto. reflexivity. Qed.

Lemma handshake_trace_not_teardown (U : bool) (proxy_url : ParseResult)
    (host : string) (chunks : list bytes) :
  Forall not_teardown (handshake_trace U proxy_url host chunks).
Proof.
  unfold handshake_trace. simpl.
  constructor; [reflexivity|]. constructor; [reflexivity|].
  apply Forall_app. split; [apply reads_not_teardown | repeat constructor].
Qed.

(** C7, where the code departs from it.  In test mode, on a proxy that
    accepts the upgrade, [main] leaves through [sys.exit(0)] right after its
    two messages: the exit code is 0 and the connection has been neither shut
    down nor closed. *)
Theorem main_test_mode_leaves_socket_open :
  forall (E : Env) (U : bool) (fuel : nat) (args : Args) (w : World)
         (chunks : list bytes) (later : list recv_outcome)
         (headers rest : bytes) (host : string),
    String.prefix "http" (proxy args) = true ->
    connect_fails w = false ->
    hostname (urlparse E (proxy args)) = Some host ->
    inbox w = map Chunk chunks ++ later ->
    marker_arrives [] chunks = true ->
    split_once CRLFCRLF (List.concat chunks) = Some (headers, rest) ->
    status_code_token headers = Some (b "101") ->
    List.length chunks <= fuel ->
    test args = true ->
    fst (main E U fuel args w) = Raised (SystemExit 0) /\
    exists t : list io,
      trace (snd (main E U fuel args w)) = trace w ++ t /\
      Forall not_teardown t.
Proof.
  intros E U fuel args w chunks later headers rest host
         Hprefix Hconn Hhost Hin Harr Hsplit Hcode Hfuel Htest.
  rewrite main_parts.
  rewrite (main_handshake_runs E U fuel args _ w chunks later headers rest host);
    auto.
  cbv zeta. rewrite Htest. split; [reflexivity|].
  eexists. split.
  - simpl. rewrite <- app_assoc. reflexivity.
  - apply Forall_app. split; [apply handshake_trace_not_teardown|].
    repeat constructor.
Qed.

Lemma main_test_mode_leaves_socket_open_witness :
  let w := demo_world [Chunk (b "HTTP/1.1 101 Switching Protocols" ++ CRLFCRLF)] Silent in
  fst (main demo_env false 1 (demo_args true) w) = Raised (SystemExit 0) /\
  exists t : list io,
    trace (snd (main demo_env false 1 (demo_args true) w)) = trace w ++ t /\
    Forall not_teardown t.
Proof.
  intros w.
  apply (main_test_mode_leaves_socket_open demo_env false 1 (demo_args true) w
           [b "HTTP/1.1 101 Switching Protocols" ++ CRLFCRLF] []
           (b "HTTP/1.1 101 Switching Protocols") [] "proxy.test"%string);
    first [reflexivity | simpl; lia].
Defined.

(** The other exits of [main]: a refused upgrade and a stream reset leave
    the connection open as well; only the normal completion shuts it down and
    closes it. *)
Example main_refused_leaves_socket_open :
  let r := main demo_env false 1 (demo_args false)
             (demo_world [Chunk (b "HTTP/1.1 403 Forbidden" ++ CRLFCRLF)] Silent) in
  fst r = Raised (SystemExit 1) /\ teardowns (trace (snd r)) = 0.
Proof. split; reflexivity. Qed.

Example main_reset_leaves_socket_open :
  let r := main demo_env false 3 (demo_args false)
             (demo_world [Chunk (b "HTTP/1.1 101 Switching Protocols" ++ CRLFCRLF);
                          TimedOut; Chunk (b "R"); TimedOut] Silent) in
  fst r = Raised (RuntimeError "stream reset: 8") /\ teardowns (trace (snd r)) = 0.
Proof. split; reflexivity. Qed.

Example main_completion_closes :
  let r := main demo_env false 3 (demo_args false)
             (demo_world [Chunk (b "HTTP/1.1 101 Switching Protocols" ++ CRLFCRLF);
                          TimedOut; Chunk (b "HDE")] Silent) in
  fst r = Returned tt /\
  filter is_teardown (trace (snd r)) = [Shutdown; Close].
Proof. split; reflexivity. Qed.

Lemma appends_recv_headers (P : io -> Prop) (fuel : nat) :
  (forall r, P (Recv r)) -> forall data, appends P (recv_headers fuel data).
Proof.
  intros HP. induction fuel as [|fuel IH]; intros data; simpl; appends_auto.
Qed.

Lemma appends_scan_probe (E : Env) (U : bool) (fuel : nat) (line : string) :
  appends not_teardown
    (set_h2 new_H2Connection ;;;
     settings_header_value <- initiate_upgrade_connection E ;;
     send_initial_request U (urlparse E line) settings_header_value ;;;
     r <- get_upgrade_response fuel (urlparse E line) ;;
     if negb (snd r) then ret tt
     else print (Text ("[INFO] Success! " ++ line ++ " can be used for tunneling"))).
Proof.
  unfold initiate_upgrade_connection, send_initial_request, sendall,
    get_upgrade_response, print.
  repeat first
    [ apply appends_recv_headers; intros ?
    | appends_step | appends_case ]; auto; reflexivity.
Qed.

(** ** Stream IDs *)

Lemma stream_ids_succ (first : Z) (n : nat) :
  stream_ids first (S n) = first :: stream_ids (first + 2) n.
Proof.
  unfold stream_ids. cbn [seq map]. f_equal; [cbn; lia|].
  rewrite <- seq_shift, map_map. apply map_ext. intros i. lia.
Qed.

Lemma stream_ids_above (n : nat) :
  forall first bound : Z, (bound < first)%Z -> Forall (Z.lt bound) (stream_ids first n).
Proof.
  induction n as [|n IH]; intros first bound H.
  - constructor.
  - rewrite stream_ids_succ. constructor; [exact H|]. apply IH. lia.
Qed.

Lemma stream_ids_sorted (n : nat) :
  forall first : Z, StronglySorted Z.lt (stream_ids first n).
Proof.
  induction n as [|n IH]; intros first.
  - constructor.
  - rewrite stream_ids_succ. constructor; [apply IH|].
    apply stream_ids_above. lia.
Qed.

Lemma stream_ids_odd (n : nat) :
  forall first : Z, Z.odd first = true ->
    Forall (fun id => Z.odd id = true) (stream_ids first n).
Proof.
  induction n as [|n IH]; intros first H.
  - constructor.
  - rewrite stream_ids_succ. constructor; [exact H|]. apply IH.
    rewrite Z.odd_add, H. reflexivity.
Qed.

Lemma sorted_NoDup (l : list Z) : StronglySorted Z.lt l -> NoDup l.
Proof.
  induction 1 as [|x l Hs IH Hall]; constructor; auto.
  intros Hin. rewrite Forall_forall in Hall. specialize (Hall x Hin). lia.
Qed.

(** The session keeps its streams and its counter while an exchange is
    drained and reported. *)
Lemma getData_from_session (E : Env) (fuel : nat) :
  forall (events : list Event) (w : World),
    let w' := snd (getData_from E fuel events w) in
    next_stream_id (h2c w') = next_stream_id (h2c w) /\
    streams (h2c w') = streams (h2c w) /\
    exists chunks, fed (h2c w') = fed (h2c w) ++ chunks.
Proof.
  induction fuel as [|fuel IH]; intros events w.
  - simpl. repeat split; auto. exists []. now rewrite app_nil_r.
  - rewrite getData_from_step.
    destruct (next_read w) as [d| |]; simpl;
      try (repeat split; auto; exists []; now rewrite app_nil_r).
    destruct (fst (decode E (h2c w) d)) as [new|]; simpl;
      [|repeat split; auto; exists [d]; reflexivity].
    destruct (ends_with_StreamEnded (events ++ new)); simpl;
      [repeat split; auto; exists [d]; reflexivity|].
    destruct (IH (events ++ new) (after_feed E d (after_read w)))
      as (Hn & Hs & chunks & Hf).
    simpl in *. repeat split; auto.
    exists (d :: chunks). rewrite Hf, <- app_assoc. reflexivity.
Qed.

Lemma keeps_h2c_bind {A B} (m : M A) (k : A -> M B) :
  keeps_h2c m -> (forall a, keeps_h2c (k a)) -> keeps_h2c (bind m k).
Proof.
  intros Hm Hk w. unfold bind. specialize (Hm w).
  destruct (m w) as [[a|e|] w1]; simpl in *; auto.
  rewrite Hk. exact Hm.
Qed.

Lemma keeps_h2c_for_each {A} (l : list A) (body : A -> M unit) :
  (forall x, keeps_h2c (body x)) -> keeps_h2c (for_each l body).
Proof.
  intros Hb. induction l as [|x l IH]; simpl.
  - intros w. reflexivity.
  - apply keeps_h2c_bind; auto.
Qed.

Lemma keeps_h2c_log (x : io) : keeps_h2c (log x).
Proof. intros w. reflexivity. Qed.

Lemma keeps_h2c_ret {A} (a : A) : keeps_h2c (ret a).
Proof. intros w. reflexivity. Qed.

Lemma keeps_h2c_raise {A} (e : exn) : keeps_h2c (@raise A e).
Proof. intros w. reflexivity. Qed.

Ltac keeps_h2c_auto :=
  repeat first
    [ apply keeps_h2c_ret | apply keeps_h2c_raise | apply keeps_h2c_log
    | apply keeps_h2c_bind; [|intros ?]
    | apply keeps_h2c_for_each; intros ?
    | match goal with
      | |- keeps_h2c (if ?c then _ else _) => destruct c
      | |- keeps_h2c (match ?x with _ => _ end) => destruct x
      | |- keeps_h2c (let (_, _) := ?x in _) => destruct x
      end ].

Lemma keeps_h2c_handle_events (events : list Event) (v : bool) :
  keeps_h2c (handle_events events v).
Proof.
  unfold handle_events, handle_event, handle_response, print. keeps_h2c_auto.
Qed.

(** What one dispatch does to the session: it opens the stream whose ID is
    the counter and moves the counter by two. *)
Lemma sendSmuggledRequest_session (E : Env) (fuel : nat)
    (headers : list header_tuple) (args : Args) (w : World) :
  Z.odd (next_stream_id (h2c w)) = true ->
  let w' := snd (sendSmuggledRequest E fuel headers args w) in
  next_stream_id (h2c w') = (next_stream_id (h2c w) + 2)%Z /\
  streams (h2c w') = streams (h2c w) ++ [next_stream_id (h2c w)].
Proof.
  intros Hodd. rewrite sendSmuggledRequest_spec, Hodd. cbv zeta.
  destruct (truthy (data args)); [simpl; auto|].
  unfold bind, getData.
  destruct (getData_from_session E fuel []
              (after_open E headers (is_None (data args)) w)) as (Hn & Hs & _).
  destruct (getData_from E fuel [] _) as [[events|e|] w2]; simpl in *; auto.
  rewrite keeps_h2c_handle_events. auto.
Qed.

Lemma smuggle_all_cons (E : Env) (fuel : nat) (args : Args) (url : ParseResult)
    (urls : list ParseResult) (w : World) :
  smuggle_all E fuel args (url :: urls) w =
    match sendSmuggledRequest E fuel
            (smuggled_headers args url (request_path url)) args
            (with_trace
               (trace w ++ [Print (Text ("[INFO] Requesting - " ++ request_path url))])
               w)
    with
    | (Returned _, w1) => smuggle_all E fuel args urls w1
    | (Raised e, w1) => (Raised e, w1)
    | (Running, w1) => (Running, w1)
    end.
Proof.
  unfold smuggle_all. cbn [for_each]. unfold bind at 1.
  unfold print at 1, bind at 1, log at 1. cbv beta iota zeta.
  destruct (sendSmuggledRequest E fuel _ args _) as [[[]|e|] w1]; reflexivity.
Qed.

Lemma smuggle_all_session (E : Env) (fuel : nat) (args : Args)
    (urls : list ParseResult) :
  forall w : World,
    Z.odd (next_stream_id (h2c w)) = true ->
    exists n : nat,
      n <= List.length urls /\
      (fst (smuggle_all E fuel args urls w) = Returned tt -> n = List.length urls) /\
      streams (h2c (snd (smuggle_all E fuel args urls w)))
      = streams (h2c w) ++ stream_ids (next_stream_id (h2c w)) n.
Proof.
  induction urls as [|url urls IH]; intros w Hodd.
  - exists 0. simpl. rewrite app_nil_r. auto.
  - rewrite smuggle_all_cons.
    set (w0 := with_trace _ w).
    set (hs := smuggled_headers args url (request_path url)).
    destruct (sendSmuggledRequest_session E fuel hs args w0 Hodd) as (Hn & Hs).
    destruct (sendSmuggledRequest E fuel hs args w0) as [[[]|e|] w1];
      simpl in Hn, Hs.
    + destruct (IH w1) as (n & Hle & Hret & Hst).
      { rewrite Hn, Z.odd_add, Hodd. reflexivity. }
      exists (S n). split; [simpl; lia|]. split.
      * intros H. simpl. f_equal. now apply Hret.
      * rewrite Hst, Hs, Hn, stream_ids_succ, <- app_assoc. reflexivity.
    + exists 1. split; [simpl; lia|]. split; [discriminate|].
      simpl. rewrite Hs. unfold stream_ids. simpl. now rewrite Z.add_0_r.
    + exists 1. split; [simpl; lia|]. split; [discriminate|].
      simpl. rewrite Hs. unfold stream_ids. simpl. now rewrite Z.add_0_r.
Qed.

Lemma smuggle_all_opens (E : Env) (fuel : nat) (args : Args)
    (urls : list ParseResult) :
  forall w : World,
    Z.odd (next_stream_id (h2c w)) = true ->
    let r := smuggle_all E fuel args urls w in
    let n := dispatched E fuel args urls w in
    streams (h2c (snd r))
      = streams (h2c w) ++ stream_ids (next_stream_id (h2c w)) n /\
    next_stream_id (h2c (snd r)) = (next_stream_id (h2c w) + 2 * Z.of_nat n)%Z /\
    (fst r = Returned tt -> n = List.length urls) /\
    n <= List.length urls.
Proof.
  induction urls as [|url urls IH]; intros w Hodd.
  - simpl. rewrite app_nil_r, Z.add_0_r. auto.
  - cbv zeta. rewrite smuggle_all_cons. cbn [dispatched].
    set (w0 := with_trace _ w).
    set (hs := smuggled_headers args url (request_path url)).
    destruct (sendSmuggledRequest_session E fuel hs args w0 Hodd) as (Hn & Hs).
    change (h2c w0) with (h2c w) in Hn, Hs.
    destruct (sendSmuggledRequest E fuel hs args w0) as [[[]|e|] w1];
      cbn [fst snd] in Hn, Hs |- *.
    + destruct (IH w1) as (Hst & Hnext & Hret & Hle).
      { rewrite Hn, Z.odd_add, Hodd. reflexivity. }
      cbv zeta in Hst, Hnext, Hret, Hle.
      split; [rewrite Hst, Hs, Hn, stream_ids_succ, <- app_assoc; reflexivity|].
      split; [rewrite Hnext, Hn; lia|].
      split; [intros H; simpl; f_equal; now apply Hret | simpl; lia].
    + split; [rewrite Hs; unfold stream_ids; simpl; now rewrite Z.add_0_r|].
      split; [rewrite Hn; lia|]. split; [discriminate | simpl; lia].
    + split; [rewrite Hs; unfold stream_ids; simpl; now rewrite Z.add_0_r|].
      split; [rewrite Hn; lia|]. split; [discriminate | simpl; lia].
Qed.

Lemma sorted_app (l1 l2 : list Z) :
  StronglySorted Z.lt l1 -> StronglySorted Z.lt l2 ->
  (forall x y, In x l1 -> In y l2 -> (x < y)%Z) ->
  StronglySorted Z.lt (l1 ++ l2).
Proof.
  intros H1 H2 H. induction H1 as [|x l1 Hs IH Hall]; [exact H2|].
  simpl. constructor.
  - apply IH. intros a c Ha Hc. apply H; [now right | exact Hc].
  - apply Forall_app. split; [exact Hall|].
    apply Forall_forall. intros y Hy. apply H; [now left | exact Hy].
Qed.

(** C9.  In a session whose counter stands at an odd ID above the streams
    opened so far - the first client-initiated ID, in a new session - each
    smuggled request that the loop dispatches opens one stream: after the
    loop the streams of the session are those it had, then [first],
    [first + 2], ... , one for each request dispatched (all the URLs when
    the loop completes), and the counter stands past the last of them.  The
    IDs are odd, strictly increasing, and none is used twice. *)
Theorem stream_ids_increase :
  forall (E : Env) (fuel : nat) (args : Args) (urls : list ParseResult) (w : World),
    Z.odd (next_stream_id (h2c w)) = true ->
    Forall (fun id => Z.odd id = true /\ (id < next_stream_id (h2c w))%Z)
      (streams (h2c w)) ->
    StronglySorted Z.lt (streams (h2c w)) ->
    let first := next_stream_id (h2c w) in
    let r := smuggle_all E fuel args urls w in
    let n := dispatched E fuel args urls w in
    let ids := streams (h2c (snd r)) in
    ids = streams (h2c w) ++ stream_ids first n /\
    next_stream_id (h2c (snd r)) = (first + 2 * Z.of_nat n)%Z /\
    (fst r = Returned tt -> n = List.length urls) /\
    (urls <> [] -> 1 <= n) /\
    n <= List.length urls /\
    Forall (fun id => Z.odd id = true) ids /\
    StronglySorted Z.lt ids /\
    NoDup ids.
Proof.
  intros E fuel args urls w Hodd Hold Hsorted first r n ids.
  destruct (smuggle_all_opens E fuel args urls w Hodd) as (Hst & Hnext & Hret & Hle).
  fold first r n in Hst, Hnext, Hret, Hle. fold ids in Hst.
  assert (StronglySorted Z.lt ids) as Hs.
  { rewrite Hst. apply sorted_app; [exact Hsorted | apply stream_ids_sorted|].
    intros x y Hx Hy. rewrite Forall_forall in Hold. destruct (Hold x Hx) as [_ Hlt].
    pose proof (stream_ids_above n first (first - 1) ltac:(lia)) as Habove.
    rewrite Forall_forall in Habove. specialize (Habove y Hy). fold first in Hlt. lia. }
  repeat split; auto.
  - intros Hne. subst n. destruct urls; [now contradiction Hne | simpl; lia].
  - rewrite Hst. apply Forall_app. split.
    + eapply Forall_impl; [|exact Hold]. intros id [H _]. exact H.
    + now apply stream_ids_odd.
  - now apply sorted_NoDup.
Qed.

Lemma stream_ids_increase_witness :
  let w := demo_world [Chunk (b "HDE"); Chunk (b "E"); TimedOut] Silent in
  let urls := [demo_url "http://backend/a"; demo_url "http://backend/b";
               demo_url "http://backend/c"] in
  let first := next_stream_id (h2c w) in
  let r := smuggle_all demo_env 3 (demo_args false) urls w in
  let n := dispatched demo_env 3 (demo_args false) urls w in
  let ids := streams (h2c (snd r)) in
  ids = streams (h2c w) ++ stream_ids first n /\
  next_stream_id (h2c (snd r)) = (first + 2 * Z.of_nat n)%Z /\
  (fst r = Returned tt -> n = List.length urls) /\
  (urls <> [] -> 1 <= n) /\
  n <= List.length urls /\
  Forall (fun id => Z.odd id = true) ids /\
  StronglySorted Z.lt ids /\
  NoDup ids.
Proof.
  intros w urls.
  apply (stream_ids_increase demo_env 3 (demo_args false) urls w).
  - reflexivity.
  - constructor.
  - constructor.
Defined.

Example three_requests_open_1_3_5 :
  streams (h2c (snd (smuggle_all demo_env 3 (demo_args false)
             [demo_url "http://backend/a"; demo_url "http://backend/b";
              demo_url "http://backend/c"]
             (demo_world [Chunk (b "HDE"); Chunk (b "E"); TimedOut] Silent))))
  = [1; 3; 5]%Z.
Proof. reflexivity. Qed.

(** ** The events decoded from the leftover bytes *)

Lemma feed_forget (E : Env) (h : H2Connection) (chunk : bytes) :
  feed (forget_first_events E) h chunk = feed E h chunk.
Proof. unfold feed. simpl. destruct (fed h); reflexivity. Qed.

Lemma after_feed_forget (E : Env) (chunk : bytes) (w : World) :
  after_feed (forget_first_events E) chunk w = after_feed E chunk w.
Proof. unfold after_feed. now rewrite feed_forget. Qed.

Lemma decode_forget_later (E : Env) (h : H2Connection) (chunk : bytes) :
  fed h <> [] -> decode (forget_first_events E) h chunk = decode E h chunk.
Proof. simpl. destruct (fed h); [contradiction | reflexivity]. Qed.

Lemma getData_from_forget (E : Env) (fuel : nat) :
  forall (events : list Event) (w : World),
    fed (h2c w) <> [] ->
    getData_from (forget_first_events E) fuel events w = getData_from E fuel events w.
Proof.
  induction fuel as [|fuel IH]; intros events w Hfed; [reflexivity|].
  rewrite !getData_from_step.
  destruct (next_read w) as [d| |]; try reflexivity.
  cbv zeta. rewrite after_feed_forget, decode_forget_later by exact Hfed.
  destruct (fst (decode E (h2c w) d)) as [new|]; [|reflexivity].
  destruct (ends_with_StreamEnded (events ++ new)); [reflexivity|].
  apply IH. simpl. now destruct (fed (h2c w)).
Qed.

Lemma getData_from_fed (E : Env) (fuel : nat) (events : list Event) (w : World) :
  fed (h2c w) <> [] -> fed (h2c (snd (getData_from E fuel events w))) <> [].
Proof.
  intros Hfed.
  destruct (getData_from_session E fuel events w) as (_ & _ & chunks & ->).
  now destruct (fed (h2c w)).
Qed.

Lemma sendSmuggledRequest_forget (E : Env) (fuel : nat)
    (headers : list header_tuple) (args : Args) (w : World) :
  fed (h2c w) <> [] ->
  sendSmuggledRequest (forget_first_events E) fuel headers args w
  = sendSmuggledRequest E fuel headers args w.
Proof.
  intros Hfed. rewrite !sendSmuggledRequest_spec.
  destruct (Z.odd (next_stream_id (h2c w))); [|reflexivity]. cbv zeta.
  change (after_open (forget_first_events E)) with (after_open E).
  destruct (truthy (data args)); [reflexivity|].
  unfold bind, getData. rewrite getData_from_forget by exact Hfed.
  reflexivity.
Qed.

Lemma sendSmuggledRequest_fed (E : Env) (fuel : nat)
    (headers : list header_tuple) (args : Args) (w : World) :
  fed (h2c w) <> [] ->
  fed (h2c (snd (sendSmuggledRequest E fuel headers args w))) <> [].
Proof.
  intros Hfed. rewrite sendSmuggledRequest_spec.
  destruct (Z.odd (next_stream_id (h2c w))); [|exact Hfed]. cbv zeta.
  destruct (truthy (data args)); [exact Hfed|].
  unfold bind, getData.
  pose proof (getData_from_fed E fuel []
                (after_open E headers (is_None (data args)) w) Hfed) as H.
  destruct (getData_from E fuel [] _) as [[events|e|] w2]; simpl in *; auto.
  now rewrite keeps_h2c_handle_events.
Qed.

Lemma smuggle_all_forget (E : Env) (fuel : nat) (args : Args)
    (urls : list ParseResult) :
  forall w : World,
    fed (h2c w) <> [] ->
    smuggle_all (forget_first_events E) fuel args urls w
    = smuggle_all E fuel args urls w.
Proof.
  induction urls as [|url urls IH]; intros w Hfed; [reflexivity|].
  rewrite !smuggle_all_cons.
  set (w0 := with_trace _ w).
  assert (fed (h2c w0) <> []) as Hfed0 by exact Hfed.
  rewrite sendSmuggledRequest_forget by exact Hfed0.
  pose proof (sendSmuggledRequest_fed E fuel
                (smuggled_headers args url (request_path url)) args w0 Hfed0) as H.
  destruct (sendSmuggledRequest E fuel _ args w0) as [[[]|e|] w1];
    try reflexivity.
  apply IH. exact H.
Qed.

Lemma bind_cong {A B} (m1 m2 : M A) (k1 k2 : A -> M B) (w : World) :
  m1 w = m2 w ->
  (forall a w', m2 w = (Returned a, w') -> k1 a w' = k2 a w') ->
  bind m1 k1 w = bind m2 k2 w.
Proof.
  intros Hm H. unfold bind. rewrite Hm. destruct (m2 w) as [[a|e|] w']; auto.
Qed.

Lemma main_exchanges_forget (E : Env) (fuel : nat) (args : Args) (w : World) :
  fed (h2c w) <> [] ->
  main_exchanges (forget_first_events E) fuel args w = main_exchanges E fuel args w.
Proof.
  intros Hfed. unfold main_exchanges, getData.
  apply bind_cong; [now apply getData_from_forget|]. intros events w1 Hrun.
  assert (fed (h2c w1) <> []) as Hfed1.
  { pose proof (getData_from_fed E fuel [] w Hfed) as H.
    now rewrite Hrun in H. }
  apply bind_cong; [reflexivity|]. intros [] w2 Hsend.
  assert (fed (h2c w2) <> []) as Hfed2.
  { unfold data_to_send, sendall, bind, get_h2, set_h2, log in Hsend.
    simpl in Hsend. injection Hsend as <-. exact Hfed1. }
  apply bind_cong; [reflexivity|]. intros [] w3 Hhandle.
  assert (fed (h2c w3) <> []) as Hfed3.
  { pose proof (keeps_h2c_handle_events events (verbose args) w2) as H.
    rewrite Hhandle in H. simpl in H. now rewrite H. }
  change (target_urls (forget_first_events E)) with (target_urls E).
  apply bind_cong; [reflexivity|]. intros urls w4 Hurls.
  assert (w4 = w3) as ->.
  { unfold target_urls in Hurls.
    destruct (truthy (wordlist args)), (wordlist args) as [file|];
      try destruct (readlines E file); now inversion Hurls. }
  apply bind_cong; [now apply smuggle_all_forget|]. reflexivity.
Qed.

Lemma keeps_h2c_returned {A} (m : M A) (w w' : World) (r : outcome A) :
  keeps_h2c m -> m w = (r, w') -> h2c w' = h2c w.
Proof. intros Hm H. specialize (Hm w). now rewrite H in Hm. Qed.

Lemma keeps_h2c_recv (n : N) : keeps_h2c (recv n).
Proof.
  intros w. rewrite recv_spec. unfold after_read.
  destruct (next_read w); reflexivity.
Qed.

Lemma keeps_h2c_recv_headers (fuel : nat) :
  forall data, keeps_h2c (recv_headers fuel data).
Proof.
  induction fuel as [|fuel IH]; intros data; simpl.
  - destruct (contains CRLFCRLF data); intros w; reflexivity.
  - destruct (contains CRLFCRLF data); [apply keeps_h2c_ret|].
    apply keeps_h2c_bind; [apply keeps_h2c_recv | intros chunk; apply IH].
Qed.

Lemma keeps_h2c_get_upgrade_response (fuel : nat) (proxy_url : ParseResult) :
  keeps_h2c (get_upgrade_response fuel proxy_url).
Proof.
  unfold get_upgrade_response, print.
  apply keeps_h2c_bind; [apply keeps_h2c_recv_headers|]. intros data.
  keeps_h2c_auto.
Qed.

Lemma keeps_h2c_send_initial_request (U : bool) (proxy_url : ParseResult)
    (settings : bytes) :
  keeps_h2c (send_initial_request U proxy_url settings).
Proof. unfold send_initial_request, sendall. keeps_h2c_auto. Qed.

Lemma main_tunnel_forget (E : Env) (fuel : nat) (args : Args)
    (extra_data : option bytes) (w : World) :
  fed (h2c w) = [] ->
  main_tunnel (forget_first_events E) fuel args extra_data w
  = main_tunnel E fuel args extra_data w.
Proof.
  intros Hfed. unfold main_tunnel.
  apply bind_cong; [reflexivity|]. intros [] w1 Hsend.
  assert (fed (h2c w1) = []) as Hfed1.
  { unfold data_to_send, sendall, bind, get_h2, set_h2, log in Hsend.
    simpl in Hsend. injection Hsend as <-. exact Hfed. }
  destruct extra_data as [rest|]; [|reflexivity].
  unfold bind. rewrite !receive_data_spec, after_feed_forget.
  simpl decode. rewrite Hfed1. simpl fst.
  destruct (fst (decode E (h2c w1) rest)) as [events|]; [|reflexivity].
  apply main_exchanges_forget. simpl. rewrite Hfed1. discriminate.
Qed.

(** C10.  What the decoder reports for the leftover bytes plays no role in
    [main]: the leftover is the first chunk that the session is fed, and
    [main] behaves the same - same outcome, same output, same traffic, same
    final world - when the decoder reports no event at all for that chunk.
    The events decoded from the leftover bytes therefore never reach
    [handle_events], and nothing is printed for them. *)
Theorem main_ignores_leftover_events :
  forall (E : Env) (U : bool) (fuel : nat) (args : Args) (w : World),
    main (forget_first_events E) U fuel args w = main E U fuel args w.
Proof.
  intros E U fuel args w. rewrite !main_parts.
  change (main_handshake (forget_first_events E)) with (main_handshake E).
  unfold main_handshake.
  apply bind_cong; [reflexivity|]. intros [] w1 _.
  apply bind_cong; [reflexivity|]. intros [] w2 _.
  apply bind_cong; [reflexivity|]. intros [] w3 H3.
  assert (fed (h2c w3) = []) as Hfed3.
  { unfold set_h2 in H3. injection H3 as <-. reflexivity. }
  apply bind_cong; [reflexivity|]. intros settings w4 H4.
  assert (fed (h2c w4) = []) as Hfed4.
  { unfold initiate_upgrade_connection, bind, get_h2, set_h2 in H4.
    simpl in H4. injection H4 as _ <-. exact Hfed3. }
  apply bind_cong; [reflexivity|]. intros [] w5 H5.
  apply (keeps_h2c_returned _ _ _ _ (keeps_h2c_send_initial_request _ _ _)) in H5.
  apply bind_cong; [reflexivity|]. intros [extra_data success] w6 H6.
  apply (keeps_h2c_returned _ _ _ _ (keeps_h2c_get_upgrade_response _ _)) in H6.
  apply bind_cong; [reflexivity|]. intros [] w7 H7.
  assert (h2c w7 = h2c w6) as Hw7.
  { destruct success; simpl in H7; [now injection H7 as <- | discriminate]. }
  apply bind_cong; [reflexivity|]. intros [] w8 H8.
  assert (h2c w8 = h2c w7) as Hw8 by (injection H8 as <-; reflexivity).
  apply bind_cong; [reflexivity|]. intros [] w9 H9.
  assert (h2c w9 = h2c w8) as Hw9.
  { destruct (test args); [discriminate | now injection H9 as <-]. }
  apply main_tunnel_forget. congruence.
Qed.

(** A response that arrives whole with the upgrade response is decoded and
    dropped: nothing of it is printed. *)
Example leftover_response_is_not_reported :
  let w := demo_world [Chunk (b "HTTP/1.1 101 Switching Protocols" ++ CRLFCRLF
                              ++ b "HDE")] Silent in
  fst (decode demo_env (h2c w) (b "HDE"))
    = Some [ResponseReceived 1 [(b ":status", b "200")];
            DataReceived 1 (b "hello"); StreamEnded 1] /\
  filter (fun x => match x with Print _ => true | _ => false end)
    (trace (snd (main demo_env false 2 (demo_args false) w)))
  = [Print (Text "[INFO] h2c stream established successfully.");
     Print (Text "[INFO] Requesting - /")].
Proof. split; reflexivity. Qed.

(** * Further properties of the script *)

(** ** [get_upgrade_response] *)

(** X1.  The upgrade is decided by the second whitespace-separated token of
    the whole header block, whatever line it stands on: [IndexError] when the
    block has fewer than two tokens, success when the token is [101], refusal
    otherwise. *)
Theorem get_upgrade_response_second_token :
  forall (fuel : nat) (proxy_url : ParseResult) (w : World)
         (chunks : list bytes) (later : list recv_outcome) (headers rest : bytes),
    inbox w = map Chunk chunks ++ later ->
    marker_arrives [] chunks = true ->
    split_once CRLFCRLF (List.concat chunks) = Some (headers, rest) ->
    List.length chunks <= fuel ->
    fst (get_upgrade_response fuel proxy_url w) =
      match nth_error (split_ws headers) 1 with
      | None => Raised IndexError
      | Some code =>
          Returned (if bytes_eqb code (b "101") then (Some rest, true)
                    else (None, false))
      end.
Proof.
  intros fuel proxy_url w chunks later headers rest Hin Harr Hsplit Hfuel.
  unfold get_upgrade_response, bind at 1.
  rewrite (recv_headers_arrives chunks [] _ _ _ Hin Harr Hfuel).
  cbv beta iota. rewrite app_nil_l, Hsplit. cbv beta iota zeta.
  destruct (nth_error (split_ws headers) 1) as [code|]; [|reflexivity].
  destruct (bytes_eqb code (b "101")); reflexivity.
Qed.

Lemma get_upgrade_response_second_token_witness :
  fst (get_upgrade_response 1 (demo_url "http://proxy.test")
         (demo_world [Chunk (b "HTTP/1.1" ++ CRLF ++ b "101" ++ CRLFCRLF ++ b "S")]
            Silent))
  = Returned (Some (b "S"), true).
Proof.
  apply (get_upgrade_response_second_token 1 (demo_url "http://proxy.test") _
           [b "HTTP/1.1" ++ CRLF ++ b "101" ++ CRLFCRLF ++ b "S"] []
           (b "HTTP/1.1" ++ CRLF ++ b "101") (b "S"));
    first [reflexivity | simpl; lia].
Defined.

Lemma recv_headers_read_fails (chunks : list bytes) :
  forall (data : bytes) (fuel : nat) (w : World) (r : recv_outcome) (e : exn)
         (later : list recv_outcome),
    inbox w = map Chunk chunks ++ r :: later ->
    read_error r = Some e ->
    contains CRLFCRLF (data ++ List.concat chunks) = false ->
    List.length chunks < fuel ->
    recv_headers fuel data w =
      (Raised e, with_trace (trace w ++ reads chunks ++ [Recv r]) (with_inbox later w)).
Proof.
  induction chunks as [|c chunks IH]; intros data fuel w r e later Hin Hr Hno Hfuel;
    (destruct fuel as [|fuel]; [simpl in Hfuel; lia|]);
    simpl; rewrite (contains_app_false _ _ _ Hno);
    unfold bind at 1; rewrite (recv_next _ _ _ _ Hin).
  - destruct r; simpl in Hr; try discriminate; injection Hr as <-; reflexivity.
  - simpl. rewrite (IH (data ++ c) fuel _ r e later); simpl; auto; try lia.
    + rewrite <- !app_assoc. reflexivity.
    + simpl in Hno. now rewrite <- app_assoc.
    + simpl in Hfuel. lia.
Qed.

(** X2.  A read that times out or fails before the end-of-headers marker has
    arrived ends [get_upgrade_response] with that exception; the bytes
    received so far are given up and nothing more is read. *)
Theorem get_upgrade_response_read_fails :
  forall (fuel : nat) (proxy_url : ParseResult) (w : World)
         (chunks : list bytes) (r : recv_outcome) (e : exn)
         (later : list recv_outcome),
    inbox w = map Chunk chunks ++ r :: later ->
    read_error r = Some e ->
    contains CRLFCRLF (List.concat chunks) = false ->
    List.length chunks < fuel ->
    get_upgrade_response fuel proxy_url w =
      (Raised e, with_trace (trace w ++ reads chunks ++ [Recv r]) (with_inbox later w)).
Proof.
  intros fuel proxy_url w chunks r e later Hin Hr Hno Hfuel.
  unfold get_upgrade_response, bind at 1.
  rewrite (recv_headers_read_fails chunks [] fuel w r e later); auto.
Qed.

Lemma get_upgrade_response_read_fails_witness :
  get_upgrade_response 2 (demo_url "http://proxy.test")
    (demo_world [Chunk (b "HTTP/1.1 101 Switching Protocols" ++ CRLF); Failed;
                 Chunk CRLF] Silent)
  = (Raised SocketError,
     with_trace
       (trace (demo_world [] Silent)
        ++ reads [b "HTTP/1.1 101 Switching Protocols" ++ CRLF] ++ [Recv Failed])
       (demo_world [Chunk CRLF] Silent)).
Proof.
  apply (get_upgrade_response_read_fails 2 (demo_url "http://proxy.test")
           (demo_world [Chunk (b "HTTP/1.1 101 Switching Protocols" ++ CRLF); Failed;
                        Chunk CRLF] Silent)
           [b "HTTP/1.1 101 Switching Protocols" ++ CRLF] Failed SocketError
           [Chunk CRLF]);
    first [reflexivity | simpl; lia].
Defined.

Lemma contains_decompose (sep s : bytes) :
  contains sep s = true -> exists before after, s = before ++ sep ++ after.
Proof.
  intros H. destruct (contains_split_once sep s H) as (a & r & Hs).
  exists a, r. now apply split_once_sound.
Qed.

(** X3.  The split of line 84 cuts the received bytes at the marker in such a
    way that the header block holds no marker of its own: the received bytes
    are the header block, the marker and the leftover, and the marker does
    not occur in the header block. *)
Theorem split_once_header_block :
  forall (data headers rest : bytes),
    split_once CRLFCRLF data = Some (headers, rest) ->
    data = headers ++ CRLFCRLF ++ rest /\
    contains CRLFCRLF headers = false.
Proof.
  intros data headers rest Hs. split; [now apply split_once_sound|].
  destruct (contains CRLFCRLF headers) eqn:Hc; [|reflexivity].
  destruct (contains_decompose _ _ Hc) as (a & r & Ha).
  pose proof (split_once_first CRLFCRLF data headers rest a
                (r ++ CRLFCRLF ++ rest) Hs) as Hlen.
  rewrite (split_once_sound _ _ _ _ Hs) in Hlen at 1.
  assert (List.length headers <= List.length a) as Hle.
  { apply Hlen. rewrite Ha, <- !app_assoc. reflexivity. }
  rewrite Ha in Hle. rewrite !length_app in Hle. simpl in Hle. lia.
Qed.

Lemma split_once_header_block_witness :
  b "HTTP/1.1 101 OK" ++ CRLFCRLF ++ b "x" ++ CRLFCRLF
  = b "HTTP/1.1 101 OK" ++ CRLFCRLF ++ (b "x" ++ CRLFCRLF) /\
  contains CRLFCRLF (b "HTTP/1.1 101 OK") = false.
Proof.
  apply (split_once_header_block
           (b "HTTP/1.1 101 OK" ++ CRLFCRLF ++ b "x" ++ CRLFCRLF)
           (b "HTTP/1.1 101 OK") (b "x" ++ CRLFCRLF)).
  reflexivity.
Defined.

(** ** [getData] *)

Lemma getData_from_no_timeout (E : Env) (fuel : nat) :
  forall (events : list Event) (w : World),
    fst (getData_from E fuel events w) <> Raised SocketTimeout.
Proof.
  induction fuel as [|fuel IH]; intros events w; [discriminate|].
  rewrite getData_from_step.
  destruct (next_read w) as [d| |]; try discriminate.
  cbv zeta. destruct (fst (decode E (h2c w) d)) as [new|]; [|discriminate].
  destruct (ends_with_StreamEnded (events ++ new)); [discriminate|].
  apply IH.
Qed.

(** X4.  [getData] never raises [socket.timeout]: a read that times out ends
    the drain, and the events gathered so far are returned.  The only
    exceptions that leave it are the other socket errors and the decoder's
    protocol errors, and these lose the events gathered so far. *)
Theorem getData_swallows_timeout :
  forall (E : Env) (fuel : nat) (w : World),
    fst (getData E fuel w) <> Raised SocketTimeout /\
    (forall e w', getData E fuel w = (Raised e, w') ->
       e = SocketError \/ e = ProtocolError) /\
    (forall (chunks : list bytes) (script : list recv_outcome),
       inbox w = map Chunk chunks ++ script ->
       decodes E (h2c w) chunks = true ->
       (forall k, k <= List.length chunks ->
          ends_with_StreamEnded
            (decoded_events E (h2c w) (relayed (firstn k chunks))) = false) ->
       next_read (with_inbox script w) = TimedOut ->
       List.length chunks < fuel ->
       fst (getData E fuel w) =
         Returned (decoded_events E (h2c w) (relayed chunks))).
Proof.
  intros E fuel w. split; [apply getData_from_no_timeout|]. split.
  - unfold getData. generalize (@nil Event) as events. revert w.
    induction fuel as [|fuel IH]; intros w events e w' H; [discriminate|].
    rewrite getData_from_step in H.
    destruct (next_read w) as [d| |]; try discriminate.
    + cbv zeta in H. destruct (fst (decode E (h2c w) d)) as [new|].
      * destruct (ends_with_StreamEnded (events ++ new)); [discriminate|].
        now apply (IH _ _ _ _ H).
      * injection H as <- _. auto.
    + injection H as <- _. auto.
  - intros chunks script Hin Hdec Hpre Hnext Hfuel.
    assert (ends_with_StreamEnded
              (decoded_events E (h2c w) (relayed chunks)) = false) as Hend.
    { specialize (Hpre (List.length chunks) (le_n _)).
      now rewrite firstn_all in Hpre. }
    destruct (getData_from_drains E chunks [] fuel w script Hin Hdec)
      as (w' & Hrun & _).
    + intros k Hk. apply Hpre. lia.
    + exact Hfuel.
    + right. split; [exact Hend | exact Hnext].
    + unfold getData. rewrite Hrun. reflexivity.
Qed.

Lemma getData_swallows_timeout_witness :
  fst (getData demo_env 3 (demo_world [Chunk (b "H"); Failed] Silent))
    <> Raised SocketTimeout /\
  (SocketError = SocketError \/ SocketError = ProtocolError) /\
  fst (getData demo_env 3 (demo_world [Chunk (b "H"); TimedOut] Silent)) =
    Returned (decoded_events demo_env
                (h2c (demo_world [Chunk (b "H"); TimedOut] Silent))
                (relayed [b "H"])).
Proof.
  destruct (getData_swallows_timeout demo_env 3
              (demo_world [Chunk (b "H"); Failed] Silent)) as (H1 & H2 & _).
  destruct (getData_swallows_timeout demo_env 3
              (demo_world [Chunk (b "H"); TimedOut] Silent)) as (_ & _ & H3).
  split; [exact H1|]. split.
  - apply (H2 SocketError (snd (getData demo_env 3
                                  (demo_world [Chunk (b "H"); Failed] Silent)))).
    reflexivity.
  - apply (H3 [b "H"] [TimedOut]).
    + reflexivity.
    + reflexivity.
    + intros k Hk. destruct k as [|[|k]];
        [reflexivity | reflexivity | simpl in Hk; lia].
    + reflexivity.
    + simpl. lia.
Defined.

(** X5.  However it ends, [getData] does nothing but read the socket and feed
    the decoder, and it gives the decoder every chunk that it reads, once
    and in the order received: none is lost, none is given twice. *)
Theorem getData_feeds_what_it_reads :
  forall (E : Env) (fuel : nat) (w : World),
    exists t : list io,
      trace (snd (getData E fuel w)) = trace w ++ t /\
      Forall is_read_or_feed t /\
      chunks_fed t = chunks_read t /\
      fed (h2c (snd (getData E fuel w))) = fed (h2c w) ++ chunks_read t.
Proof. intros E fuel w. apply getData_from_feeds_reads. Qed.

(** ** [handle_response] and [handle_events] *)

Lemma is_ascii_utf8_valid (s : bytes) : is_ascii s = true -> utf8_valid s = true.
Proof.
  induction s as [|c s IH]; [reflexivity|].
  simpl. intros H. apply andb_true_iff in H as [Hc Hs].
  rewrite Hc. now apply IH.
Qed.

Lemma decode_utf8_valid (s : bytes) :
  utf8_valid s = true -> decode_utf8 s = Some (string_of_list_byte s).
Proof. unfold decode_utf8. now intros ->. Qed.

Lemma decode_utf8_invalid (s : bytes) :
  utf8_valid s = false -> decode_utf8 s = None.
Proof. unfold decode_utf8. now intros ->. Qed.

(** The loop of [handle_response] over headers that decode. *)
Lemma print_headers_decodable (headers : list (bytes * bytes)) :
  forall (k : unit -> M unit) (w : World),
    forallb decodable headers = true ->
    bind (for_each headers (fun '(name, value) =>
            match decode_utf8 name with
            | None => raise UnicodeDecodeError
            | Some n =>
                match decode_utf8 value with
                | None => raise UnicodeDecodeError
                | Some v => print (Text (n ++ ": " ++ v))
                end
            end)) k w
    = k tt (with_trace (trace w ++ map header_line headers) w).
Proof.
  induction headers as [|[name value] headers IH]; intros k w H.
  - simpl. unfold bind, ret. destruct w; unfold with_trace; simpl.
    now rewrite app_nil_r.
  - simpl in H. apply andb_true_iff in H as [Hd H].
    unfold decodable in Hd. simpl in Hd. apply andb_true_iff in Hd as [Hn Hv].
    cbn [for_each].
    rewrite (decode_utf8_valid _ Hn), (decode_utf8_valid _ Hv).
    unfold bind at 1. unfold bind at 1, print at 1, log at 1. cbv beta iota.
    change (fun _ : unit => ?f) with (fun _ : unit => f).
    match goal with
    | |- (let (o, w') := ?m ?W in _) = _ =>
        change (bind m k W = k tt (with_trace (trace w ++ map header_line ((name, value) :: headers)) w))
    end.
    rewrite IH by exact H. simpl. unfold header_line at 2. simpl.
    rewrite <- app_assoc. reflexivity.
Qed.

Lemma bind_ret_inv {A} (m : M A) (w w1 : World) (a : A) :
  bind m ret w = (Returned a, w1) -> m w = (Returned a, w1).
Proof.
  unfold bind, ret. destruct (m w) as [[x|e|] w']; intros H; now inversion H.
Qed.

(** X6.  Response headers that are plain ASCII are always printed: one line
    [name: value] per header, in order, then an empty line, and
    [handle_response] returns. *)
Theorem handle_response_prints_ascii_headers :
  forall (headers : list (bytes * bytes)) (stream_id : Z) (w : World),
    forallb (fun h => is_ascii (fst h) && is_ascii (snd h)) headers = true ->
    handle_response headers stream_id w =
      (Returned tt,
       with_trace (trace w ++ map header_line headers ++ [Print (Text EmptyString)]) w).
Proof.
  intros headers stream_id w H.
  assert (forallb decodable headers = true) as Hd.
  { apply forallb_forall. intros h Hh.
    rewrite forallb_forall in H. specialize (H h Hh).
    apply andb_true_iff in H as [H1 H2]. unfold decodable.
    now rewrite !is_ascii_utf8_valid. }
  unfold handle_response. rewrite print_headers_decodable by exact Hd.
  unfold print, log. simpl. rewrite <- app_assoc. reflexivity.
Qed.

Lemma handle_response_prints_ascii_headers_witness :
  handle_response [(b ":status", b "200"); (b "server", b "nginx")] 1
    (demo_world [] Silent)
  = (Returned tt,
     with_trace
       (trace (demo_world [] Silent)
        ++ map header_line [(b ":status", b "200"); (b "server", b "nginx")]
        ++ [Print (Text EmptyString)])
       (demo_world [] Silent)).
Proof.
  apply (handle_response_prints_ascii_headers
           [(b ":status", b "200"); (b "server", b "nginx")] 1 (demo_world [] Silent)).
  reflexivity.
Defined.

Lemma handle_response_stops_at_undecodable :
  forall (before after : list (bytes * bytes)) (bad : bytes * bytes)
         (stream_id : Z) (w : World),
    forallb decodable before = true ->
    decodable bad = false ->
    handle_response (before ++ bad :: after) stream_id w =
      (Raised UnicodeDecodeError,
       with_trace (trace w ++ map header_line before) w).
Proof.
  intros before after [name value] stream_id w Hb Hbad.
  unfold handle_response, bind at 1. rewrite for_each_app.
  pose proof (print_headers_decodable before ret w Hb) as H.
  apply bind_ret_inv in H. rewrite H. cbn [for_each]. unfold bind at 1.
  unfold decodable in Hbad. simpl in Hbad.
  destruct (utf8_valid name) eqn:Hn.
  - simpl in Hbad. rewrite (decode_utf8_valid _ Hn), (decode_utf8_invalid _ Hbad).
    reflexivity.
  - rewrite (decode_utf8_invalid _ Hn). reflexivity.
Qed.

(** X7.  A header whose name or value is not valid UTF-8 makes
    [handle_response] raise [UnicodeDecodeError]: the headers before it have
    been printed, the header itself, those after it and the closing empty
    line are not. *)
Theorem handle_response_undecodable_header :
  forall (before after : list (bytes * bytes)) (bad : bytes * bytes)
         (stream_id : Z) (w : World),
    forallb decodable before = true ->
    decodable bad = false ->
    handle_response (before ++ bad :: after) stream_id w =
      (Raised UnicodeDecodeError,
       with_trace (trace w ++ map header_line before) w).
Proof.
  intros before after bad stream_id w Hb Hbad.
  now apply handle_response_stops_at_undecodable.
Qed.

Lemma handle_response_undecodable_header_witness :
  handle_response ([(b ":status", b "200")] ++ (b "x-a", [xff]) :: [(b "x-b", b "c")]) 1
    (demo_world [] Silent)
  = (Raised UnicodeDecodeError,
     with_trace
       (trace (demo_world [] Silent) ++ map header_line [(b ":status", b "200")])
       (demo_world [] Silent)).
Proof.
  apply (handle_response_undecodable_header [(b ":status", b "200")]
           [(b "x-b", b "c")] (b "x-a", [xff]) 1 (demo_world [] Silent));
    reflexivity.
Defined.

Lemma handle_response_outcome (headers : list (bytes * bytes)) (stream_id : Z)
    (w : World) :
  fst (handle_response headers stream_id w) =
    if forallb decodable headers then Returned tt else Raised UnicodeDecodeError.
Proof.
  destruct (forallb decodable headers) eqn:Hd.
  - unfold handle_response. rewrite print_headers_decodable by exact Hd.
    reflexivity.
  - assert (exists before bad after,
              headers = before ++ bad :: after /\
              forallb decodable before = true /\ decodable bad = false)
      as (before & bad & after & -> & Hb & Hbad).
    { clear stream_id w. induction headers as [|h headers IH]; [discriminate|].
      simpl in Hd. destruct (decodable h) eqn:Hh.
      - simpl in Hd. destruct (IH Hd) as (before & bad & after & -> & Hb & Hbad).
        exists (h :: before), bad, after. simpl. rewrite Hh. auto.
      - exists [], h, headers. auto. }
    now rewrite handle_response_stops_at_undecodable.
Qed.

Lemma handle_event_outcome (v : bool) (e : Event) (w : World) :
  fst (handle_event v e w) <> Running /\
  (fst (handle_event v e w) = Returned tt <-> handled e = true).
Proof.
  destruct e as [sid headers|sid d|sid code|sid|info]; simpl.
  - rewrite handle_response_outcome.
    destruct (forallb decodable headers); split; try discriminate;
      split; congruence.
  - split; [discriminate|]. split; reflexivity.
  - split; [discriminate|]. split; discriminate.
  - destruct v; split; try discriminate; split; reflexivity.
  - destruct v; split; try discriminate; split; reflexivity.
Qed.

Lemma handle_events_outcome :
  forall (events : list Event) (isVerbose : bool) (w : World),
    fst (handle_events events isVerbose w) <> Running /\
    (fst (handle_events events isVerbose w) = Returned tt <->
     forallb handled events = true).
Proof.
  intros events v. unfold handle_events.
  induction events as [|e events IH]; intros w.
  - simpl. split; [discriminate|]. split; reflexivity.
  - cbn [for_each forallb]. unfold bind.
    destruct (handle_event_outcome v e w) as [Hrun Hret].
    destruct (handle_event v e w) as [[[]|x|] w1]; simpl in *.
    + rewrite (proj1 Hret eq_refl). simpl. apply IH.
    + split; [discriminate|]. split; [discriminate|].
      intros H. apply andb_true_iff in H as [H _]. apply Hret in H. discriminate.
    + now contradiction Hrun.
Qed.

(** X8.  [handle_events] comes to an end on every list, and it returns
    normally exactly when the list holds no [StreamReset] and every response
    header in it is valid UTF-8; the bytes of a [DataReceived] event never
    matter. *)
Theorem handle_events_returns_iff :
  forall (events : list Event) (isVerbose : bool) (w : World),
    fst (handle_events events isVerbose w) <> Running /\
    (fst (handle_events events isVerbose w) = Returned tt <->
     forallb handled events = true).
Proof.
  intros events isVerbose w. apply handle_events_outcome.
Qed.

Lemma handle_events_returns_iff_witness :
  let events := [ResponseReceived 1 [(b ":status", b "200")];
                 DataReceived 1 [xff; xfe]; StreamEnded 1] in
  fst (handle_events events true (demo_world [] Silent)) <> Running /\
  (fst (handle_events events true (demo_world [] Silent)) = Returned tt <->
   forallb handled events = true).
Proof.
  intros events.
  apply (handle_events_returns_iff events true (demo_world [] Silent)).
Defined.

(** X9.  [handle_events] fails at the first [StreamReset] that it reaches:
    when the events before it hold no reset and only headers that decode,
    the error carries the code of that reset, the output is that of the
    events before it, and the events after it are never looked at. *)
Theorem handle_events_first_reset :
  forall (before after : list Event) (sid code : Z) (isVerbose : bool) (w : World),
    forallb handled before = true ->
    handle_events (before ++ StreamReset sid code :: after) isVerbose w =
      (Raised (RuntimeError ("stream reset: " ++ format_d code)),
       snd (handle_events before isVerbose w)).
Proof.
  intros before after sid code v w H.
  apply handle_events_stops_at_reset.
  apply (handle_events_outcome before v w) in H.
  destruct (handle_events before v w) as [[[]|e|] w1]; simpl in H;
    try discriminate. reflexivity.
Qed.

Lemma handle_events_first_reset_witness :
  handle_events ([DataReceived 1 (b "partial")] ++ StreamReset 1 8
                   :: [DataReceived 1 (b "never shown"); StreamReset 1 2])
    false (demo_world [] Silent)
  = (Raised (RuntimeError ("stream reset: " ++ format_d 8)),
     snd (handle_events [DataReceived 1 (b "partial")] false (demo_world [] Silent))).
Proof.
  apply (handle_events_first_reset [DataReceived 1 (b "partial")]
           [DataReceived 1 (b "never shown"); StreamReset 1 2] 1 8 false
           (demo_world [] Silent)).
  reflexivity.
Defined.

(** X10.  When it is not verbose, [handle_events] passes over the events
    that are neither a response, nor data, nor a reset ([StreamEnded],
    settings, window updates ...): removing them from the list changes
    neither the outcome nor the output. *)
Theorem handle_events_quiet_ignores_others :
  forall (events : list Event) (w : World),
    handle_events events false w = handle_events (filter reported events) false w.
Proof.
  intros events. unfold handle_events.
  induction events as [|e events IH]; intros w; [reflexivity|].
  destruct e as [sid headers|sid d|sid code|sid|info];
    cbn [filter reported for_each]; unfold bind.
  - destruct (handle_event false (ResponseReceived sid headers) w)
      as [[[]|x|] w1]; auto.
  - destruct (handle_event false (DataReceived sid d) w) as [[[]|x|] w1]; auto.
  - reflexivity.
  - apply IH.
  - apply IH.
Qed.

(** ** [sendSmuggledRequest] and the loop over the URLs *)

(** X11.  A request with a body cannot be sent: [sendData] is defined
    nowhere, so once the HEADERS frame has been written, without the
    end-of-stream flag, [sendSmuggledRequest] raises [NameError]; the body is
    not sent and no response is read. *)
Theorem sendSmuggledRequest_with_body :
  forall (E : Env) (fuel : nat) (headers : list header_tuple) (args : Args)
         (w : World) (body : string),
    data args = Some body -> body <> EmptyString ->
    Z.odd (next_stream_id (h2c w)) = true ->
    sendSmuggledRequest E fuel headers args w =
      (Raised (NameError "sendData"), after_open E headers false w).
Proof.
  intros E fuel headers args w body Hdata Hbody Hodd.
  rewrite sendSmuggledRequest_spec, Hodd, Hdata. cbv zeta. simpl.
  apply String.eqb_neq in Hbody. rewrite Hbody. reflexivity.
Qed.

Lemma sendSmuggledRequest_with_body_witness :
  let args := {| proxy := "http://proxy.test"; wordlist := None; request := "POST";
                 data := Some "a=1"%string; header := None; test := false;
                 verbose := false; url := "http://backend/" |} in
  sendSmuggledRequest demo_env 5 [] args (demo_world [Chunk (b "HDE")] Silent) =
    (Raised (NameError "sendData"),
     after_open demo_env [] false (demo_world [Chunk (b "HDE")] Silent)).
Proof.
  intros args.
  apply (sendSmuggledRequest_with_body demo_env 5 [] args
           (demo_world [Chunk (b "HDE")] Silent) "a=1"%string);
    first [reflexivity | discriminate].
Defined.

(** X12.  An empty body ([-d ''], which is not [None] but is false) opens the
    stream without the end-of-stream flag and sends nothing after the
    HEADERS frame: the dispatch goes on to drain a request that it never
    completes. *)
Theorem sendSmuggledRequest_with_empty_body :
  forall (E : Env) (fuel : nat) (headers : list header_tuple) (args : Args)
         (w : World),
    data args = Some EmptyString ->
    Z.odd (next_stream_id (h2c w)) = true ->
    sendSmuggledRequest E fuel headers args w =
      (events <- getData E fuel ;; handle_events events (verbose args))
        (after_open E headers false w).
Proof.
  intros E fuel headers args w Hdata Hodd.
  rewrite sendSmuggledRequest_spec, Hodd, Hdata. reflexivity.
Qed.

Lemma sendSmuggledRequest_with_empty_body_witness :
  let args := {| proxy := "http://proxy.test"; wordlist := None; request := "POST";
                 data := Some EmptyString; header := None; test := false;
                 verbose := false; url := "http://backend/" |} in
  sendSmuggledRequest demo_env 5 [] args (demo_world [] Silent) =
    (events <- getData demo_env 5 ;; handle_events events (verbose args))
      (after_open demo_env [] false (demo_world [] Silent)).
Proof.
  intros args.
  apply (sendSmuggledRequest_with_empty_body demo_env 5 [] args (demo_world [] Silent));
    reflexivity.
Defined.

Lemma appends_print_handle_events (events : list Event) (v : bool) :
  appends is_print (handle_events events v).
Proof. apply appends_handle_events. intros l. exact I. Qed.

(** X13.  A dispatch writes to the socket once - the pending frames and the
    HEADERS frame of the request - then only reads and feeds the decoder,
    then only prints: it never writes again, and it neither shuts down nor
    closes the connection. *)
Theorem sendSmuggledRequest_writes_once :
  forall (E : Env) (fuel : nat) (headers : list header_tuple) (args : Args)
         (w : World),
    Z.odd (next_stream_id (h2c w)) = true ->
    exists (drained printed : list io),
      trace (snd (sendSmuggledRequest E fuel headers args w)) =
        trace w
        ++ [Sendall (outbuf (h2c w)
                     ++ encode_headers E (next_stream_id (h2c w)) headers
                          (is_None (data args)))]
        ++ drained ++ printed /\
      Forall is_read_or_feed drained /\
      Forall is_print printed.
Proof.
  intros E fuel headers args w Hodd.
  rewrite sendSmuggledRequest_spec, Hodd. cbv zeta.
  set (w1 := after_open E headers (is_None (data args)) w).
  assert (trace w1 = trace w
                     ++ [Sendall (outbuf (h2c w)
                                  ++ encode_headers E (next_stream_id (h2c w)) headers
                                       (is_None (data args)))]) as Hw1 by reflexivity.
  destruct (truthy (data args)).
  - exists [], []. cbn [snd app]. rewrite Hw1. auto.
  - unfold bind, getData.
    destruct (getData_from_feeds_reads E fuel [] w1) as (td & Htd & HPd & _ & _).
    destruct (getData_from E fuel [] w1) as [[events|e|] w2]; cbn [snd] in Htd.
    + destruct (appends_print_handle_events events (verbose args) w2)
        as (tp & Htp & HPp & _).
      exists td, tp. cbn [snd]. rewrite Htp, Htd, Hw1, <- !app_assoc. auto.
    + exists td, []. cbn [snd]. rewrite Htd, Hw1, app_nil_r, <- !app_assoc. auto.
    + exists td, []. cbn [snd]. rewrite Htd, Hw1, app_nil_r, <- !app_assoc. auto.
Qed.

Lemma sendSmuggledRequest_writes_once_witness :
  let w := demo_world [Chunk (b "HD"); Chunk (b "E")] Silent in
  exists (drained printed : list io),
    trace (snd (sendSmuggledRequest demo_env 5 [] (demo_args false) w)) =
      trace w
      ++ [Sendall (outbuf (h2c w)
                   ++ encode_headers demo_env (next_stream_id (h2c w)) []
                        (is_None (data (demo_args false))))]
      ++ drained ++ printed /\
    Forall is_read_or_feed drained /\
    Forall is_print printed.
Proof.
  intros w.
  apply (sendSmuggledRequest_writes_once demo_env 5 [] (demo_args false) w).
  reflexivity.
Defined.

(** X14.  The loop over the URLs stops at the first request that fails: when
    the requests for [urls1] have completed and the next one raises, the loop
    raises the same exception in the world that the failing request left;
    the URLs after it are never requested. *)
Theorem smuggle_all_stops_at_first_failure :
  forall (E : Env) (fuel : nat) (args : Args) (urls1 urls2 : list ParseResult)
         (url : ParseResult) (w w1 w2 : World) (e : exn),
    smuggle_all E fuel args urls1 w = (Returned tt, w1) ->
    sendSmuggledRequest E fuel (smuggled_headers args url (request_path url)) args
      (with_trace
         (trace w1 ++ [Print (Text ("[INFO] Requesting - " ++ request_path url))]) w1)
    = (Raised e, w2) ->
    smuggle_all E fuel args (urls1 ++ url :: urls2) w = (Raised e, w2).
Proof.
  intros E fuel args urls1 urls2 url w w1 w2 e H1 H2.
  unfold smuggle_all in *. rewrite for_each_app, H1.
  change (smuggle_all E fuel args (url :: urls2) w1 = (Raised e, w2)).
  rewrite smuggle_all_cons, H2. reflexivity.
Qed.

Lemma smuggle_all_stops_at_first_failure_witness :
  let w := demo_world [Chunk (b "HDE"); Chunk (b "R"); TimedOut; Chunk (b "HDE")]
             Silent in
  let a := demo_url "http://backend/a" in
  let w1 := snd (smuggle_all demo_env 5 (demo_args false) [a] w) in
  let w2 := snd (sendSmuggledRequest demo_env 5
                   (smuggled_headers (demo_args false) a (request_path a))
                   (demo_args false)
                   (with_trace
                      (trace w1 ++ [Print (Text ("[INFO] Requesting - " ++ request_path a))])
                      w1)) in
  smuggle_all demo_env 5 (demo_args false) ([a] ++ a :: [a; a]) w
  = (Raised (RuntimeError "stream reset: 8"), w2).
Proof.
  intros w a w1 w2.
  apply (smuggle_all_stops_at_first_failure demo_env 5 (demo_args false)
           [a] [a; a] a w w1 w2 (RuntimeError "stream reset: 8"));
    vm_compute; reflexivity.
Defined.

(** ** [main] *)

(** X15.  A proxy URL that does not start with [http] is refused at once:
    [main] prints the error on stderr and exits with code 1, without opening
    a connection. *)
Theorem main_invalid_protocol :
  forall (E : Env) (U : bool) (fuel : nat) (args : Args) (w : World),
    String.prefix "http" (proxy args) = false ->
    main E U fuel args w =
      (Raised (SystemExit 1),
       with_trace
         (trace w ++ [PrintErr (Text ("[ERROR]: invalid protocol: " ++ proxy args))]) w).
Proof.
  intros E U fuel args w H. unfold main. rewrite H. reflexivity.
Qed.

Lemma main_invalid_protocol_witness :
  let args := {| proxy := "ftp://proxy.test"; wordlist := None; request := "GET";
                 data := None; header := None; test := false; verbose := false;
                 url := "http://backend/" |} in
  main demo_env false 5 args (demo_world [] Silent) =
    (Raised (SystemExit 1),
     with_trace
       (trace (demo_world [] Silent)
        ++ [PrintErr (Text ("[ERROR]: invalid protocol: " ++ proxy args))])
       (demo_world [] Silent)).
Proof.
  intros args.
  apply (main_invalid_protocol demo_env false 5 args (demo_world [] Silent)).
  reflexivity.
Defined.

Lemma get_upgrade_response_refused :
  forall (fuel : nat) (proxy_url : ParseResult) (w : World)
         (chunks : list bytes) (later : list recv_outcome)
         (headers rest code : bytes),
    inbox w = map Chunk chunks ++ later ->
    marker_arrives [] chunks = true ->
    split_once CRLFCRLF (List.concat chunks) = Some (headers, rest) ->
    nth_error (split_ws headers) 1 = Some code ->
    bytes_eqb code (b "101") = false ->
    List.length chunks <= fuel ->
    get_upgrade_response fuel proxy_url w =
      (Returned (None, false),
       with_trace
         (trace w ++ reads chunks
          ++ [Print (Text ("[INFO] Failed to upgrade: " ++ geturl proxy_url))])
         (with_inbox later w)).
Proof.
  intros fuel proxy_url w chunks later headers rest code Hin Harr Hsplit Htok Hcode Hfuel.
  unfold get_upgrade_response, bind at 1.
  rewrite (recv_headers_arrives chunks [] _ _ _ Hin Harr Hfuel).
  cbv beta iota. rewrite app_nil_l, Hsplit. cbv beta iota zeta.
  rewrite Htok, Hcode. simpl negb. cbv iota.
  unfold bind, print, log, ret. cbv beta iota. unfold with_trace, with_inbox. simpl.
  rewrite <- app_assoc. reflexivity.
Qed.

Lemma main_refused_run :
  forall (E : Env) (U : bool) (fuel : nat) (args : Args) (w : World)
         (chunks : list bytes) (later : list recv_outcome)
         (headers rest code : bytes) (host : string),
    String.prefix "http" (proxy args) = true ->
    connect_fails w = false ->
    hostname (urlparse E (proxy args)) = Some host ->
    inbox w = map Chunk chunks ++ later ->
    marker_arrives [] chunks = true ->
    split_once CRLFCRLF (List.concat chunks) = Some (headers, rest) ->
    nth_error (split_ws headers) 1 = Some code ->
    bytes_eqb code (b "101") = false ->
    List.length chunks <= fuel ->
    main E U fuel args w =
      (Raised (SystemExit 1),
       {| inbox := later; peer := peer w; connect_fails := connect_fails w;
          connection := connection w;
          h2c := {| next_stream_id := first_client_stream_id; streams := [];
                    outbuf := preface E; fed := [] |};
          trace :=
            trace w
            ++ [connect_event (urlparse E (proxy args));
                Sendall (upgrade_request U
                           (list_byte_of_string
                              (or_slash (path (urlparse E (proxy args)))))
                           (list_byte_of_string host))]
            ++ reads chunks
            ++ [Print (Text ("[INFO] Failed to upgrade: "
                             ++ geturl (urlparse E (proxy args))))] |}).
Proof.
  intros E U fuel args w chunks later headers rest code host
         Hprefix Hconn Hhost Hin Harr Hsplit Htok Hneq Hfuel.
  unfold main. rewrite Hprefix. simpl negb. cbv iota.
  rewrite bind_ret. cbv zeta.
  rewrite (bind_returned _ _ _ _ _ (establish_tcp_connection_ok _ _ Hconn)).
  unfold set_h2 at 1, initiate_upgrade_connection, get_h2.
  unfold bind at 1. unfold bind at 1. unfold bind at 1. unfold bind at 1.
  cbv beta iota. unfold set_h2 at 1. cbv beta iota. unfold ret at 1.
  cbv beta iota.
  rewrite (bind_returned _ _ _ _ _ (send_initial_request_sends U _ _ _ host Hhost)).
  erewrite bind_returned.
  2:{ apply (get_upgrade_response_refused fuel _ _ chunks later headers rest code);
      auto. }
  cbv beta iota. simpl negb. cbv iota. unfold bind at 1, raise at 1.
  f_equal. unfold with_trace, with_h2c, with_inbox. simpl.
  rewrite <- !app_assoc. reflexivity.
Qed.

(** X16.  When the proxy answers the upgrade request with a status other
    than [101], [main] prints that the upgrade failed and exits with code 1.
    The upgrade request is the only thing it has written: no HTTP/2 byte is
    sent, and the connection is left as it is. *)
Theorem main_refused_upgrade :
  forall (E : Env) (U : bool) (fuel : nat) (args : Args) (w : World)
         (chunks : list bytes) (later : list recv_outcome)
         (headers rest code : bytes) (host : string),
    String.prefix "http" (proxy args) = true ->
    connect_fails w = false ->
    hostname (urlparse E (proxy args)) = Some host ->
    inbox w = map Chunk chunks ++ later ->
    marker_arrives [] chunks = true ->
    split_once CRLFCRLF (List.concat chunks) = Some (headers, rest) ->
    nth_error (split_ws headers) 1 = Some code ->
    code <> b "101" ->
    List.length chunks <= fuel ->
    fst (main E U fuel args w) = Raised (SystemExit 1) /\
    trace (snd (main E U fuel args w)) =
      trace w
      ++ [connect_event (urlparse E (proxy args));
          Sendall (upgrade_request U
                     (list_byte_of_string (or_slash (path (urlparse E (proxy args)))))
                     (list_byte_of_string host))]
      ++ reads chunks
      ++ [Print (Text ("[INFO] Failed to upgrade: " ++ geturl (urlparse E (proxy args))))].
Proof.
  intros E U fuel args w chunks later headers rest code host
         Hprefix Hconn Hhost Hin Harr Hsplit Htok Hcode Hfuel.
  assert (bytes_eqb code (b "101") = false) as Hneq.
  { destruct (bytes_eqb code (b "101")) eqn:Hb; [|reflexivity].
    apply bytes_eqb_eq in Hb. contradiction. }
  rewrite (main_refused_run E U fuel args w chunks later headers rest code host);
    auto.
Qed.

Lemma main_refused_upgrade_witness :
  let w := demo_world [Chunk (b "HTTP/1.1 403 Forbidden" ++ CRLFCRLF)] Silent in
  let args := demo_args false in
  fst (main demo_env false 1 args w) = Raised (SystemExit 1) /\
  trace (snd (main demo_env false 1 args w)) =
    trace w
    ++ [connect_event (urlparse demo_env (proxy args));
        Sendall (upgrade_request false
                   (list_byte_of_string (or_slash (path (urlparse demo_env (proxy args)))))
                   (list_byte_of_string "proxy.test"))]
    ++ reads [b "HTTP/1.1 403 Forbidden" ++ CRLFCRLF]
    ++ [Print (Text ("[INFO] Failed to upgrade: "
                     ++ geturl (urlparse demo_env (proxy args))))].
Proof.
  intros w args.
  apply (main_refused_upgrade demo_env false 1 args w
           [b "HTTP/1.1 403 Forbidden" ++ CRLFCRLF] []
           (b "HTTP/1.1 403 Forbidden") [] (b "403") "proxy.test"%string);
    first [reflexivity | discriminate | simpl; lia].
Defined.

Lemma closes_last_bind {A} (m : M A) (k : A -> M unit) :
  appends not_teardown m -> (forall a, closes_last (k a)) ->
  closes_last (bind m k).
Proof.
  intros Hm Hk w. unfold bind.
  destruct (Hm w) as (t1 & Ht1 & HP1 & _).
  destruct (m w) as [[a|e|] w1]; cbn [snd] in Ht1.
  - destruct (Hk a w1) as (t2 & Ht2 & Hret & Hnot).
    exists (t1 ++ t2). rewrite Ht2, Ht1, app_assoc. split; [reflexivity|]. split.
    + intros H. destruct (Hret H) as (t0 & -> & HP0).
      exists (t1 ++ t0). rewrite app_assoc. split; [reflexivity|].
      now apply Forall_app.
    + intros H. apply Forall_app. auto.
  - exists t1. split; [exact Ht1|]. split; [discriminate | auto].
  - exists t1. split; [exact Ht1|]. split; [discriminate | auto].
Qed.

Lemma closes_last_shutdown_close : closes_last (shutdown ;;; close).
Proof.
  intros w. unfold bind, shutdown. destruct (reset_by_peer (trace w)).
  - exists []. simpl. rewrite app_nil_r.
    split; [reflexivity|]. split; [discriminate | constructor].
  - exists [Shutdown; Close]. split; [|split].
    + simpl. rewrite <- app_assoc. reflexivity.
    + intros _. exists []. split; [reflexivity | constructor].
    + intros H. now contradiction H.
Qed.

Lemma closes_last_raise (e : exn) : closes_last (raise e).
Proof.
  intros w. exists []. simpl. rewrite app_nil_r.
  split; [reflexivity|]. split; [discriminate | constructor].
Qed.

Lemma quiet_not_teardown (x : io) : quiet x -> not_teardown x.
Proof. destruct x; simpl; intros H; try contradiction; reflexivity. Qed.

Lemma not_teardown_Recv (r : recv_outcome) : not_teardown (Recv r).
Proof. reflexivity. Qed.

Lemma not_teardown_Feed (d : bytes) : not_teardown (Feed d).
Proof. reflexivity. Qed.

Lemma not_teardown_Print (l : line) : not_teardown (Print l).
Proof. reflexivity. Qed.

Lemma not_teardown_PrintErr (l : line) : not_teardown (PrintErr l).
Proof. reflexivity. Qed.

Lemma not_teardown_Sendall (d : bytes) : not_teardown (Sendall d).
Proof. reflexivity. Qed.

Lemma not_teardown_Connect (h : option string) (p : Z) (t : bool) :
  not_teardown (Connect h p t).
Proof. reflexivity. Qed.

Lemma appends_connect_fails (P : io -> Prop) :
  appends P (fun w : World =>
               if connect_fails w then (Raised SocketError, w)
               else (@Returned unit tt, w)).
Proof.
  intros w. exists []. destruct (connect_fails w); simpl; rewrite app_nil_r; auto.
Qed.

Ltac appends_quietly :=
  repeat first
    [ apply appends_connect_fails
    | apply appends_handle_events; intros ?
    | apply appends_getData_from; intros ?
    | apply appends_recv_headers; intros ?
    | apply (appends_weaken quiet);
        [apply quiet_not_teardown | apply appends_smuggle_all]
    | appends_step | appends_case ];
  auto using not_teardown_Recv, not_teardown_Feed, not_teardown_Print,
    not_teardown_PrintErr, not_teardown_Sendall, not_teardown_Connect.

(** X17.  [main] shuts the connection down and closes it exactly when it
    completes normally, once, as its last two actions; in every other run -
    an exit through [sys.exit], an exception, a loop that does not end - it
    does neither. *)
Theorem main_closes_last :
  forall (E : Env) (U : bool) (fuel : nat) (args : Args), closes_last (main E U fuel args).
Proof.
  intros E U fuel args.
  unfold main, establish_tcp_connection, initiate_upgrade_connection,
    send_initial_request, get_upgrade_response, data_to_send, sendall, print,
    print_err, receive_data, getData, close_connection.
  apply closes_last_bind; [solve [appends_quietly] | intros _].
  cbv zeta.
  repeat (apply closes_last_bind; [solve [appends_quietly] | intros ?]).
  match goal with
  | |- closes_last (let (_, _) := ?r in _) => destruct r as [extra_data success]
  end.
  repeat (apply closes_last_bind; [solve [appends_quietly] | intros ?]).
  apply closes_last_shutdown_close.
Qed.

(** ** [scan] *)

Lemma raises_only_bind {A B} (Q : exn -> Prop) (m : M A) (k : A -> M B) :
  raises_only Q m -> (forall a, raises_only Q (k a)) -> raises_only Q (bind m k).
Proof.
  intros Hm Hk w w' e. unfold bind.
  destruct (m w) as [[a|x|] w1] eqn:Hrun; intros H.
  - now apply (Hk a w1 w' e).
  - injection H as <- <-. now apply (Hm w w1 x).
  - discriminate.
Qed.

Lemma raises_only_ret {A} (Q : exn -> Prop) (a : A) : raises_only Q (ret a).
Proof. intros w w' e H. discriminate. Qed.

Lemma raises_only_log (Q : exn -> Prop) (x : io) : raises_only Q (log x).
Proof. intros w w' e H. discriminate. Qed.

Lemma raises_only_get_h2 (Q : exn -> Prop) : raises_only Q get_h2.
Proof. intros w w' e H. discriminate. Qed.

Lemma raises_only_set_h2 (Q : exn -> Prop) (h : H2Connection) :
  raises_only Q (set_h2 h).
Proof. intros w w' e H. discriminate. Qed.

Lemma raises_only_raise {A} (Q : exn -> Prop) (e : exn) :
  Q e -> raises_only Q (@raise A e).
Proof. intros HQ w w' x H. injection H as <- _. exact HQ. Qed.

Lemma raises_only_recv (Q : exn -> Prop) (n : N) :
  Q SocketTimeout -> Q SocketError -> raises_only Q (recv n).
Proof.
  intros H1 H2 w w' e. rewrite recv_spec.
  destruct (next_read w); simpl; intros H; try discriminate;
    injection H as <- _; assumption.
Qed.

Lemma raises_only_recv_headers (Q : exn -> Prop) (fuel : nat) :
  Q SocketTimeout -> Q SocketError ->
  forall data, raises_only Q (recv_headers fuel data).
Proof.
  intros H1 H2. induction fuel as [|fuel IH]; intros data; simpl;
    destruct (contains CRLFCRLF data); try apply raises_only_ret.
  - intros w w' e H. discriminate.
  - apply raises_only_bind; [now apply raises_only_recv | intros chunk; apply IH].
Qed.

Ltac raises_only_auto :=
  repeat first
    [ apply raises_only_ret | apply raises_only_log | apply raises_only_get_h2
    | apply raises_only_set_h2
    | apply raises_only_recv_headers
    | apply raises_only_raise
    | apply raises_only_bind; [|intros ?]
    | match goal with
      | |- raises_only _ (if ?c then _ else _) => destruct c
      | |- raises_only _ (match ?x with _ => _ end) => destruct x
      | |- raises_only _ (let (_, _) := ?x in _) => destruct x
      end ];
  try reflexivity.

(** The probe of [scan] once it is connected: an exception that leaves it is
    one that [except Exception] catches. *)
Lemma raises_only_scan_probe (E : Env) (U : bool) (fuel : nat) (line : string) :
  raises_only caught
    (set_h2 new_H2Connection ;;;
     settings_header_value <- initiate_upgrade_connection E ;;
     send_initial_request U (urlparse E line) settings_header_value ;;;
     r <- get_upgrade_response fuel (urlparse E line) ;;
     if negb (snd r) then ret tt
     else print (Text ("[INFO] Success! " ++ line ++ " can be used for tunneling"))).
Proof.
  unfold initiate_upgrade_connection, send_initial_request, sendall,
    get_upgrade_response, print.
  raises_only_auto.
Qed.

Lemma establish_tcp_connection_fails (proxy_url : ParseResult) (w : World) :
  connect_fails w = true ->
  establish_tcp_connection proxy_url w =
    (Raised SocketError, with_trace (trace w ++ [connect_event proxy_url]) w).
Proof.
  intros H. unfold establish_tcp_connection, bind, log. simpl. now rewrite H.
Qed.

(** ** Whether the peer has reset the connection *)

Lemma reset_since_app (t1 t2 : list io) :
  forall r : bool, reset_since (t1 ++ t2) r = reset_since t2 (reset_since t1 r).
Proof.
  induction t1 as [|x t1 IH]; intros r; [reflexivity|].
  destruct x as [? ? ?|?|r0|?|?|?| |]; try destruct r0; simpl; apply IH.
Qed.

Lemma reset_since_In (t : list io) :
  forall r : bool, reset_since t r = true -> r = true \/ In (Recv Failed) t.
Proof.
  induction t as [|x t IH]; intros r H; [left; exact H|].
  destruct x as [? ? ?|?|r0|?|?|?| |]; try destruct r0; simpl in H;
    apply IH in H; destruct H as [H|H];
    first [discriminate | left; exact H | right; right; exact H
          | right; left; reflexivity].
Qed.

Lemma reset_since_spared (t : list io) :
  ~ In (Recv Failed) t -> reset_since t false = false.
Proof.
  intros H. destruct (reset_since t false) eqn:Hr; [|reflexivity].
  apply reset_since_In in Hr as [Hr|Hr]; [discriminate | contradiction].
Qed.

Lemma reset_by_peer_connected (t0 t : list io) (h : option string) (p : Z)
    (tls : bool) :
  reset_by_peer (t0 ++ Connect h p tls :: t) = reset_since t false.
Proof. unfold reset_by_peer. rewrite reset_since_app. reflexivity. Qed.

Lemma reads_spared (chunks : list bytes) : ~ In (Recv Failed) (reads chunks).
Proof.
  unfold reads. rewrite in_map_iff. intros (c & H & _). discriminate.
Qed.

(** The [finally] block of [scan] on a connection made: it shuts down and
    closes, unless the peer has reset the connection, in which case the
    shutdown raises and the connection is not closed. *)
Lemma scan_teardown (w : World) (t0 t : list io) (h : option string) (p : Z)
    (tls : bool) :
  connection w = true ->
  trace w = t0 ++ Connect h p tls :: t ->
  (if connection w then (shutdown ;;; close) w else (Returned tt, w)) =
    if reset_since t false then (Raised SocketError, w)
    else (Returned tt, with_trace (trace w ++ [Shutdown; Close]) w).
Proof.
  intros Hc Ht. rewrite Hc. unfold bind, shutdown.
  rewrite Ht at 1. rewrite reset_by_peer_connected.
  destruct (reset_since t false); [reflexivity|].
  unfold close, log, with_trace. simpl. rewrite <- app_assoc. reflexivity.
Qed.

(** What a run of [scan] comes to, by case: the line is not an http URL; the
    connection cannot be made; the probe runs and is still running, or it
    ends and the connection is released, or it ends on a connection that the
    peer has reset. *)
Lemma scan_run (E : Env) (U : bool) (fuel : nat) (line : string) (w : World) :
  exists t : list io,
    trace (snd (scan E U fuel line w)) = trace w ++ t /\
    ((fst (scan E U fuel line w) = Running /\ Forall not_teardown t) \/
     (fst (scan E U fuel line w) = Returned tt /\
      exists t0 : list io,
        Forall not_teardown t0 /\
        t = t0 ++ (if String.prefix "http" line && negb (connect_fails w)
                   then [Shutdown; Close] else [])) \/
     (fst (scan E U fuel line w) = Raised SocketError /\
      Forall not_teardown t /\ In (Recv Failed) t)).
Proof.
  destruct (String.prefix "http" line) eqn:Hprefix;
    [destruct (connect_fails w) eqn:Hconn|];
    remember (scan E U fuel line w) as result eqn:Hr;
    unfold scan in Hr; rewrite Hprefix in Hr; simpl negb in Hr; cbv iota in Hr;
    unfold bind at 1, set_connection at 1 in Hr; cbv beta iota in Hr;
    unfold finally, except_Exception in Hr;
    set (w0 := with_connection false w) in Hr.
  - unfold bind at 1 in Hr.
    rewrite (establish_tcp_connection_fails (urlparse E line) w0 Hconn) in Hr.
    simpl in Hr. subst result.
    exists [connect_event (urlparse E line);
            PrintErr (ErrorOf SocketError line)].
    split; [simpl; rewrite <- app_assoc; reflexivity|].
    right. left. split; [reflexivity|].
    eexists. split; [|simpl; rewrite app_nil_r; reflexivity].
    repeat constructor.
  - unfold bind at 1 in Hr.
    rewrite (establish_tcp_connection_ok (urlparse E line) w0 Hconn) in Hr.
    unfold bind at 1, set_connection at 1 in Hr. cbv beta iota in Hr.
    match type of Hr with
    | context [?m (with_connection true ?W)] =>
        set (w2 := with_connection true W) in Hr;
        destruct (appends_scan_probe E U fuel line w2) as (t & Ht & HP & Hc);
        pose proof (raises_only_scan_probe E U fuel line w2) as Hexn;
        change (m w2) with
          ((set_h2 new_H2Connection ;;;
            settings_header_value <- initiate_upgrade_connection E ;;
            send_initial_request U (urlparse E line) settings_header_value ;;;
            r <- get_upgrade_response fuel (urlparse E line) ;;
            if negb (snd r) then ret tt
            else print (Text ("[INFO] Success! " ++ line
                              ++ " can be used for tunneling")))
             w2) in Hr, Hexn
    end.
    assert (trace w2 = trace w ++ [connect_event (urlparse E line)]) as Hw2
      by reflexivity.
    change (connection w2) with true in Hc.
    match type of Hr with
    | context [?m w2] => destruct (m w2) as [[[]|e|] w3]
    end; cbn [fst snd] in Ht, Hc; rewrite Hw2 in Ht.
    + cbv beta iota in Hr.
      rewrite (scan_teardown w3 (trace w) t _ _ _ Hc) in Hr
        by (rewrite Ht, <- app_assoc; reflexivity).
      destruct (reset_since t false) eqn:Hreset; subst result; cbn [fst snd].
      * exists (connect_event (urlparse E line) :: t).
        split; [rewrite Ht, <- app_assoc; reflexivity|].
        right. right. split; [reflexivity|]. split.
        -- constructor; [reflexivity | exact HP].
        -- right. apply reset_since_In in Hreset as [Hreset|Hreset];
             [discriminate | exact Hreset].
      * exists (connect_event (urlparse E line) :: t ++ [Shutdown; Close]).
        split; [simpl; rewrite Ht, <- !app_assoc; reflexivity|].
        right. left. split; [reflexivity|].
        exists (connect_event (urlparse E line) :: t). split.
        -- constructor; [reflexivity | exact HP].
        -- reflexivity.
    + cbv beta iota in Hr. rewrite (Hexn w3 e eq_refl) in Hr.
      unfold print_err, log in Hr. cbv beta iota in Hr.
      set (w4 := with_trace (trace w3 ++ [PrintErr (ErrorOf e line)]) w3) in Hr.
      assert (trace w4 = trace w ++ connect_event (urlparse E line)
                           :: (t ++ [PrintErr (ErrorOf e line)])) as Hw4
        by (unfold w4; simpl; rewrite Ht, <- !app_assoc; reflexivity).
      assert (connection w4 = true) as Hc4 by exact Hc.
      clearbody w4.
      rewrite (scan_teardown w4 (trace w) _ _ _ _ Hc4 Hw4) in Hr.
      assert (Forall not_teardown (t ++ [PrintErr (ErrorOf e line)])) as HP4
        by (apply Forall_app; split; [exact HP | repeat constructor]).
      destruct (reset_since (t ++ [PrintErr (ErrorOf e line)]) false) eqn:Hreset;
        subst result; cbn [fst snd].
      * exists (connect_event (urlparse E line)
                :: (t ++ [PrintErr (ErrorOf e line)])).
        split; [exact Hw4|].
        right. right. split; [reflexivity|]. split.
        -- constructor; [reflexivity | exact HP4].
        -- right. apply reset_since_In in Hreset as [Hreset|Hreset];
             [discriminate | exact Hreset].
      * exists (connect_event (urlparse E line)
                :: (t ++ [PrintErr (ErrorOf e line)]) ++ [Shutdown; Close]).
        split; [cbn [snd trace with_trace]; rewrite Hw4, <- app_assoc; reflexivity|].
        right. left. split; [reflexivity|].
        exists (connect_event (urlparse E line)
                :: (t ++ [PrintErr (ErrorOf e line)])). split.
        -- constructor; [reflexivity | exact HP4].
        -- reflexivity.
    + subst result. cbn [fst snd].
      exists (connect_event (urlparse E line) :: t).
      split; [rewrite Ht, <- app_assoc; reflexivity|].
      left. split; [reflexivity|]. constructor; [reflexivity | exact HP].
  - simpl in Hr. subst result.
    exists [Print (Text ("[ERROR]: skipping invalid protocol: " ++ line))].
    split; [reflexivity|]. right. left. split; [reflexivity|].
    eexists. split; [|simpl; rewrite app_nil_r; reflexivity].
    repeat constructor.
Qed.


(** The run of [scan] up to the read of the upgrade response, on a line that
    is an http URL with a host name and a proxy that accepts the
    connection. *)
Lemma scan_connected :
  forall (E : Env) (U : bool) (fuel : nat) (line : string) (w : World) (host : string),
    String.prefix "http" line = true ->
    connect_fails w = false ->
    hostname (urlparse E line) = Some host ->
    exists w1 : World,
      inbox w1 = inbox w /\ peer w1 = peer w /\ connection w1 = true /\
      trace w1 =
        trace w ++ [connect_event (urlparse E line);
                    Sendall (upgrade_request U
                               (list_byte_of_string (or_slash (path (urlparse E line))))
                               (list_byte_of_string host))] /\
      scan E U fuel line w =
        finally
          (except_Exception
             (r <- get_upgrade_response fuel (urlparse E line) ;;
              if negb (snd r) then ret tt
              else print (Text ("[INFO] Success! " ++ line
                                ++ " can be used for tunneling")))
             (fun e => print_err (ErrorOf e line)))
          (fun w => if connection w then (shutdown ;;; close) w else (Returned tt, w))
          w1.
Proof.
  intros E U fuel line w host Hprefix Hconn Hhost.
  refine (ex_intro _ _ (conj _ (conj _ (conj _ (conj _ _))))).
  5:{ unfold scan. rewrite Hprefix. simpl negb. cbv iota.
      unfold bind at 1, set_connection at 1. cbv beta iota.
      unfold finally, except_Exception.
      set (w0 := with_connection false w).
      rewrite (bind_returned _ _ _ _ _ (establish_tcp_connection_ok _ w0 Hconn)).
      unfold bind at 1, set_connection at 1. cbv beta iota.
      unfold set_h2 at 1, initiate_upgrade_connection, get_h2.
      unfold bind at 1. unfold bind at 1. unfold bind at 1. unfold bind at 1.
      cbv beta iota. unfold set_h2 at 1. cbv beta iota. unfold ret at 1.
      cbv beta iota.
      rewrite (bind_returned _ _ _ _ _
                 (send_initial_request_sends U _ _ _ host Hhost)).
      reflexivity. }
  all: simpl; try reflexivity.
  rewrite <- app_assoc. reflexivity.
Qed.




(** X19.  A run of [scan] that returns has shut down and closed the
    connection exactly when the line is an http URL and the connection was
    made, as its last two actions; on any other line, or when the connection
    is refused, it does neither. *)
Theorem scan_closes_what_it_opened :
  forall (E : Env) (U : bool) (fuel : nat) (line : string) (w : World),
    fst (scan E U fuel line w) = Returned tt ->
    exists t : list io,
      Forall not_teardown t /\
      trace (snd (scan E U fuel line w)) =
        trace w ++ t
        ++ (if String.prefix "http" line && negb (connect_fails w)
            then [Shutdown; Close] else []).
Proof.
  intros E U fuel line w Hret.
  destruct (scan_run E U fuel line w)
    as (t & Ht & [[Hrun _] | [(_ & t0 & HP & ->) | [Hrun _]]]);
    try (rewrite Hrun in Hret; discriminate).
  exists t0. split; [exact HP | exact Ht].
Qed.

Lemma scan_closes_what_it_opened_witness :
  exists t : list io,
    Forall not_teardown t /\
    trace (snd (scan demo_env false 4 "http://proxy.test"
                  (demo_world [Chunk (b "HTTP/1.1 101 Switching Protocols"
                                      ++ CRLFCRLF)] Silent))) =
      trace (demo_world [Chunk (b "HTTP/1.1 101 Switching Protocols" ++ CRLFCRLF)]
               Silent)
      ++ t ++ [Shutdown; Close].
Proof.
  apply (scan_closes_what_it_opened demo_env false 4 "http://proxy.test"
           (demo_world [Chunk (b "HTTP/1.1 101 Switching Protocols" ++ CRLFCRLF)]
              Silent)).
  vm_compute. reflexivity.
Defined.

(** X20.  A line that does not start with [http] is never connected to:
    [scan] returns, and all that it has done is print. *)
Theorem scan_skips_without_connecting :
  forall (E : Env) (U : bool) (fuel : nat) (line : string) (w : World),
    String.prefix "http" line = false ->
    fst (scan E U fuel line w) = Returned tt /\
    exists t : list io,
      trace (snd (scan E U fuel line w)) = trace w ++ t /\
      Forall is_output t.
Proof.
  intros E U fuel line w Hprefix.
  unfold scan. rewrite Hprefix. split; [reflexivity|].
  exists [Print (Text ("[ERROR]: skipping invalid protocol: " ++ line))].
  split; [reflexivity|]. repeat constructor.
Qed.

Lemma scan_skips_without_connecting_witness :
  fst (scan demo_env false 0 "ftp://proxy.test" (demo_world [] Silent)) = Returned tt /\
  exists t : list io,
    trace (snd (scan demo_env false 0 "ftp://proxy.test" (demo_world [] Silent))) =
      trace (demo_world [] Silent) ++ t /\
    Forall is_output t.
Proof.
  apply (scan_skips_without_connecting demo_env false 0 "ftp://proxy.test"
           (demo_world [] Silent)).
  reflexivity.
Defined.



(** X22.  A read that times out or fails before the response headers are
    complete is reported on standard error, with the line.  After a
    timeout [scan] then shuts down and closes the connection and returns.
    After a read that failed - the peer has reset the connection - the
    [shutdown] of the [finally] block raises in its turn: the exception
    leaves [scan] and the connection is not closed. *)
Theorem scan_reports_read_error :
  forall (E : Env) (U : bool) (fuel : nat) (line : string) (w : World)
         (chunks : list bytes) (r : recv_outcome) (e : exn)
         (later : list recv_outcome) (host : string),
    String.prefix "http" line = true ->
    connect_fails w = false ->
    hostname (urlparse E line) = Some host ->
    inbox w = map Chunk chunks ++ r :: later ->
    read_error r = Some e ->
    contains CRLFCRLF (List.concat chunks) = false ->
    List.length chunks < fuel ->
    fst (scan E U fuel line w) =
      (if is_Failed r then Raised SocketError else Returned tt) /\
    trace (snd (scan E U fuel line w)) =
      trace w
      ++ [connect_event (urlparse E line);
          Sendall (upgrade_request U
                     (list_byte_of_string (or_slash (path (urlparse E line))))
                     (list_byte_of_string host))]
      ++ reads chunks
      ++ [Recv r; PrintErr (ErrorOf e line)]
      ++ (if is_Failed r then [] else [Shutdown; Close]).
Proof.
  intros E U fuel line w chunks r e later host
         Hprefix Hconn Hhost Hin Hr Hno Hfuel.
  destruct (scan_connected E U fuel line w host Hprefix Hconn Hhost)
    as (w1 & Hin1 & _ & Hc1 & Ht1 & Hscan).
  rewrite <- Hin1 in Hin.
  match goal with
  | |- _ = ?o /\ _ = ?t =>
      assert (exists w2 : World,
                 scan E U fuel line w = (o, w2) /\ trace w2 = t)
        as (w2 & -> & Ht2); [|split; [reflexivity | exact Ht2]]
  end.
  rewrite Hscan.
  unfold finally, except_Exception, bind at 1, get_upgrade_response, bind at 1.
  rewrite (recv_headers_read_fails chunks [] fuel w1 r e later Hin Hr Hno Hfuel).
  assert (is_Exception e = true) as ->
    by (destruct r; simpl in Hr; try discriminate; injection Hr as <-; reflexivity).
  cbv beta iota. unfold print_err, log. cbv beta iota.
  unfold connect_event in Ht1. cbv zeta in Ht1.
  match goal with
  | |- context [if connection ?W then _ else _] =>
      erewrite (scan_teardown W (trace w));
        [ | exact Hc1
          | cbn [trace with_trace with_inbox]; rewrite Ht1, <- !app_assoc;
            reflexivity ]
  end.
  cbn [app reset_since]. rewrite !reset_since_app.
  rewrite (reset_since_spared _ (reads_spared chunks)).
  destruct r as [d| |]; simpl in Hr; try discriminate; cbn [reset_since is_Failed];
    (eexists; split; [reflexivity|]);
    cbn [trace with_trace with_inbox]; rewrite Ht1; unfold connect_event;
    cbv zeta; rewrite <- !app_assoc; reflexivity.
Qed.

Lemma scan_reports_read_error_witness :
  fst (scan demo_env false 4 "http://proxy.test"
         (demo_world [Chunk (b "HTTP/1.1 101"); Failed] Silent)) =
    (if is_Failed Failed then Raised SocketError else Returned tt) /\
  trace (snd (scan demo_env false 4 "http://proxy.test"
                (demo_world [Chunk (b "HTTP/1.1 101"); Failed] Silent))) =
    trace (demo_world [Chunk (b "HTTP/1.1 101"); Failed] Silent)
    ++ [connect_event (urlparse demo_env "http://proxy.test");
        Sendall (upgrade_request false
                   (list_byte_of_string
                      (or_slash (path (urlparse demo_env "http://proxy.test"))))
                   (list_byte_of_string "proxy.test"))]
    ++ reads [b "HTTP/1.1 101"]
    ++ [Recv Failed; PrintErr (ErrorOf SocketError "http://proxy.test")]
    ++ (if is_Failed Failed then [] else [Shutdown; Close]).
Proof.
  apply (scan_reports_read_error demo_env false 4 "http://proxy.test"
           (demo_world [Chunk (b "HTTP/1.1 101"); Failed] Silent)
           [b "HTTP/1.1 101"] Failed SocketError [] "proxy.test");
    first [reflexivity | vm_compute; reflexivity | simpl; lia].
Defined.
(** ** The headers of a smuggled request *)

Lemma split_sep_from_absent (sep : bytes) :
  forall (s cur : bytes),
    contains sep s = false ->
    split_sep_from sep 0 cur s = [rev cur ++ s].
Proof.
  induction s as [|c s IH]; intros cur Hno.
  - simpl. now rewrite app_nil_r.
  - cbn [contains] in Hno. apply orb_false_iff in Hno as [Hhere Hlater].
    cbn [split_sep_from]. rewrite Hhere, (IH (c :: cur) Hlater).
    simpl. now rewrite <- app_assoc.
Qed.

Lemma split_sep_from_colon :
  forall (name cur rest : bytes),
    existsb (Byte.eqb x3a) name = false ->
    split_sep_from (b ": ") 0 cur (name ++ b ": " ++ rest) =
      (rev cur ++ name) :: split_sep_from (b ": ") 0 [] rest.
Proof.
  induction name as [|c name IH]; intros cur rest Hno.
  - rewrite app_nil_r. reflexivity.
  - cbn [existsb] in Hno. apply orb_false_iff in Hno as [Hc Hname].
    change ((c :: name) ++ b ": " ++ rest) with (c :: (name ++ b ": " ++ rest)).
    cbn [split_sep_from].
    assert (starts_with (b ": ") (c :: name ++ b ": " ++ rest) = false) as ->.
    { change (b ": ") with [x3a; x20]. cbn [starts_with]. now rewrite Hc. }
    rewrite (IH (c :: cur) rest Hname). simpl. now rewrite <- app_assoc.
Qed.

Lemma list_byte_of_string_app (s t : string) :
  list_byte_of_string (s ++ t) = list_byte_of_string s ++ list_byte_of_string t.
Proof.
  induction s as [|c s IH]; [reflexivity|].
  change (list_byte_of_string (String c s ++ t))
    with (Ascii.byte_of_ascii c :: list_byte_of_string (s ++ t)).
  now rewrite IH.
Qed.

(** X23.  A [-H] argument that does not hold [": "] is appended to the
    headers of the request as a tuple of one element, the argument itself,
    and not as a name and a value. *)
Theorem smuggled_headers_without_separator :
  forall (args : Args) (url : ParseResult) (path : string) (hs : list string),
    header args = Some hs ->
    Forall (fun h => contains (b ": ") (b h) = false) hs ->
    smuggled_headers args url path =
      pseudo_headers args url path ++ map (fun h => [Some h]) hs.
Proof.
  intros args url path hs Hh Hno.
  unfold smuggled_headers, pseudo_headers. rewrite Hh. f_equal. clear Hh.
  induction Hno as [|h hs Hh1 _ IH]; [reflexivity|].
  cbn [map]. rewrite IH. f_equal.
  change (b h) with (list_byte_of_string h) in Hh1.
  unfold split_sep. rewrite (split_sep_from_absent _ _ [] Hh1).
  cbn [map rev app]. now rewrite string_of_list_byte_of_string.
Qed.

Lemma smuggled_headers_without_separator_witness :
  smuggled_headers
    {| proxy := "http://proxy.test"; wordlist := None; request := "GET";
       data := None; header := Some ["X-Forwarded-For:127.0.0.1"%string];
       test := false; verbose := false; url := "http://backend/flag" |}
    (demo_url "http://backend/flag") "/" =
  pseudo_headers
    {| proxy := "http://proxy.test"; wordlist := None; request := "GET";
       data := None; header := Some ["X-Forwarded-For:127.0.0.1"%string];
       test := false; verbose := false; url := "http://backend/flag" |}
    (demo_url "http://backend/flag") "/"
  ++ map (fun h => [Some h]) ["X-Forwarded-For:127.0.0.1"%string].
Proof.
  apply smuggled_headers_without_separator.
  - reflexivity.
  - repeat constructor.
Defined.

(** X24.  [-H] arguments of the form [name: value], where the name holds no
    colon and the value no [": "], are appended after the four
    pseudo-headers as the pairs of name and value, in the order given. *)
Theorem smuggled_headers_name_value :
  forall (args : Args) (url : ParseResult) (path : string)
         (pairs : list (string * string)),
    header args = Some (map (fun nv => fst nv ++ ": " ++ snd nv)%string pairs) ->
    Forall (fun nv => no_colon (fst nv) = true /\
                      contains (b ": ") (b (snd nv)) = false) pairs ->
    smuggled_headers args url path =
      pseudo_headers args url path
      ++ map (fun nv => [Some (fst nv); Some (snd nv)]) pairs.
Proof.
  intros args url path pairs Hh Hok.
  unfold smuggled_headers, pseudo_headers. rewrite Hh. f_equal. clear Hh.
  induction Hok as [|[name value] pairs [Hname Hvalue] _ IH]; [reflexivity|].
  cbn [map fst snd] in *. rewrite IH. f_equal.
  unfold no_colon in Hname. apply negb_true_iff in Hname.
  change (b value) with (list_byte_of_string value) in Hvalue.
  unfold split_sep. rewrite !list_byte_of_string_app.
  change (list_byte_of_string ": ") with (b ": ").
  rewrite (split_sep_from_colon _ [] _ Hname).
  rewrite (split_sep_from_absent _ _ [] Hvalue).
  cbn [map rev app]. now rewrite !string_of_list_byte_of_string.
Qed.

Lemma smuggled_headers_name_value_witness :
  smuggled_headers
    {| proxy := "http://proxy.test"; wordlist := None; request := "GET";
       data := None;
       header := Some (map (fun nv => fst nv ++ ": " ++ snd nv)%string
                         [("X-Forwarded-For", "127.0.0.1"); ("Accept", "*/*")]%string);
       test := false; verbose := false; url := "http://backend/flag" |}
    (demo_url "http://backend/flag") "/" =
  pseudo_headers
    {| proxy := "http://proxy.test"; wordlist := None; request := "GET";
       data := None;
       header := Some (map (fun nv => fst nv ++ ": " ++ snd nv)%string
                         [("X-Forwarded-For", "127.0.0.1"); ("Accept", "*/*")]%string);
       test := false; verbose := false; url := "http://backend/flag" |}
    (demo_url "http://backend/flag") "/"
  ++ map (fun nv => [Some (fst nv); Some (snd nv)])
       [("X-Forwarded-For", "127.0.0.1"); ("Accept", "*/*")]%string.
Proof.
  apply smuggled_headers_name_value.
  - reflexivity.
  - repeat constructor.
Defined.

(** ** Termination against a peer that falls silent *)

Section Halts.

Variable n : nat.

Lemma halts_ret {A} (a : A) : halts n (ret a).
Proof. intros w Hp Hn. simpl. auto. Qed.

Lemma halts_raise {A} (e : exn) : halts n (@raise A e).
Proof. intros w Hp Hn. simpl. auto. Qed.

Lemma halts_log (x : io) : halts n (log x).
Proof. intros w Hp Hn. simpl. auto. Qed.

Lemma halts_get_h2 : halts n get_h2.
Proof. intros w Hp Hn. simpl. auto. Qed.

Lemma halts_set_h2 (h : H2Connection) : halts n (set_h2 h).
Proof. intros w Hp Hn. simpl. auto. Qed.

Lemma halts_set_connection (c : bool) : halts n (set_connection c).
Proof. intros w Hp Hn. simpl. auto. Qed.

Lemma halts_bind {A B} (m : M A) (k : A -> M B) :
  halts n m -> (forall a, halts n (k a)) -> halts n (bind m k).
Proof.
  intros Hm Hk w Hp Hn. unfold bind.
  destruct (Hm w Hp Hn) as (He & Hp' & Hn').
  destruct (m w) as [[a|e|] w1]; simpl in *; auto.
  apply Hk; assumption.
Qed.

Lemma halts_recv (bufsize : N) : halts n (recv bufsize).
Proof.
  intros w Hp Hn. rewrite recv_spec.
  assert (List.length (inbox (after_read w)) <= n) as Hn'.
  { simpl. destruct (inbox w); simpl in *; lia. }
  destruct (next_read w); simpl; auto.
Qed.

Lemma halts_except_timeout {A} (m h : M A) :
  halts n m -> halts n h -> halts n (except_timeout m h).
Proof.
  intros Hm Hh w Hp Hn. unfold except_timeout.
  destruct (Hm w Hp Hn) as (He & Hp' & Hn').
  destruct (m w) as [[a|e|] w1]; simpl in *; auto.
  destruct e; simpl; auto.
Qed.

Lemma halts_except_Exception {A} (m : M A) (h : exn -> M A) :
  halts n m -> (forall e, halts n (h e)) -> halts n (except_Exception m h).
Proof.
  intros Hm Hh w Hp Hn. unfold except_Exception.
  destruct (Hm w Hp Hn) as (He & Hp' & Hn').
  destruct (m w) as [[a|e|] w1]; simpl in *; auto.
  destruct (is_Exception e); simpl; auto. apply Hh; assumption.
Qed.

Lemma halts_finally {A} (m : M A) (fin : M unit) :
  halts n m -> halts n fin -> halts n (finally m fin).
Proof.
  intros Hm Hf w Hp Hn. unfold finally.
  destruct (Hm w Hp Hn) as (He & Hp' & Hn').
  destruct (m w) as [[a|e|] w1]; simpl in *; try discriminate;
    destruct (Hf w1 Hp' Hn') as (He2 & Hp2 & Hn2);
    destruct (fin w1) as [[[]|e2|] w2]; simpl in *; auto.
Qed.

Lemma halts_shutdown : halts n shutdown.
Proof.
  intros w Hp Hn. unfold shutdown.
  destruct (reset_by_peer (trace w)); simpl; auto.
Qed.

Lemma halts_for_each {A} (l : list A) (body : A -> M unit) :
  (forall x, halts n (body x)) -> halts n (for_each l body).
Proof.
  intros Hb. induction l as [|x l IH]; simpl.
  - apply halts_ret.
  - apply halts_bind; [apply Hb | intros _; exact IH].
Qed.

End Halts.

Ltac halts_step :=
  first
    [ apply halts_ret | apply halts_raise
    | apply halts_get_h2 | apply halts_set_h2 | apply halts_set_connection
    | apply halts_log | apply halts_recv | apply halts_shutdown
    | apply halts_bind; [|intros ?] | apply halts_except_timeout
    | apply halts_except_Exception; [|intros ?]
    | apply halts_for_each; intros ? ].

Ltac halts_case :=
  match goal with
  | |- halts _ (if ?c then _ else _) => destruct c
  | |- halts _ (match ?x with _ => _ end) => destruct x
  | |- halts _ (let (_, _) := ?x in _) => destruct x
  end.

Ltac halts_auto := repeat first [halts_step | halts_case]; auto.

(** The loop of [get_upgrade_response] ends when the reads that remain are
    fewer than its fuel. *)
Lemma recv_headers_ends (fuel : nat) :
  forall (data : bytes) (w : World),
    peer w = Silent -> List.length (inbox w) < fuel ->
    ended (fst (recv_headers fuel data w)) = true /\
    peer (snd (recv_headers fuel data w)) = Silent /\
    List.length (inbox (snd (recv_headers fuel data w))) <= List.length (inbox w).
Proof.
  induction fuel as [|fuel IH]; intros data w Hp Hn; [lia|].
  cbn [recv_headers]. destruct (contains CRLFCRLF data); [simpl; auto|].
  unfold bind. rewrite recv_spec.
  destruct (next_read w) as [d| |] eqn:Hnext; simpl result_of; cbv beta iota.
  - unfold ret at 1 2 3.
    assert (List.length (inbox (after_read w)) < List.length (inbox w)) as Hlt.
    { unfold next_read in Hnext. simpl.
      destruct (inbox w); [rewrite Hp in Hnext; discriminate | simpl; lia]. }
    destruct (IH (data ++ d) (after_read w) Hp ltac:(lia)) as (He & Hp' & Hn').
    repeat split; auto. lia.
  - simpl. repeat split; auto. destruct (inbox w); simpl; lia.
  - simpl. repeat split; auto. destruct (inbox w); simpl; lia.
Qed.

Lemma halts_recv_headers (n fuel : nat) (data : bytes) :
  n < fuel -> halts n (recv_headers fuel data).
Proof.
  intros Hlt w Hp Hn.
  destruct (recv_headers_ends fuel data w Hp ltac:(lia)) as (He & Hp' & Hn').
  repeat split; auto. lia.
Qed.

(** So does the loop of [getData]. *)
Lemma getData_from_ends_silent (E : Env) (fuel : nat) :
  forall (events : list Event) (w : World),
    peer w = Silent -> List.length (inbox w) < fuel ->
    ended (fst (getData_from E fuel events w)) = true /\
    peer (snd (getData_from E fuel events w)) = Silent /\
    List.length (inbox (snd (getData_from E fuel events w))) <= List.length (inbox w).
Proof.
  induction fuel as [|fuel IH]; intros events w Hp Hn; [lia|].
  rewrite getData_from_step.
  assert (List.length (inbox (after_read w)) <= List.length (inbox w)) as Hle
    by (simpl; destruct (inbox w); simpl; lia).
  destruct (next_read w) as [d| |] eqn:Hnext; [|simpl; auto..].
  assert (List.length (inbox (after_read w)) < List.length (inbox w)) as Hlt.
  { unfold next_read in Hnext. simpl.
    destruct (inbox w); [rewrite Hp in Hnext; discriminate | simpl; lia]. }
  cbv zeta. destruct (fst (decode E (h2c w) d)) as [new|]; [|simpl; auto].
  destruct (ends_with_StreamEnded (events ++ new)); [simpl; auto|].
  destruct (IH (events ++ new) (after_feed E d (after_read w)) Hp
              ltac:(simpl in *; lia)) as (He & Hp' & Hn').
  repeat split; auto. simpl in *. lia.
Qed.

Lemma halts_getData (E : Env) (n fuel : nat) :
  n < fuel -> halts n (getData E fuel).
Proof.
  intros Hlt w Hp Hn. unfold getData.
  destruct (getData_from_ends_silent E fuel [] w Hp ltac:(lia)) as (He & Hp' & Hn').
  repeat split; auto. lia.
Qed.

Lemma halts_handle_events (n : nat) (events : list Event) (v : bool) :
  halts n (handle_events events v).
Proof.
  unfold handle_events, handle_event, handle_response, print. halts_auto.
Qed.

Lemma halts_get_upgrade_response (n fuel : nat) (proxy_url : ParseResult) :
  n < fuel -> halts n (get_upgrade_response fuel proxy_url).
Proof.
  intros Hlt. unfold get_upgrade_response, print.
  apply halts_bind; [now apply halts_recv_headers | intros data].
  halts_auto.
Qed.

Lemma halts_establish_tcp_connection (n : nat) (proxy_url : ParseResult) :
  halts n (establish_tcp_connection proxy_url).
Proof.
  unfold establish_tcp_connection. apply halts_bind; [apply halts_log | intros _].
  intros w Hp Hn. destruct (connect_fails w); simpl; auto.
Qed.

Lemma halts_send_initial_request (n : nat) (U : bool) (proxy_url : ParseResult)
    (settings : bytes) :
  halts n (send_initial_request U proxy_url settings).
Proof. unfold send_initial_request, sendall. halts_auto. Qed.

Lemma halts_sendSmuggledRequest (E : Env) (n fuel : nat)
    (headers : list header_tuple) (args : Args) :
  n < fuel -> halts n (sendSmuggledRequest E fuel headers args).
Proof.
  intros Hlt.
  unfold sendSmuggledRequest, get_next_available_stream_id, send_headers,
    data_to_send, sendall.
  repeat first
    [ apply halts_getData; assumption
    | apply halts_handle_events
    | halts_step | halts_case ].
Qed.

Lemma halts_main (E : Env) (U : bool) (n fuel : nat) (args : Args) :
  n < fuel -> halts n (main E U fuel args).
Proof.
  intros Hlt.
  unfold main, initiate_upgrade_connection, data_to_send, sendall, print, print_err,
    close_connection, close, receive_data.
  repeat first
    [ apply halts_establish_tcp_connection
    | apply halts_send_initial_request
    | apply halts_get_upgrade_response; assumption
    | apply halts_getData; assumption
    | apply halts_handle_events
    | apply halts_sendSmuggledRequest; assumption
    | halts_step | halts_case ].
Qed.

Lemma halts_scan (E : Env) (U : bool) (n fuel : nat) (line : string) :
  n < fuel -> halts n (scan E U fuel line).
Proof.
  intros Hlt.
  unfold scan, initiate_upgrade_connection, print, print_err.
  apply halts_bind; [apply halts_set_connection | intros _].
  apply halts_finally.
  - repeat first
      [ apply halts_establish_tcp_connection
      | apply halts_send_initial_request
      | apply halts_get_upgrade_response; assumption
      | halts_step | halts_case ].
  - intros w Hp Hn. destruct (connection w); [|simpl; auto].
    revert w Hp Hn. fold (halts n (shutdown ;;; close)).
    unfold close. halts_auto.
Qed.

(** X25.  Against a peer that falls silent - once the bytes it has sent are
    read, every further read times out - [main] comes to an end, by a return
    or by an exception: none of its loops goes on reading. *)
Theorem main_ends_when_peer_falls_silent :
  forall (E : Env) (U : bool) (fuel : nat) (args : Args) (w : World),
    peer w = Silent ->
    List.length (inbox w) < fuel ->
    ended (fst (main E U fuel args w)) = true.
Proof.
  intros E U fuel args w Hp Hn.
  apply (halts_main E U (List.length (inbox w)) fuel args Hn w Hp (le_n _)).
Qed.

Lemma main_ends_when_peer_falls_silent_witness :
  ended (fst (main demo_env false 4 (demo_args false)
                (demo_world [Chunk (b "HTTP/1.1 101 Switching Protocols"
                                    ++ CRLFCRLF); Chunk (b "HDE")] Silent)))
  = true.
Proof.
  apply (main_ends_when_peer_falls_silent demo_env false 4 (demo_args false)
           (demo_world [Chunk (b "HTTP/1.1 101 Switching Protocols" ++ CRLFCRLF);
                        Chunk (b "HDE")] Silent)).
  - reflexivity.
  - simpl. lia.
Defined.

(** ** A peer that does not reset the connection *)

Lemma no_reset_tl (l : list recv_outcome) :
  no_reset l = true -> no_reset (tl l) = true.
Proof.
  destruct l as [|r l]; [auto|]. simpl. intros H.
  apply andb_true_iff in H. apply H.
Qed.

Lemma spares_ret {A} (a : A) : spares (ret a).
Proof. intros w Hw. exists []. simpl. rewrite app_nil_r. auto. Qed.

Lemma spares_raise {A} (e : exn) : spares (@raise A e).
Proof. intros w Hw. exists []. simpl. rewrite app_nil_r. auto. Qed.

Lemma spares_running {A} : spares (@running A).
Proof. intros w Hw. exists []. simpl. rewrite app_nil_r. auto. Qed.

Lemma spares_get_h2 : spares get_h2.
Proof. intros w Hw. exists []. simpl. rewrite app_nil_r. auto. Qed.

Lemma spares_set_h2 (h : H2Connection) : spares (set_h2 h).
Proof. intros w Hw. exists []. simpl. rewrite app_nil_r. auto. Qed.

Lemma spares_set_connection (c : bool) : spares (set_connection c).
Proof. intros w Hw. exists []. simpl. rewrite app_nil_r. auto. Qed.

Lemma spares_log (x : io) : x <> Recv Failed -> spares (log x).
Proof.
  intros Hx w Hw. exists [x]. simpl.
  split; [reflexivity|]. split; [|exact Hw].
  intros [H|[]]. now apply Hx.
Qed.

Lemma spares_bind {A B} (m : M A) (k : A -> M B) :
  spares m -> (forall a, spares (k a)) -> spares (bind m k).
Proof.
  intros Hm Hk w Hw. unfold bind.
  destruct (Hm w Hw) as (t1 & Ht1 & Hs1 & Hw1).
  destruct (m w) as [[a|e|] w1]; simpl in *; eauto.
  destruct (Hk a w1 Hw1) as (t2 & Ht2 & Hs2 & Hw2).
  exists (t1 ++ t2). rewrite Ht2, Ht1, app_assoc.
  split; [reflexivity|]. split; [|exact Hw2].
  rewrite in_app_iff. tauto.
Qed.

Lemma spares_recv (bufsize : N) : spares (recv bufsize).
Proof.
  intros w Hw. rewrite recv_spec. exists [Recv (next_read w)].
  assert (next_read w <> Failed) as Hr.
  { unfold next_read. destruct (inbox w) as [|r l].
    - destruct (peer w); discriminate.
    - simpl in Hw. destruct r; try discriminate. }
  assert (no_reset (inbox (after_read w)) = true) as Hw'
    by (simpl; now apply no_reset_tl).
  unfold after_read. destruct (next_read w); simpl;
    (split; [reflexivity|]); (split; [|exact Hw']);
    intros [H|[]]; try discriminate. now contradiction Hr.
Qed.

Lemma spares_recv_headers (fuel : nat) :
  forall data : bytes, spares (recv_headers fuel data).
Proof.
  induction fuel as [|fuel IH]; intros data; simpl;
    destruct (contains CRLFCRLF data);
    first [apply spares_ret | apply spares_running | idtac].
  apply spares_bind; [apply spares_recv | intros chunk; apply IH].
Qed.

Lemma spares_except_Exception {A} (m : M A) (h : exn -> M A) :
  spares m -> (forall e, spares (h e)) -> spares (except_Exception m h).
Proof.
  intros Hm Hh w Hw. unfold except_Exception.
  destruct (Hm w Hw) as (t1 & Ht1 & Hs1 & Hw1).
  destruct (m w) as [[a|e|] w1]; simpl in *; eauto.
  destruct (is_Exception e); simpl; eauto.
  destruct (Hh e w1 Hw1) as (t2 & Ht2 & Hs2 & Hw2).
  exists (t1 ++ t2). rewrite Ht2, Ht1, app_assoc.
  split; [reflexivity|]. split; [|exact Hw2].
  rewrite in_app_iff. tauto.
Qed.

Lemma spares_finally {A} (m : M A) (fin : M unit) :
  spares m -> spares fin -> spares (finally m fin).
Proof.
  intros Hm Hf w Hw. unfold finally.
  destruct (Hm w Hw) as (t1 & Ht1 & Hs1 & Hw1).
  destruct (m w) as [[a|e|] w1]; simpl in *; eauto;
    destruct (Hf w1 Hw1) as (t2 & Ht2 & Hs2 & Hw2);
    destruct (fin w1) as [[[]|e2|] w2]; simpl in *;
    exists (t1 ++ t2); rewrite Ht2, Ht1, app_assoc;
    (split; [reflexivity|]); (split; [|exact Hw2]);
    rewrite in_app_iff; tauto.
Qed.

Lemma spares_shutdown : spares shutdown.
Proof.
  intros w Hw. unfold shutdown. destruct (reset_by_peer (trace w)).
  - exists []. simpl. rewrite app_nil_r. auto.
  - exists [Shutdown]. simpl. split; [reflexivity|]. split; [|exact Hw].
    intros [H|[]]. discriminate.
Qed.

Ltac spares_auto :=
  repeat first
    [ apply spares_ret | apply spares_raise | apply spares_running
    | apply spares_get_h2 | apply spares_set_h2 | apply spares_set_connection
    | apply spares_log; discriminate
    | apply spares_recv_headers | apply spares_shutdown
    | apply spares_bind; [|intros ?]
    | apply spares_except_Exception; [|intros ?]
    | match goal with
      | |- spares (if ?c then _ else _) => destruct c
      | |- spares (match ?x with _ => _ end) => destruct x
      | |- spares (let (_, _) := ?x in _) => destruct x
      end ].

Lemma spares_scan (E : Env) (U : bool) (fuel : nat) (line : string) :
  spares (scan E U fuel line).
Proof.
  unfold scan, establish_tcp_connection, initiate_upgrade_connection,
    send_initial_request, sendall, get_upgrade_response, print, print_err.
  apply spares_bind; [apply spares_set_connection | intros _].
  apply spares_finally.
  - spares_auto.
    intros w Hw. exists []. rewrite app_nil_r.
    destruct (connect_fails w); simpl; auto.
  - intros w Hw. destruct (connection w).
    + revert w Hw. fold (spares (shutdown ;;; close)). unfold close. spares_auto.
    + exists []. simpl. rewrite app_nil_r. auto.
Qed.

(** X26.  Against a peer that falls silent and does not reset the
    connection - every read of the script gives bytes or times out - [scan]
    returns: whatever the line and whatever was received, the probe ends,
    what it raises is caught, and the [finally] block goes through. *)
Theorem scan_returns_when_peer_falls_silent :
  forall (E : Env) (U : bool) (fuel : nat) (line : string) (w : World),
    peer w = Silent ->
    List.length (inbox w) < fuel ->
    no_reset (inbox w) = true ->
    fst (scan E U fuel line w) = Returned tt.
Proof.
  intros E U fuel line w Hp Hn Hw.
  destruct (halts_scan E U (List.length (inbox w)) fuel line Hn w Hp (le_n _))
    as (He & _).
  destruct (spares_scan E U fuel line w Hw) as (t' & Ht' & Hs & _).
  destruct (scan_run E U fuel line w)
    as (t & Ht & [[Hrun _] | [[Hrun _] | (Hrun & _ & Hin)]]).
  - rewrite Hrun in He. discriminate.
  - exact Hrun.
  - rewrite Ht in Ht'. apply app_inv_head in Ht'. subst t'. contradiction.
Qed.

Lemma scan_returns_when_peer_falls_silent_witness :
  fst (scan demo_env false 4 "http://proxy.test"
         (demo_world [Chunk (b "HTTP/1.1 101"); TimedOut] Silent)) = Returned tt.
Proof.
  apply (scan_returns_when_peer_falls_silent demo_env false 4 "http://proxy.test"
           (demo_world [Chunk (b "HTTP/1.1 101"); TimedOut] Silent)).
  - reflexivity.
  - simpl. lia.
  - reflexivity.
Defined.
